(** * ToDo-TypeScript: the record store, the result wrapper and the task
      application state, embedded over a small JavaScript object heap.

    The source is [utils.ts] (classes [Repository], [Result]) and [app.ts]
    (class [TodoAppState]).

    - Objects are reference values: an object literal, a spread [{ ...x }]
      and [new Date(..)] allocate a new object, and a property may hold a
      reference to another object.  The heap below makes that explicit, so
      that sharing between the store and its callers can be stated.
    - An object that a method only reads (an argument that it spreads, or
      whose properties it tests) is given by the finite map of its own
      properties at the time of the call.  An object that a method stores or
      returns is an address in the heap.
    - The array [items] of a store is replaced as a whole on every change
      and is never handed out ([getAll] builds a new array), so it is a list
      of addresses.
    - [new Date()] reads the clock: the reading is the parameter [now] of
      the method.  [new Date(s)] parses a string: the parser is the
      parameter [Date_parse].  An invalid date (time value NaN) is
      [CDate None].
    - A method that can throw returns [throws A]; the others are plain
      functions.
    - Numbers that the source uses as identities or as time values are
      integers ([Z]): they are taken in the range where JavaScript
      arithmetic on them is exact. *)

From Stdlib Require Import Ascii.
From stdpp Require Import gmap strings list fin_maps pretty.

Local Open Scope Z_scope.

(** ** Values, objects, heap *)

Abbreviation loc := positive.

Inductive value :=
| VUndef
| VNull
| VBool (b : bool)
| VNum (n : Z)
| VStr (s : string)
| VRef (l : loc).

#[global] Instance value_eq_dec : EqDecision value.
Proof. solve_decision. Defined.

(** An object is the finite map of its own properties. *)
Abbreviation object := (gmap string value).

Inductive cell :=
| CObj (o : gmap string value)
| CDate (t : option Z).

#[global] Instance cell_eq_dec : EqDecision cell.
Proof. solve_decision. Defined.

Abbreviation heap := (gmap loc cell).

(** A thrown [Error]. *)
Inductive exn := Error (message : string).

#[global] Instance exn_eq_dec : EqDecision exn.
Proof. solve_decision. Defined.

(** Computations that may throw. *)
Definition throws (A : Type) : Type := exn + A.

#[global] Instance throws_ret : MRet throws := λ A a, inr a.
#[global] Instance throws_bind : MBind throws :=
  λ A B f m, match m with inl e => inl e | inr a => f a end.

(** [new]: the object gets an address that is not in use. *)
Definition alloc (h : heap) (c : cell) : heap * loc :=
  let l := fresh (dom h) in (<[l := c]> h, l).

(** The own enumerable properties of what lives at [l] (what a spread
    [{ ...x }] copies): a [Date] has none. *)
Definition props (h : heap) (l : loc) : gmap string value :=
  match h !! l with
  | Some (CObj o) => o
  | _ => ∅
  end.

(** [o.k] on a property map, and [x.k] through a reference. *)
Definition prop (o : gmap string value) (k : string) : value :=
  default VUndef (o !! k).

Definition field (h : heap) (l : loc) (k : string) : value :=
  prop (props h l) k.

(** [{ ...x }] *)
Definition spread (h : heap) (l : loc) : heap * loc :=
  alloc h (CObj (props h l)).

(** [xs.map(item => ({ ...item }))] *)
Fixpoint spread_all (h : heap) (ls : list loc) : heap * list loc :=
  match ls with
  | [] => (h, [])
  | l :: ls' =>
      let '(h1, c) := spread h l in
      let '(h2, cs) := spread_all h1 ls' in
      (h2, c :: cs)
  end.

(** Truthiness of a value in a condition. *)
Definition truthy (v : value) : bool :=
  match v with
  | VUndef | VNull => false
  | VBool b => b
  | VNum n => negb (n =? 0)
  | VStr s => negb (String.eqb s EmptyString)
  | VRef _ => true
  end.

(** [v instanceof Date] *)
Definition instanceof_Date (h : heap) (v : value) : bool :=
  match v with
  | VRef l => match h !! l with Some (CDate _) => true | _ => false end
  | _ => false
  end.

(** [d.getTime()]; [None] when [v] is not a date or the date is invalid. *)
Definition getTime (h : heap) (v : value) : option Z :=
  match v with
  | VRef l => match h !! l with Some (CDate t) => t | _ => None end
  | _ => None
  end.

(** [`${v}`] for the values that occur in messages. *)
Definition to_string (v : value) : string :=
  match v with
  | VUndef => "undefined"
  | VNull => "null"
  | VBool b => if b then "true" else "false"
  | VNum n => pretty n
  | VStr s => s
  | VRef _ => "[object Object]"
  end.

(** ** utils.ts: class Repository<T extends { id: number }> *)

Module Repository.

(** [private items: T[]], [private nextId]. *)
Record t := { items : list loc; nextId : Z }.

(** [item.id <= 0]; [id] is a number by the bound on [T]. *)
Definition nonpositive (v : value) : bool :=
  match v with
  | VNum n => bool_decide (n ≤ 0)
  | _ => false
  end.

(** [Math.max(0, ...ids)] over numbers. *)
Definition Math_max0 (ids : list value) : Z :=
  foldr (λ v m, match v with VNum n => Z.max n m | _ => m end) 0 ids.

(** The callback of [initialItems.map] in the constructor, with the set
    [seenIds] threaded through. *)
Fixpoint load (h : heap) (seenIds : list value) (initialItems : list object)
  : throws (heap * list loc) :=
  match initialItems with
  | [] => mret (h, [])
  | item :: rest =>
      let id := prop item "id" in
      if nonpositive id then
        inl (Error ("Invalid ID: " +:+ to_string id +:+ ". ID must be a positive number"))
      else if bool_decide (id ∈ seenIds) then
        inl (Error ("Duplicate ID found: " +:+ to_string id))
      else
        let '(h1, l) := alloc h (CObj item) in
        '(h2, ls) ← load h1 (id :: seenIds) rest;
        mret (h2, l :: ls)
  end.

(** [constructor(initialItems)]: the copies are made first, then
    [nextId] is worked out from the initial items. *)
Definition constructor (h : heap) (initialItems : list object)
  : throws (heap * t) :=
  '(h', ls) ← load h [] initialItems;
  let n := if bool_decide (0 < length initialItems)%nat
           then Math_max0 (map (λ item, prop item "id") initialItems) + 1
           else 1 in
  mret (h', {| items := ls; nextId := n |}).

(** [this.items.map(item => ({ ...item }))] *)
Definition getAll (h : heap) (r : t) : heap * list loc :=
  spread_all h (items r).

(** [this.items.find(item => item.id === id)] and
    [this.items.findIndex(item => item.id === id)]: the first match,
    with its index. *)
Definition findIndex (h : heap) (r : t) (id : Z) : option (nat * loc) :=
  list_find (λ l, field h l "id" = VNum id) (items r).

(** [item ? { ...item } : undefined] *)
Definition getById (h : heap) (r : t) (id : Z) : heap * option loc :=
  match findIndex h r id with
  | Some (_, item) => let '(h1, c) := spread h item in (h1, Some c)
  | None => (h, None)
  end.

(** [newItem = { ...item, id: this.nextId++ }], stored at the end, and a
    copy of it returned. *)
Definition create (h : heap) (r : t) (item : object) : heap * t * loc :=
  let '(h1, newItem) := alloc h (CObj (<["id" := VNum (nextId r)]> item)) in
  let r' := {| items := items r ++ [newItem]; nextId := nextId r + 1 |} in
  let '(h2, c) := spread h1 newItem in
  (h2, r', c).

(** [{ ...updatedItems[index], ...updates }]: a property of [updates]
    wins over one of the old item, which is the union that prefers its left
    operand. *)
Definition update (h : heap) (r : t) (id : Z) (updates : object)
  : heap * t * option loc :=
  match findIndex h r id with
  | None => (h, r, None)
  | Some (index, old) =>
      let '(h1, merged) := alloc h (CObj (updates ∪ props h old)) in
      let updatedItems := <[index := merged]> (items r) in
      let r' := {| items := updatedItems; nextId := nextId r |} in
      let '(h2, c) := spread h1 merged in
      (h2, r', Some c)
  end.

(** [this.items.filter(item => item.id !== id)], and whether the array
    got shorter. *)
Definition delete (h : heap) (r : t) (id : Z) : t * bool :=
  let initialLength := length (items r) in
  let kept := filter (λ l, field h l "id" ≠ VNum id) (items r) in
  ({| items := kept; nextId := nextId r |},
   bool_decide (length kept < initialLength)%nat).

(** [exists(id)] *)
Definition exists_ (h : heap) (r : t) (id : Z) : bool :=
  bool_decide (Exists (λ l, field h l "id" = VNum id) (items r)).

Definition count (r : t) : nat := length (items r).

Definition query (h : heap) (r : t) (predicate : heap → loc → bool)
  : heap * list loc :=
  spread_all h (filter (λ l, predicate h l = true) (items r)).

End Repository.

(** ** utils.ts: class Result<T> *)

Module Result.

Record t := {
  isSuccess : bool;
  isFailure : bool;
  error : option string;
  _value : value
}.

(** Truthiness of [error?: string]. *)
Definition has_message (error : option string) : bool :=
  match error with
  | Some s => truthy (VStr s)
  | None => false
  end.

(** The private constructor; [error] is tested for truthiness. *)
Definition constructor (isSuccess : bool) (error : option string)
    (value : value) : throws t :=
  if isSuccess && has_message error then
    inl (Error "InvalidOperation: A result cannot be successful and contain an error")
  else if negb isSuccess && negb (has_message error) then
    inl (Error "InvalidOperation: A failing result needs to contain an error message")
  else
    mret {| isSuccess := isSuccess;
            isFailure := negb isSuccess;
            error := error;
            _value := value |}.

Definition getValue (r : t) : throws value :=
  if negb (isSuccess r) then
    inl (Error "Can't get the value of a failed result.")
  else mret (_value r).

(** [ok(value?)]: an omitted argument is [VUndef]. *)
Definition ok (value : value) : throws t := constructor true None value.

Definition fail (error : string) : throws t :=
  constructor false (Some error) VUndef.

Definition combine (results : list t) : throws t :=
  match List.find isFailure results with
  | Some result => mret result
  | None => ok VUndef
  end.

End Result.

(** ** app.ts: class TodoAppState *)

Inductive TodoStatus := pending | in_progress | completed.

#[global] Instance TodoStatus_eq_dec : EqDecision TodoStatus.
Proof. solve_decision. Defined.

Definition status_string (s : TodoStatus) : string :=
  match s with
  | pending => "pending"
  | in_progress => "in-progress"
  | completed => "completed"
  end.

(** ['all' | TodoStatus] *)
Inductive Filter := all | only (s : TodoStatus).

Definition filter_string (f : Filter) : string :=
  match f with
  | all => "all"
  | only s => status_string s
  end.

Module TodoAppState.

Record t := { todoRepository : Repository.t; _filter : Filter }.

Definition with_repository (s : t) (r : Repository.t) : t :=
  {| todoRepository := r; _filter := _filter s |}.

(** [new Repository<Todo>([])], and [_filter = 'all']. *)
Definition constructor (h : heap) : throws (heap * t) :=
  '(h', r) ← Repository.constructor h [];
  mret (h', {| todoRepository := r; _filter := all |}).

(** [set filter(value)] *)
Definition set_filter (s : t) (value : Filter) : t :=
  {| todoRepository := todoRepository s; _filter := value |}.

(** [get todos()]; [getAll()] always returns an array, so the [|| []] of
    the source never applies. *)
Definition todos (h : heap) (s : t) : heap * list loc :=
  let '(h1, allTodos) := Repository.getAll h (todoRepository s) in
  if bool_decide (filter_string (_filter s) = "all") then (h1, allTodos)
  else
    (h1, filter (λ todo, field h1 todo "status"
                         = VStr (filter_string (_filter s))) allTodos).

(** [addTodo]; [now] is what [new Date()] reads from the clock, and the
    one date is both [createdAt] and [updatedAt].  Of the calls inside the
    [try], only [Result.ok] returns [throws]; the [catch] is its [inl]
    branch. *)
Definition addTodo (now : Z) (h : heap) (s : t) (todo : object)
  : throws (heap * t * Result.t) :=
  let '(h1, d) := alloc h (CDate (Some now)) in
  let newTodo :=
    <["updatedAt" := VRef d]>
      (<["createdAt" := VRef d]> (<["id" := VNum 0]> todo)) in
  let '(h2, r, createdTodo) :=
    Repository.create h1 (todoRepository s) newTodo in
  match Result.ok (VRef createdTodo) with
  | inr res => mret (h2, with_repository s r, res)
  | inl _ =>
      res ← Result.fail "Failed to add todo";
      mret (h2, with_repository s r, res)
  end.

Section WithDateParse.

(** The time value that [new Date(s)] gives to a string. *)
Context (Date_parse : string → option Z).

(** [new Date(v)] for a value that is not a [Date]. *)
Definition new_Date (h : heap) (v : value) : heap * loc :=
  alloc h (CDate match v with
                 | VStr s => Date_parse s
                 | VNum n => Some n
                 | _ => None
                 end).

(** The [dueDate] part of [updateTodo]: the value that goes into
    [updateData.dueDate]. *)
Definition dueDate_update (h : heap) (todo : loc) (dueDate : value)
  : heap * value :=
  if bool_decide (dueDate = VNull) then (h, VUndef)
  else if instanceof_Date h dueDate then (h, dueDate)
  else if truthy dueDate then
    let '(h', d) := new_Date h dueDate in (h', VRef d)
  else (h, field h todo "dueDate").

(** [if (updates.k !== undefined) updateData.k = updates.k] *)
Definition copy_defined (updates : object) (k : string)
    (updateData : object) : object :=
  if bool_decide (prop updates k ≠ VUndef)
  then <[k := prop updates k]> updateData
  else updateData.

(** [updateTodo(id, updates)]; [now] is the clock reading of
    [updatedAt: new Date()]. *)
Definition updateTodo (now : Z) (h : heap) (s : t) (id : Z)
    (updates : object) : throws (heap * t * Result.t) :=
  let '(h1, found) := Repository.getById h (todoRepository s) id in
  match found with
  | None =>
      res ← Result.fail "Todo not found";
      mret (h1, s, res)
  | Some todo =>
      let '(h2, d) := alloc h1 (CDate (Some now)) in
      let updateData : object := {["updatedAt" := VRef d]} in
      let updateData := copy_defined updates "text" updateData in
      let updateData := copy_defined updates "status" updateData in
      let updateData := copy_defined updates "priority" updateData in
      let '(h3, updateData) :=
        if bool_decide (is_Some (updates !! "dueDate")) then
          let '(h', v) := dueDate_update h2 todo (prop updates "dueDate") in
          (h', <["dueDate" := v]> updateData)
        else (h2, updateData) in
      let '(h4, r, updatedTodo) :=
        Repository.update h3 (todoRepository s) id updateData in
      match updatedTodo with
      | Some u =>
          res ← Result.ok (VRef u);
          mret (h4, with_repository s r, res)
      | None =>
          res ← Result.fail "Failed to update todo";
          mret (h4, with_repository s r, res)
      end
  end.

End WithDateParse.

Definition deleteTodo (h : heap) (s : t) (id : Z)
  : throws (t * Result.t) :=
  let '(r, success) := Repository.delete h (todoRepository s) id in
  if success then
    res ← Result.ok (VBool true);
    mret (with_repository s r, res)
  else
    res ← Result.fail "Todo not found";
    mret (with_repository s r, res).

End TodoAppState.

(** ** Well-formed stores *)

(** No dangling reference: every stored item is an object of the heap. *)
Definition is_object (h : heap) (l : loc) : Prop :=
  match h !! l with
  | Some (CObj _) => True
  | _ => False
  end.

Definition closed (h : heap) (r : Repository.t) : Prop :=
  Forall (is_object h) (Repository.items r).

(** [item.id] of an object given by its properties. *)
Definition id_of (item : object) : value := prop item "id".

(** The identities of the stored items, in insertion order. *)
Definition ids (h : heap) (r : Repository.t) : list value :=
  map (λ l, field h l "id") (Repository.items r).

Definition unique_ids (h : heap) (r : Repository.t) : Prop :=
  NoDup (ids h r).

(** Every stored identity is a positive number below [nextId]. *)
Definition below (bound : Z) (v : value) : Prop :=
  match v with
  | VNum n => 0 < n < bound
  | _ => False
  end.

Definition ids_below_next (h : heap) (r : Repository.t) : Prop :=
  Forall (below (Repository.nextId r)) (ids h r).

Definition store_inv (h : heap) (r : Repository.t) : Prop :=
  closed h r ∧ unique_ids h r ∧ ids_below_next h r
  ∧ 0 < Repository.nextId r.

#[global] Instance below_dec bound v : Decision (below bound v).
Proof. destruct v; simpl; apply _. Defined.

#[global] Instance is_object_dec h l : Decision (is_object h l).
Proof. unfold is_object. destruct (h !! l) as [[?|?]|]; apply _. Defined.

#[global] Instance closed_dec h r : Decision (closed h r).
Proof. unfold closed. apply _. Defined.

#[global] Instance unique_ids_dec h r : Decision (unique_ids h r).
Proof. unfold unique_ids. apply _. Defined.

#[global] Instance ids_below_next_dec h r : Decision (ids_below_next h r).
Proof. unfold ids_below_next. apply _. Defined.

#[global] Instance store_inv_dec h r : Decision (store_inv h r).
Proof. unfold store_inv. apply _. Defined.

(** What [T extends { id: number }] says of an initial item, and what
    [Partial<Omit<T, 'id'>>] says of an update. *)
Definition has_numeric_id (item : object) : Prop :=
  match prop item "id" with
  | VNum _ => True
  | _ => False
  end.

Definition omits_id (updates : object) : Prop := updates !! "id" = None.

#[global] Instance has_numeric_id_dec item : Decision (has_numeric_id item).
Proof. unfold has_numeric_id. destruct (prop item "id"); apply _. Defined.

#[global] Instance omits_id_dec updates : Decision (omits_id updates).
Proof. unfold omits_id. apply _. Defined.

(** ** A caller of one store *)

Module Client.

(** The calls a caller makes on the store, and what it does to the
    objects the store handed out: [Assign l k v] is [x.k = v] and
    [SetTime l k time] is [x.k.setTime(time)], for an object [x] that an
    earlier call returned. *)
Inductive action :=
| GetAll
| GetById (id : Z)
| Create (item : object)
| Update (id : Z) (updates : object)
| Delete (id : Z)
| Assign (l : loc) (k : string) (v : value)
| SetTime (l : loc) (k : string) (time : Z).

Record state := {
  hp : heap;
  store : Repository.t;
  handed : list loc
}.

Definition assign (h : heap) (l : loc) (k : string) (v : value) : heap :=
  match h !! l with
  | Some (CObj o) => <[l := CObj (<[k := v]> o)]> h
  | _ => h
  end.

Definition setTime (h : heap) (d : value) (time : Z) : heap :=
  match d with
  | VRef l =>
      match h !! l with
      | Some (CDate _) => <[l := CDate (Some time)]> h
      | _ => h
      end
  | _ => h
  end.

Definition step (s : state) (a : action) : state :=
  match a with
  | GetAll =>
      let '(h, ls) := Repository.getAll (hp s) (store s) in
      {| hp := h; store := store s; handed := ls ++ handed s |}
  | GetById id =>
      let '(h, found) := Repository.getById (hp s) (store s) id in
      {| hp := h; store := store s;
         handed := option_list found ++ handed s |}
  | Create item =>
      let '(h, r, c) := Repository.create (hp s) (store s) item in
      {| hp := h; store := r; handed := c :: handed s |}
  | Update id updates =>
      let '(h, r, found) := Repository.update (hp s) (store s) id updates in
      {| hp := h; store := r; handed := option_list found ++ handed s |}
  | Delete id =>
      let '(r, _) := Repository.delete (hp s) (store s) id in
      {| hp := hp s; store := r; handed := handed s |}
  | Assign l k v =>
      if bool_decide (l ∈ handed s)
      then {| hp := assign (hp s) l k v; store := store s;
              handed := handed s |}
      else s
  | SetTime l k time =>
      if bool_decide (l ∈ handed s)
      then {| hp := setTime (hp s) (field (hp s) l k) time;
              store := store s; handed := handed s |}
      else s
  end.

Definition run (s : state) (acts : list action) : state :=
  foldl step s acts.

(** The caller has just built the store and holds none of its objects. *)
Definition start (h : heap) (r : Repository.t) : state :=
  {| hp := h; store := r; handed := [] |}.

(** The calls of a well-typed caller. *)
Definition typed (a : action) : Prop :=
  match a with
  | Update _ updates => omits_id updates
  | _ => True
  end.

#[global] Instance typed_dec a : Decision (typed a).
Proof. destruct a; simpl; apply _. Defined.

(** What a caller can do to an object that it was handed. *)
Definition is_mutation (a : action) : Prop :=
  match a with
  | Assign _ _ _ | SetTime _ _ _ => True
  | _ => False
  end.

(** What a caller can see of a property value: a date by its time,
    another object by its identity. *)
Inductive seen :=
| Plain (v : value)
| DateAt (time : option Z).

Definition look (h : heap) (v : value) : seen :=
  match v with
  | VRef l =>
      match h !! l with
      | Some (CDate t) => DateAt t
      | _ => Plain v
      end
  | _ => Plain v
  end.

Definition view (h : heap) (l : loc) : gmap string seen :=
  look h <$> props h l.

(** The objects that were handed out are in the heap and none of them is
    a stored item. *)
Definition separated (s : state) : Prop :=
  Forall (λ l, is_Some (hp s !! l) ∧ l ∉ Repository.items (store s))
    (handed s).

Definition isolated (s : state) : Prop :=
  closed (hp s) (store s) ∧ separated s.

Definition getAll_view (s : state) : list (gmap string seen) :=
  let '(h, ls) := Repository.getAll (hp s) (store s) in
  map (view h) ls.

Definition getById_view (s : state) (id : Z) : option (gmap string seen) :=
  let '(h, found) := Repository.getById (hp s) (store s) id in
  view h <$> found.

(** [getAll()] and every [getById(id)] show the same in [s'] as in [s]. *)
Definition reads_unchanged (s s' : state) : Prop :=
  getAll_view s' = getAll_view s
  ∧ ∀ id, getById_view s' id = getById_view s id.

End Client.

(** ** A session of the application *)

Module Session.

(** The three operations that change the tasks; [now] is the reading of
    the clock when the operation runs. *)
Inductive op :=
| AddTodo (now : Z) (todo : object)
| UpdateTodo (now : Z) (id : Z) (updates : object)
| DeleteTodo (id : Z).

Section WithDateParse.

Context (Date_parse : string → option Z).

Definition perform (h : heap) (s : TodoAppState.t) (o : op)
  : throws (heap * TodoAppState.t) :=
  match o with
  | AddTodo now todo =>
      '(h', s', _) ← TodoAppState.addTodo now h s todo;
      mret (h', s')
  | UpdateTodo now id updates =>
      '(h', s', _) ← TodoAppState.updateTodo Date_parse now h s id updates;
      mret (h', s')
  | DeleteTodo id =>
      '(s', _) ← TodoAppState.deleteTodo h s id;
      mret (h, s')
  end.

Fixpoint run (h : heap) (s : TodoAppState.t) (ops : list op)
  : throws (heap * TodoAppState.t) :=
  match ops with
  | [] => mret (h, s)
  | o :: rest => '(h', s') ← perform h s o; run h' s' rest
  end.

(** [new TodoAppState()], then the operations. *)
Definition session (h : heap) (ops : list op)
  : throws (heap * TodoAppState.t) :=
  '(h', s) ← TodoAppState.constructor h; run h' s ops.

End WithDateParse.

Definition time_of (o : op) : option Z :=
  match o with
  | AddTodo now _ | UpdateTodo now _ _ => Some now
  | DeleteTodo _ => None
  end.

(** The clock readings of a session, in order. *)
Definition times (ops : list op) : list Z := omap time_of ops.

(** The clock never goes back. *)
Fixpoint nondecreasing (ts : list Z) : Prop :=
  match ts with
  | t :: rest =>
      match rest with
      | t' :: _ => t ≤ t' ∧ nondecreasing rest
      | [] => True
      end
  | [] => True
  end.

End Session.

(** [createdAt <= updatedAt] for the task at [l]; both are valid dates. *)
Definition ordered_stamps (h : heap) (l : loc) : Prop :=
  match getTime h (field h l "createdAt"),
        getTime h (field h l "updatedAt") with
  | Some created, Some updated => created ≤ updated
  | _, _ => False
  end.

(** The same, with both times at or before the reading [bound]. *)
Definition stamps_within (bound : Z) (h : heap) (l : loc) : Prop :=
  match getTime h (field h l "createdAt"),
        getTime h (field h l "updatedAt") with
  | Some created, Some updated => created ≤ updated ≤ bound
  | _, _ => False
  end.

(** Every stored task is stamped in order, up to the reading [bound]. *)
Definition stamped (bound : Z) (h : heap) (s : TodoAppState.t) : Prop :=
  closed h (TodoAppState.todoRepository s)
  ∧ Forall (stamps_within bound h)
      (Repository.items (TodoAppState.todoRepository s)).

(** ** Sample data: two stored tasks *)

Module Sample.

Definition todo (id : Z) (text status : string) (created updated : loc)
  : object :=
  {[ "id" := VNum id; "text" := VStr text; "status" := VStr status;
     "priority" := VStr "medium";
     "createdAt" := VRef created; "updatedAt" := VRef updated ]}.

Definition hp : heap :=
  {[ 1%positive := CDate (Some 100);
     2%positive := CObj (todo 1 "Buy milk" "pending" 1 1);
     3%positive := CDate (Some 200);
     4%positive := CObj (todo 2 "Walk dog" "completed" 3 3) ]}.

Definition repo : Repository.t :=
  {| Repository.items := [2%positive; 4%positive]; Repository.nextId := 3 |}.

Definition app : TodoAppState.t :=
  {| TodoAppState.todoRepository := repo; TodoAppState._filter := all |}.

(** A caller's heap with one date, and one initial item that refers to
    it. *)
Definition dated : heap := {[ 1%positive := CDate (Some 1000) ]}.

Definition dated_items : list object :=
  [ {[ "id" := VNum 1; "createdAt" := VRef 1 ]} ].

(** [new TodoAppState()] *)
Definition fresh_app : TodoAppState.t :=
  {| TodoAppState.todoRepository :=
       {| Repository.items := []; Repository.nextId := 1 |};
     TodoAppState._filter := all |}.

(** Two initial items, and a caller that creates, deletes and updates. *)
Definition loaded : list object :=
  [ {[ "id" := VNum 3; "text" := VStr "a" ]};
    {[ "id" := VNum 7; "text" := VStr "b" ]} ].

Definition calls : list Client.action :=
  [ Client.Create {[ "text" := VStr "c" ]};
    Client.Delete 3;
    Client.Update 7 {[ "text" := VStr "B" ]};
    Client.GetAll ].

End Sample.

(** ** app.ts: type guards *)

(** [['pending', 'in-progress', 'completed'].includes(status)] *)
Definition isTodoStatus (status : value) : bool :=
  bool_decide
    (status ∈ [VStr "pending"; VStr "in-progress"; VStr "completed"]).

(** [['low', 'medium', 'high'].includes(priority)] *)
Definition isTodoPriority (priority : value) : bool :=
  bool_decide (priority ∈ [VStr "low"; VStr "medium"; VStr "high"]).

(** [typeof v === 'number'] and [typeof v === 'string']. *)
Definition is_number (v : value) : bool :=
  match v with VNum _ => true | _ => false end.

Definition is_string (v : value) : bool :=
  match v with VStr _ => true | _ => false end.

(** [isValidTodo(todo)]: [typeof todo === 'object'] and [todo !== null]
    leave the references; a property of something that is not a plain
    object reads [undefined]. *)
Definition isValidTodo (h : heap) (todo : value) : bool :=
  match todo with
  | VRef l =>
      is_number (field h l "id")
      && is_string (field h l "text")
      && isTodoStatus (field h l "status")
      && instanceof_Date h (field h l "createdAt")
      && instanceof_Date h (field h l "updatedAt")
      && (bool_decide (field h l "dueDate" = VUndef)
          || instanceof_Date h (field h l "dueDate"))
      && isTodoPriority (field h l "priority")
  | _ => false
  end.

(** ** app.ts: the response formatters of TodoAppState *)

Module Formatters.

Section WithToISOString.

(** The text that [toISOString()] gives for a valid time value. *)
Context (toISOString : Z → string).

(** [v.toISOString()]: a [RangeError] on an invalid date, a [TypeError] on
    what is not a date. *)
Definition Date_toISOString (h : heap) (v : value) : throws string :=
  match v with
  | VRef l =>
      match h !! l with
      | Some (CDate (Some t)) => mret (toISOString t)
      | Some (CDate None) => inl (Error "RangeError: Invalid time value")
      | _ => inl (Error "TypeError: toISOString is not a function")
      end
  | _ => inl (Error "TypeError: toISOString is not a function")
  end.

(** [{ ...todo, dueDate: todo.dueDate ? todo.dueDate.toISOString() : null }] *)
Definition formatTodoResponse (h : heap) (todo : object)
  : throws (heap * loc) :=
  dueDate ←
    (if truthy (prop todo "dueDate")
     then iso ← Date_toISOString h (prop todo "dueDate"); mret (VStr iso)
     else mret VNull);
  mret (alloc h (CObj (<["dueDate" := dueDate]> todo))).

(** [todos.map(todo => this.formatTodoResponse(todo))] *)
Fixpoint formatTodoListResponse (h : heap) (todos : list object)
  : throws (heap * list loc) :=
  match todos with
  | [] => mret (h, [])
  | todo :: rest =>
      '(h1, l) ← formatTodoResponse h todo;
      '(h2, ls) ← formatTodoListResponse h1 rest;
      mret (h2, l :: ls)
  end.

End WithToISOString.

End Formatters.

(** ** app.ts: escapeHtml *)

(** The double quote character (code 34). *)
Definition double_quote : Ascii.ascii := Ascii.ascii_of_nat 34.

(** [s.replace(/c/g, replacement)] for a pattern of one character and a
    replacement without [$]. *)
Fixpoint replace_all (c : Ascii.ascii) (replacement : string) (s : string)
  : string :=
  match s with
  | EmptyString => EmptyString
  | String a rest =>
      if Ascii.eqb a c
      then replacement +:+ replace_all c replacement rest
      else String a (replace_all c replacement rest)
  end.

Definition escapeHtml (unsafe : string) : string :=
  replace_all "'"%char "&#039;"
    (replace_all double_quote "&quot;"
       (replace_all ">"%char "&gt;"
          (replace_all "<"%char "&lt;"
             (replace_all "&"%char "&amp;" unsafe)))).

(** What one character becomes, for the statement of [escapeHtml]. *)
Definition entity (c : Ascii.ascii) : string :=
  if Ascii.eqb c "&" then "&amp;"
  else if Ascii.eqb c "<" then "&lt;"
  else if Ascii.eqb c ">" then "&gt;"
  else if Ascii.eqb c double_quote then "&quot;"
  else if Ascii.eqb c "'" then "&#039;"
  else String c EmptyString.

Fixpoint entities (s : string) : string :=
  match s with
  | EmptyString => EmptyString
  | String c rest => entity c +:+ entities rest
  end.

(** The characters that [escapeHtml] replaces. *)
Definition special (c : Ascii.ascii) : bool :=
  Ascii.eqb c "&" || Ascii.eqb c "<" || Ascii.eqb c ">"
  || Ascii.eqb c double_quote || Ascii.eqb c "'".

Fixpoint occurs (c : Ascii.ascii) (s : string) : bool :=
  match s with
  | EmptyString => false
  | String a rest => Ascii.eqb a c || occurs c rest
  end.

(** ** app.ts: formatTimeAgo *)

(** The object [intervals], in the order of [Object.entries]. *)
Definition intervals : list (string * Z) :=
  [ ("year", 31536000); ("month", 2592000); ("week", 604800);
    ("day", 86400); ("hour", 3600); ("minute", 60); ("second", 1) ].

(** [interval === 1 ? `1 ${unit} ago` : `${interval} ${unit}s ago`] *)
Definition ago (interval : Z) (unit : string) : string :=
  if bool_decide (interval = 1) then "1 " +:+ unit +:+ " ago"
  else pretty interval +:+ " " +:+ unit +:+ "s ago".

(** The [for] loop over the entries, and the ['just now'] after it. *)
Fixpoint first_interval (seconds : Z) (entries : list (string * Z))
  : string :=
  match entries with
  | [] => "just now"
  | (unit, secondsInUnit) :: rest =>
      let interval := seconds / secondsInUnit in
      if bool_decide (1 ≤ interval) then ago interval unit
      else first_interval seconds rest
  end.

Section WithClock.

Context (Date_parse : string → option Z).

(** The time value of [new Date(date)] for a date or a string. *)
Definition time_value (h : heap) (date : value) : option Z :=
  match date with
  | VStr s => Date_parse s
  | _ => getTime h date
  end.

(** [formatTimeAgo(date)]; [now] is [Date.now()].  With an invalid date
    [seconds] is NaN and no comparison holds. *)
Definition formatTimeAgo (now : Z) (h : heap) (date : value) : string :=
  match time_value h date with
  | Some time => first_interval ((now - time) / 1000) intervals
  | None => "just now"
  end.

End WithClock.

(** ** utils.ts: class ApiHandler *)

Module ApiHandler.

Record ApiResponse (T : Type) := {
  data : T;
  status : Z;
  success : bool;
  message : option string;
  timestamp : Z
}.

Record PaginatedResponse (T : Type) := {
  response : ApiResponse (list T);
  page : Z;
  pageSize : Z;
  total : Z;
  totalPages : option Z
}.

Arguments data {T}.
Arguments status {T}.
Arguments success {T}.
Arguments message {T}.
Arguments timestamp {T}.
Arguments response {T}.
Arguments page {T}.
Arguments pageSize {T}.
Arguments total {T}.
Arguments totalPages {T}.

(** [Math.ceil(a / b)] on integers: [None] when the quotient is not a
    finite number, which is when [b] is 0. *)
Definition Math_ceil_div (a b : Z) : option Z :=
  if bool_decide (b = 0) then None else Some (- ((- a) / b)).

(** [now] is the clock reading of [timestamp: new Date()]. *)
Definition createSuccessResponse {T} (now : Z) (data : T) (message : string)
  : ApiResponse T :=
  {| data := data; status := 200; success := true;
     message := Some message; timestamp := now |}.

Definition createPaginatedResponse {T} (now : Z) (items : list T)
    (page pageSize total : Z) (message : string) : PaginatedResponse T :=
  {| response := {| data := items; status := 200; success := true;
                    message := Some message; timestamp := now |};
     page := page; pageSize := pageSize; total := total;
     totalPages := Math_ceil_div total pageSize |}.

Definition createErrorResponse (now : Z) (status : Z) (message : string)
  : ApiResponse value :=
  {| data := VNull; status := status; success := false;
     message := Some message; timestamp := now |}.

End ApiHandler.

(** ** Well-typed arguments of a session *)

(** What [Omit<Todo, 'id' | 'createdAt' | 'updatedAt'>] says of the
    argument of [addTodo]; a due date is a date of the heap [h]. *)
Definition typed_todo (h : heap) (todo : object) : bool :=
  is_string (prop todo "text")
  && isTodoStatus (prop todo "status")
  && isTodoPriority (prop todo "priority")
  && (bool_decide (prop todo "dueDate" = VUndef)
      || instanceof_Date h (prop todo "dueDate")).

(** What [UpdateTodoDto] says of the argument of [updateTodo]. *)
Definition typed_updates (h : heap) (updates : object) : bool :=
  (bool_decide (prop updates "text" = VUndef)
   || is_string (prop updates "text"))
  && (bool_decide (prop updates "status" = VUndef)
      || isTodoStatus (prop updates "status"))
  && (bool_decide (prop updates "priority" = VUndef)
      || isTodoPriority (prop updates "priority"))
  && (bool_decide (prop updates "dueDate" = VUndef)
      || bool_decide (prop updates "dueDate" = VNull)
      || is_string (prop updates "dueDate")
      || instanceof_Date h (prop updates "dueDate")).

Definition typed_op (h : heap) (o : Session.op) : bool :=
  match o with
  | Session.AddTodo _ todo => typed_todo h todo
  | Session.UpdateTodo _ _ updates => typed_updates h updates
  | Session.DeleteTodo _ => true
  end.

(** Every stored task passes [isValidTodo]. *)
Definition all_valid (h : heap) (s : TodoAppState.t) : Prop :=
  Forall (λ l, isValidTodo h (VRef l) = true)
    (Repository.items (TodoAppState.todoRepository s)).

(** The number of [addTodo] calls of a session. *)
Fixpoint additions (ops : list Session.op) : nat :=
  match ops with
  | [] => 0
  | Session.AddTodo _ _ :: rest => S (additions rest)
  | _ :: rest => additions rest
  end.

(** The identities of the application after [n] calls of [addTodo]: the
    store is well formed and the next identity is [n + 1]. *)
Definition counted (n : nat) (h : heap) (s : TodoAppState.t) : Prop :=
  store_inv h (TodoAppState.todoRepository s)
  ∧ Repository.nextId (TodoAppState.todoRepository s) = 1 + Z.of_nat n.

(** * Properties *)

(** Unfolds the bind and return of [throws]. *)
Ltac unthrow := cbv [mret throws_ret mbind throws_bind] in *.

(** ** Allocation and copies *)

Lemma alloc_spec (h : heap) c h1 l :
  alloc h c = (h1, l) → h !! l = None ∧ h1 = <[l := c]> h.
Proof.
  unfold alloc. intros [= <- <-]. split; [|done].
  apply (not_elem_of_dom (D := gset loc)), is_fresh.
Qed.

Lemma alloc_subseteq (h : heap) c h1 l : alloc h c = (h1, l) → h ⊆ h1.
Proof.
  intros [Hl ->]%alloc_spec. by apply insert_subseteq.
Qed.

Lemma props_mono (h h' : heap) l :
  h ⊆ h' → is_Some (h !! l) → props h' l = props h l.
Proof.
  intros Hsub [c Hc]. unfold props.
  by rewrite (lookup_weaken _ _ _ _ Hc Hsub), Hc.
Qed.

Lemma field_mono (h h' : heap) l k :
  h ⊆ h' → is_Some (h !! l) → field h' l k = field h l k.
Proof. intros ??. unfold field. by rewrite (props_mono h h'). Qed.

Lemma props_insert_eq (h : heap) l o : props (<[l := CObj o]> h) l = o.
Proof. unfold props. by rewrite lookup_insert_eq. Qed.

Lemma props_insert_ne (h : heap) l l' c :
  l ≠ l' → props (<[l := c]> h) l' = props h l'.
Proof. intros. unfold props. by rewrite lookup_insert_ne. Qed.

Lemma spread_spec (h : heap) l h1 c :
  spread h l = (h1, c) → h !! c = None ∧ h1 = <[c := CObj (props h l)]> h.
Proof. apply alloc_spec. Qed.

(** The copies made by [xs.map(item => ({ ...item }))]: as many as there
    are items, each at an address that was free, each with the properties
    of its original; nothing else in the heap changes. *)
Lemma spread_all_spec (ls : list loc) : ∀ (h h' : heap) cs,
  Forall (λ l, is_Some (h !! l)) ls →
  spread_all h ls = (h', cs) →
  h ⊆ h'
  ∧ Forall2 (λ l c, h !! c = None ∧ h' !! c = Some (CObj (props h l))) ls cs
  ∧ (∀ l, h !! l = None → is_Some (h' !! l) → l ∈ cs).
Proof.
  induction ls as [|l ls IH]; intros h h' cs Hin; cbn [spread_all].
  - intros [= <- <-]. split; [done|]. split; [constructor|].
    intros l Hn [c Hc]. congruence.
  - destruct (spread h l) as [h1 c] eqn:Hs.
    destruct (spread_all h1 ls) as [h2 cs'] eqn:Hall.
    intros [= <- <-].
    apply Forall_cons in Hin as [Hl Hls].
    pose proof (alloc_subseteq _ _ _ _ Hs) as Hsub1.
    apply spread_spec in Hs as [Hc ->].
    destruct (IH _ _ _ (Forall_impl _ _ _ Hls
      (λ x Hx, lookup_weaken_is_Some _ _ _ Hx Hsub1)) Hall)
      as (Hsub2 & Hcs & Hnew).
    split; [by etrans|]. split.
    + constructor.
      * split; [done|].
        eapply lookup_weaken; [|exact Hsub2]. apply lookup_insert_eq.
      * clear -Hcs Hls Hc Hsub1.
        induction Hcs as [|l' c' ls' cs' [Hn Hc'] _ IH'];
          [constructor|].
        apply Forall_cons in Hls as [Hl' Hls]. constructor; [|by apply IH'].
        split.
        -- by apply (lookup_weaken_None _ _ _ Hn).
        -- rewrite Hc'. do 2 f_equal. by apply props_mono.
    + intros l' Hn Hs'. destruct (decide (l' = c)) as [->|Hne].
      * left.
      * right. apply Hnew; [|done]. by rewrite lookup_insert_ne.
Qed.

(** ** Result *)

Lemma has_message_true error :
  Result.has_message error = true ↔ ∃ msg, error = Some msg ∧ msg ≠ EmptyString.
Proof.
  destruct error as [s|]; simpl.
  - rewrite negb_true_iff, String.eqb_neq. split.
    + intros Hs. exists s. done.
    + intros (msg & [= ->] & Hmsg). done.
  - split; [done|]. intros (msg & Hmsg & _). done.
Qed.

Lemma ok_spec x :
  Result.ok x = inr {| Result.isSuccess := true; Result.isFailure := false;
                       Result.error := None; Result._value := x |}.
Proof. reflexivity. Qed.

Lemma fail_spec msg :
  msg ≠ EmptyString →
  Result.fail msg = inr {| Result.isSuccess := false; Result.isFailure := true;
                           Result.error := Some msg; Result._value := VUndef |}.
Proof.
  intros Hmsg. unfold Result.fail, Result.constructor. simpl.
  apply String.eqb_neq in Hmsg. by rewrite Hmsg.
Qed.

(** C8. A [Result] that the constructor accepts is a success or a failure
    and not both: its two flags are opposite, a success carries the value it
    was given and no error message, a failure carries a non-empty message.
    The constructor throws for a success with a message and for a failure
    without one (absent or empty).  [ok(x).getValue()] is [x];
    [getValue()] on a failure throws, in particular on every [fail(msg)],
    which carries the message and no value. *)
Theorem Result_invariants :
  (∀ isSuccess error value r,
     Result.constructor isSuccess error value = inr r →
     Result.isFailure r = negb (Result.isSuccess r)
     ∧ (Result.isSuccess r = true
        ∧ Result._value r = value
        ∧ Result.has_message (Result.error r) = false
        ∨ Result.isSuccess r = false
          ∧ ∃ msg, Result.error r = Some msg ∧ msg ≠ EmptyString))
  ∧ (∀ msg value, msg ≠ EmptyString →
       ∃ e, Result.constructor true (Some msg) value = inl e)
  ∧ (∀ error value, Result.has_message error = false →
       ∃ e, Result.constructor false error value = inl e)
  ∧ (∃ e, Result.fail EmptyString = inl e)
  ∧ (∀ x, Result.ok x ≫= Result.getValue = inr x)
  ∧ (∀ r, Result.isSuccess r = false →
       Result.getValue r = inl (Error "Can't get the value of a failed result."))
  ∧ (∀ msg, msg ≠ EmptyString →
       ∃ r, Result.fail msg = inr r
            ∧ Result.isSuccess r = false
            ∧ Result.isFailure r = true
            ∧ Result.error r = Some msg
            ∧ Result._value r = VUndef
            ∧ Result.getValue r
              = inl (Error "Can't get the value of a failed result.")).
Proof.
  split; [|split; [|split; [|split; [|split; [|split]]]]].
  - intros isSuccess error value r Hr. unfold Result.constructor in Hr.
    unthrow.
    destruct isSuccess, (Result.has_message error) eqn:Hm; simplify_eq/=.
    + split; [done|]. left. done.
    + split; [done|]. right. split; [done|]. by apply has_message_true.
  - intros msg value Hmsg. unfold Result.constructor.
    assert (Result.has_message (Some msg) = true) as ->
      by (apply has_message_true; eauto).
    simpl. eauto.
  - intros error value Hm. unfold Result.constructor. rewrite Hm. simpl. eauto.
  - eexists. reflexivity.
  - done.
  - intros r Hr. unfold Result.getValue. by rewrite Hr.
  - intros msg Hmsg. eexists. split; [by apply fail_spec|]. done.
Qed.

(** The invariants at concrete results. *)
Lemma Result_invariants_witness :
  Result.ok (VNum 7) ≫= Result.getValue = inr (VNum 7)
  ∧ (∃ e, Result.constructor true (Some "boom") (VNum 7) = inl e)
  ∧ (∃ r, Result.fail "Todo not found" = inr r
          ∧ Result.isSuccess r = false
          ∧ Result.isFailure r = true
          ∧ Result.error r = Some "Todo not found"
          ∧ Result._value r = VUndef
          ∧ Result.getValue r
            = inl (Error "Can't get the value of a failed result.")).
Proof.
  destruct Result_invariants as (_ & Hrej & _ & _ & Hok & _ & Hfail).
  split; [apply Hok|]. split; [by apply Hrej|]. by apply Hfail.
Defined.

(** [combine] returns the first failure, and a success when there is
    none. *)
Example combine_first_failure :
  ∃ success failure,
    Result.ok VUndef = inr success
    ∧ Result.fail "E" = inr failure
    ∧ Result.combine [success; success; failure; success] = inr failure
    ∧ Result.combine [] = inr success
    ∧ Result.combine [success; success] = inr success.
Proof. eexists _, _. by repeat split. Qed.

(** ** Repository: what each method does to the heap and to the store *)

Lemma is_object_spec (h : heap) l : is_object h l ↔ ∃ o, h !! l = Some (CObj o).
Proof.
  unfold is_object. destruct (h !! l) as [[o|t]|]; split; try done; eauto.
  - by intros [? ?].
  - by intros [? ?].
Qed.

Lemma props_lookup_is_object (h : heap) l k v :
  props h l !! k = Some v → is_object h l.
Proof.
  unfold props, is_object. destruct (h !! l) as [[o|t]|]; [done|..];
    by rewrite lookup_empty.
Qed.

Lemma is_object_is_Some (h : heap) l : is_object h l → is_Some (h !! l).
Proof. intros [o Ho]%is_object_spec. eauto. Qed.

Lemma is_object_mono (h h' : heap) l : h ⊆ h' → is_object h l → is_object h' l.
Proof.
  intros Hsub [o Ho]%is_object_spec. apply is_object_spec. exists o.
  by eapply lookup_weaken.
Qed.

Lemma closed_is_Some (h : heap) r :
  closed h r → Forall (λ l, is_Some (h !! l)) (Repository.items r).
Proof.
  intros Hc. eapply Forall_impl; [exact Hc|]. intros l.
  apply is_object_is_Some.
Qed.

Lemma getAll_spec (h h' : heap) r cs :
  closed h r →
  Repository.getAll h r = (h', cs) →
  h ⊆ h'
  ∧ Forall2 (λ l c, h !! c = None ∧ h' !! c = Some (CObj (props h l)))
      (Repository.items r) cs
  ∧ (∀ l, h !! l = None → is_Some (h' !! l) → l ∈ cs).
Proof. intros Hc. by apply spread_all_spec, closed_is_Some. Qed.

Lemma getAll_props (h h' : heap) r cs :
  closed h r →
  Repository.getAll h r = (h', cs) →
  map (props h') cs = map (props h) (Repository.items r).
Proof.
  intros Hc Hg. destruct (getAll_spec _ _ _ _ Hc Hg) as (_ & Hcs & _).
  clear Hc Hg.
  induction Hcs as [|l c ls cs' [_ Hl] _ IH]; [done|].
  simpl. f_equal; [|done]. unfold props at 1. by rewrite Hl.
Qed.

Lemma findIndex_Some (h : heap) r id index item :
  Repository.findIndex h r id = Some (index, item) ↔
  Repository.items r !! index = Some item
  ∧ field h item "id" = VNum id
  ∧ ∀ j other, Repository.items r !! j = Some other → (j < index)%nat →
               field h other "id" ≠ VNum id.
Proof.
  unfold Repository.findIndex.
  apply (list_find_Some (λ l, field h l "id" = VNum id)).
Qed.

Lemma findIndex_None (h : heap) r id :
  Repository.findIndex h r id = None ↔
  Forall (λ l, field h l "id" ≠ VNum id) (Repository.items r).
Proof.
  unfold Repository.findIndex.
  apply (list_find_None (λ l, field h l "id" = VNum id)).
Qed.

Lemma create_spec (h h2 : heap) r r' item c :
  Repository.create h r item = (h2, r', c) →
  ∃ newItem,
    let o := <["id" := VNum (Repository.nextId r)]> item in
    h !! newItem = None ∧ h !! c = None ∧ newItem ≠ c
    ∧ h2 = <[c := CObj o]> (<[newItem := CObj o]> h)
    ∧ r' = {| Repository.items := Repository.items r ++ [newItem];
              Repository.nextId := Repository.nextId r + 1 |}.
Proof.
  unfold Repository.create.
  destruct (alloc h _) as [h1 newItem] eqn:Ha.
  destruct (spread h1 newItem) as [h2' c'] eqn:Hs.
  intros [= <- <- <-]. exists newItem.
  apply alloc_spec in Ha as [Hn ->].
  apply spread_spec in Hs as [Hc ->].
  rewrite props_insert_eq.
  apply lookup_insert_None in Hc as [Hc Hne].
  done.
Qed.

Lemma update_spec (h : heap) r id updates index old :
  Repository.findIndex h r id = Some (index, old) →
  ∃ merged c,
    let o := updates ∪ props h old in
    h !! merged = None ∧ h !! c = None ∧ merged ≠ c
    ∧ Repository.update h r id updates
      = (<[c := CObj o]> (<[merged := CObj o]> h),
         {| Repository.items := <[index := merged]> (Repository.items r);
            Repository.nextId := Repository.nextId r |},
         Some c).
Proof.
  intros Hf. unfold Repository.update. rewrite Hf.
  destruct (alloc h _) as [h1 merged] eqn:Ha.
  destruct (spread h1 merged) as [h2 c] eqn:Hs.
  exists merged, c.
  apply alloc_spec in Ha as [Hn ->].
  apply spread_spec in Hs as [Hc ->].
  rewrite props_insert_eq.
  apply lookup_insert_None in Hc as [Hc Hne].
  done.
Qed.

Lemma update_missing (h : heap) r id updates :
  Repository.findIndex h r id = None →
  Repository.update h r id updates = (h, r, None).
Proof. intros Hf. unfold Repository.update. by rewrite Hf. Qed.

Lemma getById_spec (h : heap) r id index item :
  Repository.findIndex h r id = Some (index, item) →
  ∃ c, h !! c = None
       ∧ Repository.getById h r id
         = (<[c := CObj (props h item)]> h, Some c).
Proof.
  intros Hf. unfold Repository.getById. rewrite Hf.
  destruct (spread h item) as [h1 c] eqn:Hs. exists c.
  apply spread_spec in Hs as [Hc ->]. done.
Qed.

Lemma getById_missing (h : heap) r id :
  Repository.findIndex h r id = None →
  Repository.getById h r id = (h, None).
Proof. intros Hf. unfold Repository.getById. by rewrite Hf. Qed.

(** ** Construction *)

Lemma load_inr (initialItems : list object) : ∀ (h h' : heap) seenIds ls,
  Repository.load h seenIds initialItems = inr (h', ls) →
  Forall (λ item, Repository.nonpositive (id_of item) = false
                  ∧ id_of item ∉ seenIds) initialItems
  ∧ NoDup (map id_of initialItems)
  ∧ h ⊆ h'
  ∧ Forall2 (λ l item, h !! l = None ∧ h' !! l = Some (CObj item))
      ls initialItems.
Proof.
  induction initialItems as [|item rest IH]; intros h h' seenIds ls;
    cbn [Repository.load].
  - unthrow. intros [= <- <-].
    split; [constructor|]. split; [constructor|]. split; [done|constructor].
  - fold (id_of item).
    destruct (Repository.nonpositive (id_of item)) eqn:Hpos; [done|].
    case_bool_decide as Hseen; [done|].
    destruct (alloc h (CObj item)) as [h1 l] eqn:Ha.
    destruct (Repository.load h1 (id_of item :: seenIds) rest)
      as [e|[h2 ls']] eqn:Hl; unthrow; [done|].
    intros [= <- <-].
    destruct (IH _ _ _ _ Hl) as (Hall & Hnd & Hsub & Hcells).
    pose proof (alloc_subseteq _ _ _ _ Ha) as Hsub1.
    apply alloc_spec in Ha as [Hn ->].
    split; [|split; [|split]].
    + constructor; [done|].
      eapply Forall_impl; [exact Hall|]. intros x [? Hx]. split; [done|].
      intros Hin. apply Hx. by right.
    + simpl. constructor; [|done].
      rewrite Forall_forall in Hall. intros Hin.
      apply list_elem_of_fmap in Hin as (x & Hx & Hin).
      destruct (Hall x Hin) as [_ Hns]. apply Hns. rewrite Hx. left.
    + by etrans.
    + constructor.
      * split; [done|]. eapply lookup_weaken; [|exact Hsub].
        apply lookup_insert_eq.
      * eapply Forall2_impl; [exact Hcells|]. intros l' x [Hl' ?].
        split; [|done]. by apply (lookup_weaken_None _ _ _ Hl').
Qed.

Lemma load_total (initialItems : list object) : ∀ (h : heap) seenIds,
  Forall (λ item, Repository.nonpositive (id_of item) = false
                  ∧ id_of item ∉ seenIds) initialItems →
  NoDup (map id_of initialItems) →
  ∃ h' ls, Repository.load h seenIds initialItems = inr (h', ls).
Proof.
  induction initialItems as [|item rest IH]; intros h seenIds Hall Hnd;
    cbn [Repository.load].
  - eauto.
  - fold (id_of item).
    apply Forall_cons in Hall as [[Hpos Hseen] Hall].
    simpl in Hnd. apply NoDup_cons in Hnd as [Hhd Hnd].
    rewrite Hpos. rewrite bool_decide_eq_false_2 by done.
    destruct (alloc h (CObj item)) as [h1 l] eqn:Ha.
    destruct (IH h1 (id_of item :: seenIds)) as (h2 & ls & ->); [|done|].
    + rewrite Forall_forall in Hall |- *. intros x Hx.
      destruct (Hall x Hx) as [? Hns]. split; [done|].
      intros [Heq|?]%elem_of_cons; [|done].
      apply Hhd. apply list_elem_of_fmap. eauto.
    + unthrow. eauto.
Qed.

Lemma Math_max0_upper (vs : list value) n :
  VNum n ∈ vs → n ≤ Repository.Math_max0 vs.
Proof.
  induction vs as [|v vs IH]; [by intros ?%elem_of_nil|].
  intros [<-|Hin]%elem_of_cons; simpl.
  - lia.
  - specialize (IH Hin). destruct v; try done. lia.
Qed.

Lemma Math_max0_attained (vs : list value) :
  Repository.Math_max0 vs = 0 ∨ VNum (Repository.Math_max0 vs) ∈ vs.
Proof.
  induction vs as [|v vs IH]; [by left|]. simpl.
  destruct v as [| |b|n|s|l]; try (destruct IH; [by left|by right; right]).
  destruct (Z.max_spec n (Repository.Math_max0 vs)) as [[_ ->]|[_ ->]].
  - destruct IH; [by left|by right; right].
  - right. left.
Qed.

Lemma constructor_inr (h h' : heap) initialItems r :
  Repository.constructor h initialItems = inr (h', r) →
  Forall (λ item, Repository.nonpositive (id_of item) = false) initialItems
  ∧ NoDup (map id_of initialItems)
  ∧ h ⊆ h'
  ∧ Forall2 (λ l item, h !! l = None ∧ h' !! l = Some (CObj item))
      (Repository.items r) initialItems
  ∧ Repository.nextId r
    = if bool_decide (0 < length initialItems)%nat
      then Repository.Math_max0 (map id_of initialItems) + 1 else 1.
Proof.
  unfold Repository.constructor.
  destruct (Repository.load h [] initialItems) as [e|[h1 ls]] eqn:Hl;
    unthrow; [done|].
  intros [= <- <-]. destruct (load_inr _ _ _ _ _ Hl) as (Hall & Hnd & Hsub & Hc).
  split; [|done].
  eapply Forall_impl; [exact Hall|]. by intros x [? _].
Qed.

Lemma constructor_total (h : heap) initialItems :
  Forall (λ item, Repository.nonpositive (id_of item) = false) initialItems →
  NoDup (map id_of initialItems) →
  ∃ h' r, Repository.constructor h initialItems = inr (h', r).
Proof.
  intros Hall Hnd. unfold Repository.constructor.
  destruct (load_total initialItems h []) as (h' & ls & ->); [|done|].
  - eapply Forall_impl; [exact Hall|]. intros x ?. split; [done|].
    apply not_elem_of_nil.
  - unthrow. eauto.
Qed.

Lemma stored_ids (h : heap) (ls : list loc) (initialItems : list object) :
  Forall2 (λ l item, h !! l = Some (CObj item)) ls initialItems →
  map (λ l, field h l "id") ls = map id_of initialItems
  ∧ map (props h) ls = initialItems.
Proof.
  induction 1 as [|l item ls its Hl _ [IH1 IH2]]; [done|].
  assert (props h l = item) as Hp by (unfold props; by rewrite Hl).
  simpl. unfold field at 1. rewrite IH1, IH2, Hp. done.
Qed.

(** The store that the constructor builds satisfies the invariant, provided
    the identities are numbers. *)
Lemma constructor_inv (h h' : heap) initialItems r :
  Forall has_numeric_id initialItems →
  Repository.constructor h initialItems = inr (h', r) →
  store_inv h' r.
Proof.
  intros Hty (Hpos & Hnd & Hsub & Hcells & Hnext)%constructor_inr.
  assert (Forall2 (λ l item, h' !! l = Some (CObj item))
            (Repository.items r) initialItems) as Hc
    by (eapply Forall2_impl; [exact Hcells|]; by intros ?? [_ ?]).
  destruct (stored_ids _ _ _ Hc) as [Hids _].
  split; [|split; [|split]].
  - unfold closed. clear -Hc.
    induction Hc as [|l item ls its Hl _ IH]; constructor; [|done].
    apply is_object_spec. eauto.
  - unfold unique_ids, ids. by rewrite Hids.
  - unfold ids_below_next, ids. rewrite Hids, Hnext.
    apply Forall_fmap, Forall_forall. intros item Hin. simpl.
    rewrite Forall_forall in Hty, Hpos.
    specialize (Hty item Hin). specialize (Hpos item Hin).
    unfold has_numeric_id in Hty. fold (id_of item) in Hty.
    destruct (id_of item) as [| | |n| |] eqn:Hid; try done. simpl in *.
    apply bool_decide_eq_false in Hpos.
    assert (n ≤ Repository.Math_max0 (map id_of initialItems)).
    { apply Math_max0_upper. rewrite <- Hid. apply list_elem_of_fmap. eauto. }
    rewrite bool_decide_eq_true_2; [lia|].
    destruct initialItems; [by apply elem_of_nil in Hin|simpl; lia].
  - rewrite Hnext. case_bool_decide; [|lia].
    pose proof (Math_max0_attained (map id_of initialItems)) as [->|Hat];
      [lia|].
    apply list_elem_of_fmap in Hat as (item & Hid & Hin).
    rewrite Forall_forall in Hpos. specialize (Hpos item Hin).
    rewrite <- Hid in Hpos. simpl in Hpos.
    apply bool_decide_eq_false in Hpos. lia.
Qed.



(** ** Frame: a heap change that leaves the stored items alone *)

Lemma props_same (h h' : heap) l : h' !! l = h !! l → props h' l = props h l.
Proof. unfold props. by intros ->. Qed.

Lemma is_object_same (h h' : heap) l :
  h' !! l = h !! l → is_object h l → is_object h' l.
Proof. unfold is_object. by intros ->. Qed.

Lemma closed_frame (h h' : heap) r :
  Forall (λ l, h' !! l = h !! l) (Repository.items r) →
  closed h r → closed h' r.
Proof.
  unfold closed. intros Hsame Hc.
  induction Hsame as [|l ls Hl _ IH]; [constructor|].
  apply Forall_cons in Hc as [? ?].
  constructor; [by eapply is_object_same|by apply IH].
Qed.

Lemma ids_frame (h h' : heap) r :
  Forall (λ l, h' !! l = h !! l) (Repository.items r) →
  ids h' r = ids h r.
Proof.
  unfold ids. induction 1 as [|l ls Hl _ IH]; [done|].
  simpl. unfold field at 1 3. by rewrite (props_same _ _ _ Hl), IH.
Qed.

Lemma findIndex_frame (h h' : heap) r id :
  Forall (λ l, h' !! l = h !! l) (Repository.items r) →
  Repository.findIndex h' r id = Repository.findIndex h r id.
Proof.
  unfold Repository.findIndex. induction 1 as [|l ls Hl _ IH]; [done|].
  cbn [list_find].
  assert (field h' l "id" = field h l "id") as Hf
    by (unfold field; by rewrite (props_same _ _ _ Hl)).
  rewrite IH. repeat case_decide; congruence.
Qed.

Lemma same_weaken (h h' : heap) (ls : list loc) :
  h ⊆ h' → Forall (λ l, is_Some (h !! l)) ls →
  Forall (λ l, h' !! l = h !! l) ls.
Proof.
  intros Hsub Hls. eapply Forall_impl; [exact Hls|]. intros l [c Hc].
  by rewrite (lookup_weaken _ _ _ _ Hc Hsub).
Qed.

Lemma closed_same (h h' : heap) r :
  h ⊆ h' → closed h r →
  Forall (λ l, h' !! l = h !! l) (Repository.items r).
Proof. intros Hsub Hc. by apply same_weaken, closed_is_Some. Qed.

Lemma closed_fresh (h : heap) r l :
  closed h r → h !! l = None → l ∉ Repository.items r.
Proof.
  intros Hc Hl Hin. unfold closed in Hc. rewrite Forall_forall in Hc.
  apply Hc, is_object_is_Some in Hin as [c Hc']. congruence.
Qed.

(** ** The store invariant is kept by every method *)

Lemma two_fresh_subseteq (h : heap) a b ca cb :
  h !! a = None → h !! b = None → a ≠ b →
  h ⊆ <[b := cb]> (<[a := ca]> h).
Proof.
  intros Ha Hb Hab. etrans; [by apply (insert_subseteq h a ca)|].
  apply insert_subseteq. by rewrite lookup_insert_ne.
Qed.

Lemma create_ids (h h2 : heap) r r' item c :
  closed h r →
  Repository.create h r item = (h2, r', c) →
  h ⊆ h2
  ∧ closed h2 r'
  ∧ ids h2 r' = ids h r ++ [VNum (Repository.nextId r)]
  ∧ Repository.nextId r' = Repository.nextId r + 1
  ∧ h !! c = None ∧ (c ∉ Repository.items r')
  ∧ props h2 c = <["id" := VNum (Repository.nextId r)]> item.
Proof.
  intros Hc (newItem & Hn & Hcn & Hne & -> & ->)%create_spec.
  pose proof (two_fresh_subseteq h newItem c
    (CObj (<["id":=VNum (Repository.nextId r)]> item))
    (CObj (<["id":=VNum (Repository.nextId r)]> item)) Hn Hcn Hne) as Hsub.
  split; [done|]. simpl.
  assert (is_object (<[c:=CObj (<["id":=VNum (Repository.nextId r)]> item)]>
            (<[newItem:=CObj (<["id":=VNum (Repository.nextId r)]> item)]> h))
            newItem) as Hobj.
  { apply is_object_spec. eexists.
    rewrite lookup_insert_ne by done. apply lookup_insert_eq. }
  split; [|split; [|split; [|split; [|split]]]].
  - unfold closed. simpl. apply Forall_app. split.
    + eapply Forall_impl; [exact Hc|]. intros l. by apply is_object_mono.
    + by constructor.
  - unfold ids. simpl. rewrite map_app. f_equal.
    + apply (ids_frame h _ r). by apply closed_same.
    + simpl. f_equal. unfold field.
      rewrite props_insert_ne, props_insert_eq by done.
      unfold prop. by rewrite lookup_insert_eq.
  - done.
  - done.
  - intros [Hin|Hin]%elem_of_app.
    + by apply (closed_fresh h r c).
    + apply list_elem_of_singleton in Hin. congruence.
  - apply props_insert_eq.
Qed.

Lemma create_inv (h h2 : heap) r r' item c :
  store_inv h r →
  Repository.create h r item = (h2, r', c) →
  store_inv h2 r'.
Proof.
  intros (Hc & Hu & Hb & Hpos) Hcr.
  destruct (create_ids _ _ _ _ _ _ Hc Hcr) as (_ & Hc' & Hids & Hnext & _).
  split; [done|]. split; [|split].
  - unfold unique_ids. rewrite Hids. apply NoDup_app. split; [done|].
    split; [|apply NoDup_singleton].
    intros v Hv ->%list_elem_of_singleton.
    unfold ids_below_next in Hb. rewrite Forall_forall in Hb.
    specialize (Hb _ Hv). simpl in Hb. lia.
  - unfold ids_below_next. rewrite Hids, Hnext. apply Forall_app. split.
    + eapply Forall_impl; [exact Hb|]. intros [] ?; simpl in *; try done. lia.
    + constructor; [simpl; lia|constructor].
  - lia.
Qed.

Lemma update_ids (h h2 : heap) r r' id updates res :
  closed h r →
  omits_id updates →
  Repository.update h r id updates = (h2, r', res) →
  h ⊆ h2
  ∧ closed h2 r'
  ∧ ids h2 r' = ids h r
  ∧ Repository.nextId r' = Repository.nextId r
  ∧ length (Repository.items r') = length (Repository.items r)
  ∧ ∀ c, res = Some c → h !! c = None ∧ c ∉ Repository.items r'.
Proof.
  intros Hc Hty Hup.
  destruct (Repository.findIndex h r id) as [[index old]|] eqn:Hf.
  - destruct (update_spec h r id updates index old Hf)
      as (merged & c & Hm & Hcn & Hne & Hup').
    rewrite Hup' in Hup. injection Hup as <- <- <-.
    apply findIndex_Some in Hf as (Hold & Hid & _).
    pose proof (two_fresh_subseteq h merged c
      (CObj (updates ∪ props h old)) (CObj (updates ∪ props h old))
      Hm Hcn Hne) as Hsub.
    split; [done|]. simpl.
    assert (is_object (<[c:=CObj (updates ∪ props h old)]>
              (<[merged:=CObj (updates ∪ props h old)]> h)) merged) as Hobj.
    { apply is_object_spec. eexists.
      rewrite lookup_insert_ne by done. apply lookup_insert_eq. }
    split; [|split; [|split; [|split]]].
    + unfold closed. simpl. apply Forall_insert; [|done].
      eapply Forall_impl; [exact Hc|]. intros l. by apply is_object_mono.
    + set (h2 := <[c:=CObj (updates ∪ props h old)]> _) in *.
      assert (ids h2 r = ids h r) as Hframe
        by (apply ids_frame; by apply closed_same).
      assert (field h2 merged "id" = field h old "id") as Hmid.
      { unfold field at 1, h2.
        rewrite props_insert_ne, props_insert_eq by done.
        unfold prop. by rewrite lookup_union_r. }
      unfold ids at 1. simpl. rewrite list_fmap_insert.
      change ((λ l, field h2 l "id") <$> Repository.items r) with (ids h2 r).
      rewrite Hframe, Hmid. apply list_insert_id. unfold ids.
      rewrite list_lookup_fmap, Hold. done.
    + done.
    + apply length_insert.
    + intros c' [= <-]. split; [done|].
      intros Hin. apply list_elem_of_lookup in Hin as [j Hj].
      destruct (decide (j = index)) as [->|Hji].
      * apply lookup_lt_Some in Hold.
        rewrite list_lookup_insert_eq in Hj by done. congruence.
      * rewrite list_lookup_insert_ne in Hj by done.
        apply (closed_fresh h r c Hc Hcn). eapply list_elem_of_lookup_2, Hj.
  - rewrite (update_missing _ _ _ _ Hf) in Hup. injection Hup as <- <- <-.
    repeat split; done.
Qed.

Lemma update_inv (h h2 : heap) r r' id updates res :
  store_inv h r →
  omits_id updates →
  Repository.update h r id updates = (h2, r', res) →
  store_inv h2 r'.
Proof.
  intros (Hc & Hu & Hb & Hpos) Hty Hup.
  destruct (update_ids _ _ _ _ _ _ _ Hc Hty Hup)
    as (_ & Hc' & Hids & Hnext & _).
  split; [done|]. unfold unique_ids, ids_below_next. rewrite Hids, Hnext. done.
Qed.

Lemma delete_items (h : heap) r id :
  Repository.items (Repository.delete h r id).1
  = filter (λ l, field h l "id" ≠ VNum id) (Repository.items r).
Proof. done. Qed.

Lemma delete_inv (h : heap) r id :
  store_inv h r → store_inv h (Repository.delete h r id).1.
Proof.
  intros (Hc & Hu & Hb & Hpos).
  assert (sublist (ids h (Repository.delete h r id).1) (ids h r)) as Hsub.
  { unfold ids. rewrite delete_items.
    apply (fmap_sublist (λ l, field h l "id")), sublist_filter. }
  split; [|split; [|split]].
  - unfold closed in *. rewrite delete_items.
    rewrite Forall_forall in Hc |- *. intros l Hl. apply Hc.
    eapply elem_of_sublist; [exact Hl|apply sublist_filter].
  - unfold unique_ids. by eapply sublist_NoDup.
  - unfold ids_below_next in *. simpl. rewrite Forall_forall in Hb |- *.
    intros v Hv. apply Hb. by eapply elem_of_sublist.
  - done.
Qed.

(** ** Membership *)

Lemma exists_false (h : heap) r id :
  Repository.exists_ h r id = false ↔ Repository.findIndex h r id = None.
Proof.
  unfold Repository.exists_. rewrite bool_decide_eq_false, findIndex_None.
  split.
  - intros Hn. apply Forall_forall. intros l Hl Hid. apply Hn.
    apply Exists_exists. eauto.
  - intros Hall (l & Hl & Hid)%Exists_exists.
    rewrite Forall_forall in Hall. by apply (Hall l).
Qed.

Lemma exists_true (h : heap) r id :
  Repository.exists_ h r id = true ↔
  ∃ index item, Repository.findIndex h r id = Some (index, item).
Proof.
  destruct (Repository.findIndex h r id) as [[index item]|] eqn:Hf.
  - split; [eauto|]. intros _.
    destruct (Repository.exists_ h r id) eqn:He; [done|].
    apply exists_false in He. congruence.
  - apply exists_false in Hf. rewrite Hf. split; [done|].
    by intros (? & ? & ?).
Qed.

Lemma filter_all {A} (P : A → Prop) `{!∀ x, Decision (P x)} (l : list A) :
  Forall P l → filter P l = l.
Proof.
  induction 1 as [|x l' Hx _ IH]; [done|].
  by rewrite filter_cons_True, IH.
Qed.

(** With distinct keys, filtering one key out deletes one position. *)
Lemma filter_out_key {A B} `{!EqDecision B} (f : A → B) (l : list A) i x :
  NoDup (map f l) → l !! i = Some x →
  filter (λ y, f y ≠ f x) l = delete i l.
Proof.
  revert i. induction l as [|y l IH]; intros i Hnd Hi; [done|].
  simpl in Hnd. apply NoDup_cons in Hnd as [Hy Hnd].
  destruct i as [|i]; simpl in Hi.
  - injection Hi as ->. rewrite filter_cons_False by (intros Hne; by apply Hne).
    simpl. apply filter_all. apply Forall_forall. intros z Hz Heq.
    apply Hy. rewrite <- Heq. apply list_elem_of_fmap. eauto.
  - rewrite filter_cons_True.
    + simpl. f_equal. by apply IH.
    + intros Heq. apply Hy. rewrite Heq. apply list_elem_of_fmap.
      exists x. split; [done|]. by eapply list_elem_of_lookup_2.
Qed.

Lemma getAll_ids (h h' : heap) r cs :
  closed h r →
  Repository.getAll h r = (h', cs) →
  map (λ l, field h' l "id") cs = ids h r.
Proof.
  intros Hc Hg. pose proof (getAll_props _ _ _ _ Hc Hg) as Hp.
  unfold ids. revert Hp. generalize (Repository.items r). clear.
  induction cs as [|c cs IH]; intros [|l ls]; simpl; try done.
  intros [= Hl Hls]. unfold field at 1 2. rewrite Hl. f_equal. by apply IH.
Qed.

(** C6. With distinct identities in the store: [delete(id)] on a missing
    id returns false and leaves the store as it was; on an existing id it
    returns true, removes the one item with that id and nothing else, and
    the count drops by exactly one.  [deleteTodo(id)] never throws: it
    returns the failure [Todo not found] exactly when the id is absent, and
    a success carrying [true] otherwise. *)
Theorem delete_semantics (h : heap) (s : TodoAppState.t) (id : Z) :
  let r := TodoAppState.todoRepository s in
  let r' := (Repository.delete h r id).1 in
  let removed := (Repository.delete h r id).2 in
  unique_ids h r →
  (Repository.exists_ h r id = false →
     removed = false ∧ r' = r ∧ Repository.count r' = Repository.count r)
  ∧ (Repository.exists_ h r id = true →
     removed = true
     ∧ S (Repository.count r') = Repository.count r
     ∧ Repository.exists_ h r' id = false
     ∧ ∃ index item,
         Repository.items r !! index = Some item
         ∧ field h item "id" = VNum id
         ∧ Repository.items r' = delete index (Repository.items r))
  ∧ ∃ res,
      TodoAppState.deleteTodo h s id
      = inr (TodoAppState.with_repository s r', res)
      ∧ (Result.isFailure res = true ↔ Repository.exists_ h r id = false)
      ∧ (Repository.exists_ h r id = false →
           Result.error res = Some "Todo not found")
      ∧ (Repository.exists_ h r id = true →
           Result.isSuccess res = true
           ∧ Result.getValue res = inr (VBool true)).
Proof.
  intros r r' removed Hu.
  assert (Repository.exists_ h r id = false →
          removed = false ∧ r' = r ∧ Repository.count r' = Repository.count r)
    as Hmiss.
  { intros He. apply exists_false, findIndex_None in He.
    assert (r' = r) as Hr.
    { unfold r', Repository.delete. simpl. rewrite (filter_all _ _ He).
      by destruct r. }
    unfold removed, Repository.delete. simpl.
    rewrite (filter_all _ _ He). split; [|by rewrite Hr].
    apply bool_decide_eq_false. lia. }
  assert (Repository.exists_ h r id = true →
     removed = true
     ∧ S (Repository.count r') = Repository.count r
     ∧ Repository.exists_ h r' id = false
     ∧ ∃ index item,
         Repository.items r !! index = Some item
         ∧ field h item "id" = VNum id
         ∧ Repository.items r' = delete index (Repository.items r)) as Hhit.
  { intros (index & item & (Hi & Hid & _)%findIndex_Some)%exists_true.
    assert (Repository.items r' = delete index (Repository.items r)) as Hitems.
    { unfold r'. rewrite delete_items, <- Hid.
      by apply (filter_out_key (λ l, field h l "id")). }
    assert (S (Repository.count r') = Repository.count r) as Hcount.
    { unfold Repository.count. rewrite Hitems, length_delete by eauto.
      apply lookup_lt_Some in Hi. lia. }
    split; [|split; [done|split]].
    - unfold removed, Repository.delete. simpl. apply bool_decide_eq_true.
      unfold Repository.count in Hcount. unfold r' in Hcount.
      rewrite delete_items in Hcount. lia.
    - apply exists_false, findIndex_None. unfold r'. rewrite delete_items.
      apply Forall_forall. by intros l [? _]%list_elem_of_filter.
    - eauto. }
  split; [done|]. split; [done|].
  unfold TodoAppState.deleteTodo.
  change (Repository.delete h (TodoAppState.todoRepository s) id)
    with (Repository.delete h r id).
  destruct (Repository.delete h r id) as [r2 b] eqn:Hd. simpl in *.
  subst r' removed.
  destruct (Repository.exists_ h r id) eqn:He.
  - destruct Hhit as (-> & _); [done|]. unthrow.
    eexists. split; [done|]. simpl. done.
  - destruct Hmiss as (-> & _); [done|]. unthrow.
    eexists. split; [done|]. simpl. done.
Qed.

(** Two tasks are stored; deleting the first leaves one. *)
Lemma delete_semantics_witness :
  unique_ids Sample.hp Sample.repo
  ∧ (Repository.delete Sample.hp Sample.repo 1).2 = true
  ∧ S (Repository.count (Repository.delete Sample.hp Sample.repo 1).1)
    = Repository.count Sample.repo.
Proof.
  assert (unique_ids Sample.hp Sample.repo) as Hu
    by (apply (bool_decide_unpack _); by vm_compute).
  split; [done|].
  destruct (delete_semantics Sample.hp Sample.app 1 Hu) as (_ & Hhit & _).
  destruct Hhit as (? & ? & _); [by vm_compute|]. done.
Defined.

(** ** Update *)

(** C10. A successful [update] (whose partial update, by its type, has no
    [id]) keeps the count, keeps every item's identity and keeps the
    sequence of identities, in the store and in what [getAll()] returns:
    the updated item is written at the position of the old one, and nothing
    is inserted or removed. *)
Theorem update_preserves_membership (h h' : heap) (r r' : Repository.t)
    (id : Z) (updates : object) (c : loc) :
  closed h r →
  omits_id updates →
  Repository.update h r id updates = (h', r', Some c) →
  Repository.count r' = Repository.count r
  ∧ ids h' r' = ids h r
  ∧ (∀ h1 before h2 after,
       Repository.getAll h r = (h1, before) →
       Repository.getAll h' r' = (h2, after) →
       map (λ l, field h2 l "id") after = map (λ l, field h1 l "id") before)
  ∧ ∃ index old merged,
      Repository.items r !! index = Some old
      ∧ field h old "id" = VNum id
      ∧ Repository.items r' = <[index := merged]> (Repository.items r)
      ∧ field h' merged "id" = VNum id.
Proof.
  intros Hc Hty Hup.
  destruct (update_ids _ _ _ _ _ _ _ Hc Hty Hup)
    as (Hsub & Hc' & Hids & _ & Hlen & _).
  split; [done|]. split; [done|]. split.
  - intros h1 before h2 after Hb Ha.
    by rewrite (getAll_ids _ _ _ _ Hc' Ha), (getAll_ids _ _ _ _ Hc Hb).
  - destruct (Repository.findIndex h r id) as [[index old]|] eqn:Hf.
    + destruct (update_spec h r id updates index old Hf)
        as (merged & c' & Hm & Hcn & Hne & Hup').
      rewrite Hup' in Hup. injection Hup as <- <- <-.
      apply findIndex_Some in Hf as (Hold & Hid & _).
      exists index, old, merged. split; [done|]. split; [done|].
      split; [done|].
      unfold field. rewrite props_insert_ne, props_insert_eq by done.
      unfold prop. rewrite lookup_union_r by done. exact Hid.
    + by rewrite (update_missing _ _ _ _ Hf) in Hup.
Qed.

(** Completing the second sample task keeps both identities in place. *)
Lemma update_preserves_membership_witness :
  ∃ h' r' c,
    Repository.update Sample.hp Sample.repo 2
      {[ "status" := VStr "in-progress" ]} = (h', r', Some c)
    ∧ Repository.count r' = 2%nat
    ∧ ids h' r' = [VNum 1; VNum 2].
Proof.
  destruct (Repository.update Sample.hp Sample.repo 2
              {[ "status" := VStr "in-progress" ]}) as [[h' r'] res] eqn:Hup.
  assert (∃ c, res = Some c) as [c ->].
  { vm_compute in Hup. injection Hup as _ _ <-. eauto. }
  exists h', r', c. split; [done|].
  destruct (update_preserves_membership Sample.hp h' Sample.repo r' 2
              {[ "status" := VStr "in-progress" ]} c) as (Hn & Hi & _).
  - apply (bool_decide_unpack _). by vm_compute.
  - apply (bool_decide_unpack _). by vm_compute.
  - done.
  - split; [exact Hn|]. rewrite Hi. by vm_compute.
Defined.

(** C4. [update] on an id that no stored item has returns [undefined] and
    changes neither the heap nor the store, and cannot throw.  On an
    existing id it builds a new object from the old item and the partial
    update: every property of the partial update is in it with the update's
    value, every other property is as in the old item; the new object takes
    the place of the old one in the store, and what is returned is a further
    new object with the same properties.  The old object and everything else
    in the heap stay as they were. *)
Theorem update_frame (h : heap) (r : Repository.t) (id : Z)
    (updates : object) :
  (Repository.exists_ h r id = false →
     Repository.update h r id updates = (h, r, None))
  ∧ (Repository.exists_ h r id = true →
     ∃ index old merged c h' r',
       Repository.update h r id updates = (h', r', Some c)
       ∧ Repository.items r !! index = Some old
       ∧ field h old "id" = VNum id
       ∧ Repository.items r' = <[index := merged]> (Repository.items r)
       ∧ Repository.nextId r' = Repository.nextId r
       ∧ h !! merged = None ∧ h !! c = None ∧ merged ≠ c
       ∧ h ⊆ h'
       ∧ props h' merged = updates ∪ props h old
       ∧ (∀ k v, updates !! k = Some v → props h' merged !! k = Some v)
       ∧ (∀ k, updates !! k = None →
               props h' merged !! k = props h old !! k)
       ∧ props h' c = props h' merged).
Proof.
  split.
  - intros Hf%exists_false. by apply update_missing.
  - intros (index & old & Hf)%exists_true.
    destruct (update_spec h r id updates index old Hf)
      as (merged & c & Hm & Hcn & Hne & Hup).
    apply findIndex_Some in Hf as (Hold & Hid & _).
    eexists index, old, merged, c, _, _. split; [exact Hup|]. simpl.
    assert (props (<[c:=CObj (updates ∪ props h old)]>
              (<[merged:=CObj (updates ∪ props h old)]> h)) merged
            = updates ∪ props h old) as Hp
      by (by rewrite props_insert_ne, props_insert_eq).
    repeat (split; [done|]).
    split; [by apply two_fresh_subseteq|]. split; [done|]. rewrite Hp.
    split; [|split].
    + intros k v Hk. by apply lookup_union_Some_l.
    + intros k Hk. by apply lookup_union_r.
    + by rewrite props_insert_eq.
Qed.

(** Updating the status of the first sample task leaves its text alone. *)
Lemma update_frame_witness :
  Repository.update Sample.hp Sample.repo 9 {[ "status" := VStr "completed" ]}
  = (Sample.hp, Sample.repo, None)
  ∧ ∃ merged h' r' c,
      Repository.update Sample.hp Sample.repo 1
        {[ "status" := VStr "completed" ]} = (h', r', Some c)
      ∧ Repository.items r' = [merged; 4%positive]
      ∧ field h' merged "status" = VStr "completed"
      ∧ field h' merged "text" = VStr "Buy milk"
      ∧ props h' c = props h' merged.
Proof.
  destruct (update_frame Sample.hp Sample.repo 9
              {[ "status" := VStr "completed" ]}) as [Hmiss _].
  destruct (update_frame Sample.hp Sample.repo 1
              {[ "status" := VStr "completed" ]}) as [_ Hhit].
  split; [by apply Hmiss; vm_compute|].
  destruct Hhit as (index & old & merged & c & h' & r' & Hup & Hold & Hid
                    & Hitems & _ & _ & _ & _ & _ & _ & Hset & Hkeep & Hcopy);
    [by vm_compute|].
  assert (index = 0%nat ∧ old = 2%positive) as [-> ->].
  { destruct index as [|[|[|]]]; vm_compute in Hold; simplify_eq;
      vm_compute in Hid; by simplify_eq. }
  exists merged, h', r', c. split; [done|]. split; [by rewrite Hitems|].
  unfold field, prop. split; [|split; [|done]].
  - by rewrite (Hset "status" (VStr "completed")).
  - rewrite Hkeep by done. by vm_compute.
Defined.

(** ** The filtered view *)

Lemma map_filter_comm {A B} (f : A → B) (P : B → Prop) (Q : A → Prop)
    `{!∀ y, Decision (P y)} `{!∀ x, Decision (Q x)} (l : list A) :
  (∀ x, Q x ↔ P (f x)) →
  map f (filter Q l) = filter P (map f l).
Proof.
  intros HPQ. induction l as [|x l IH]; [done|]. simpl.
  rewrite !filter_cons.
  destruct (decide (Q x)) as [Hq|Hq], (decide (P (f x))) as [Hp|Hp];
    simpl; rewrite ?IH; try done; exfalso.
  - by apply Hp, HPQ.
  - by apply Hq, HPQ.
Qed.

Lemma status_is_not_all st : status_string st ≠ "all".
Proof. by destruct st. Qed.

(** C7. Reading [todos] with the filter ['all'] gives a copy of every
    stored task, in insertion order; with a status as filter it gives copies
    of exactly the tasks that have this status, in insertion order.  The
    view is computed from the store as it is at the time of the read, for
    whatever filter is set at that time. *)
Theorem todos_view (h h' : heap) (s : TodoAppState.t) (view : list loc) :
  closed h (TodoAppState.todoRepository s) →
  TodoAppState.todos h s = (h', view) →
  let stored := map (props h) (Repository.items (TodoAppState.todoRepository s)) in
  map (props h') view
  = match TodoAppState._filter s with
    | all => stored
    | only st => filter (λ o, prop o "status" = VStr (status_string st)) stored
    end
  ∧ Forall (λ c, h !! c = None) view.
Proof.
  intros Hc. unfold TodoAppState.todos.
  destruct (Repository.getAll h (TodoAppState.todoRepository s))
    as [h1 allTodos] eqn:Hg.
  pose proof (getAll_props _ _ _ _ Hc Hg) as Hp.
  destruct (getAll_spec _ _ _ _ Hc Hg) as (_ & Hcs & _).
  assert (Forall (λ c, h !! c = None) allTodos) as Hfresh.
  { clear -Hcs. induction Hcs as [|???? [? _] _ IH]; constructor; done. }
  destruct (TodoAppState._filter s) as [|st]; simpl.
  - intros [= <- <-]. done.
  - rewrite bool_decide_eq_false_2 by apply status_is_not_all.
    intros [= <- <-]. split.
    + rewrite <- Hp.
      by apply (map_filter_comm (props h1)
                  (λ o, prop o "status" = VStr (status_string st))).
    + rewrite Forall_forall in Hfresh |- *.
      intros c [_ Hin]%list_elem_of_filter. by apply Hfresh.
Qed.

(** The scenario of the specification: with a pending and a completed task
    stored, the filter [completed] shows exactly the completed one. *)
Lemma todos_view_witness :
  ∃ h' c,
    TodoAppState.todos Sample.hp
      (TodoAppState.set_filter Sample.app (only completed)) = (h', [c])
    ∧ map (props h') [c] = [Sample.todo 2 "Walk dog" "completed" 3 3].
Proof.
  destruct (TodoAppState.todos Sample.hp
              (TodoAppState.set_filter Sample.app (only completed)))
    as [h' view] eqn:Ht.
  destruct (todos_view Sample.hp h'
              (TodoAppState.set_filter Sample.app (only completed)) view)
    as [Hv _].
  - apply (bool_decide_unpack _). by vm_compute.
  - exact Ht.
  - assert (∃ c, view = [c]) as [c ->].
    { vm_compute in Ht. injection Ht as _ <-. eauto. }
    exists h', c. split; [done|]. rewrite Hv. by vm_compute.
Defined.

(** ** The caller and the store never share an item *)

Lemma assign_lookup_ne (h : heap) l k v l' :
  l ≠ l' → Client.assign h l k v !! l' = h !! l'.
Proof.
  intros Hne. unfold Client.assign.
  destruct (h !! l) as [[o|t]|]; [|done..]. by rewrite lookup_insert_ne.
Qed.

Lemma assign_is_Some (h : heap) l k v l' :
  is_Some (h !! l') → is_Some (Client.assign h l k v !! l').
Proof.
  intros Hs. destruct (decide (l = l')) as [<-|Hne].
  - unfold Client.assign. destruct (h !! l) as [[o|t]|] eqn:Hl;
      rewrite ?lookup_insert_eq, ?Hl; eauto.
  - by rewrite assign_lookup_ne.
Qed.

Lemma setTime_lookup_object (h : heap) d time l :
  is_object h l → Client.setTime h d time !! l = h !! l.
Proof.
  intros [o Ho]%is_object_spec. unfold Client.setTime.
  destruct d as [| | | | |l0]; try done.
  destruct (h !! l0) as [[o'|t]|] eqn:Hl0; try done.
  rewrite lookup_insert_ne; [done|]. congruence.
Qed.

Lemma setTime_is_Some (h : heap) d time l :
  is_Some (h !! l) → is_Some (Client.setTime h d time !! l).
Proof.
  intros Hs. unfold Client.setTime.
  destruct d as [| | | | |l0]; try done.
  destruct (h !! l0) as [[o'|t]|] eqn:Hl0; try done.
  destruct (decide (l0 = l)) as [->|Hne].
  - rewrite lookup_insert_eq. eauto.
  - by rewrite lookup_insert_ne.
Qed.

Lemma update_heap (h h2 : heap) r r' id updates res :
  closed h r →
  Repository.update h r id updates = (h2, r', res) →
  h ⊆ h2
  ∧ closed h2 r'
  ∧ (∀ l, l ∈ Repository.items r' → l ∈ Repository.items r ∨ h !! l = None)
  ∧ ∀ c, res = Some c →
         h !! c = None ∧ is_Some (h2 !! c) ∧ c ∉ Repository.items r'.
Proof.
  intros Hc Hup.
  destruct (Repository.findIndex h r id) as [[index old]|] eqn:Hf.
  - destruct (update_spec h r id updates index old Hf)
      as (merged & c & Hm & Hcn & Hne & Hup').
    rewrite Hup' in Hup. injection Hup as <- <- <-.
    apply findIndex_Some in Hf as (Hold & _).
    pose proof (two_fresh_subseteq h merged c
      (CObj (updates ∪ props h old)) (CObj (updates ∪ props h old))
      Hm Hcn Hne) as Hsub.
    assert (∀ l, l ∈ <[index:=merged]> (Repository.items r) →
                 l ∈ Repository.items r ∨ l = merged) as Hitems.
    { intros l Hin. apply list_elem_of_lookup in Hin as [j Hj].
      destruct (decide (j = index)) as [->|Hji].
      - apply lookup_lt_Some in Hold.
        rewrite list_lookup_insert_eq in Hj by done. right. congruence.
      - rewrite list_lookup_insert_ne in Hj by done. left.
        by eapply list_elem_of_lookup_2. }
    split; [done|]. simpl. split; [|split].
    + unfold closed. simpl. apply Forall_insert.
      * eapply Forall_impl; [exact Hc|]. intros l. by apply is_object_mono.
      * apply is_object_spec. eexists.
        rewrite lookup_insert_ne by done. apply lookup_insert_eq.
    + intros l [Hin| ->]%Hitems; [by left|by right].
    + intros c' [= <-]. split; [done|]. split.
      * rewrite lookup_insert_eq. eauto.
      * intros [Hin|Hin]%Hitems; [|congruence].
        by apply (closed_fresh h r c).
  - rewrite (update_missing _ _ _ _ Hf) in Hup. injection Hup as <- <- <-.
    repeat split; try done. by left.
Qed.

Lemma create_heap (h h2 : heap) r r' item c :
  closed h r →
  Repository.create h r item = (h2, r', c) →
  h ⊆ h2
  ∧ closed h2 r'
  ∧ (∀ l, l ∈ Repository.items r' → l ∈ Repository.items r ∨ h !! l = None)
  ∧ h !! c = None ∧ is_Some (h2 !! c) ∧ c ∉ Repository.items r'.
Proof.
  intros Hc Hcr.
  destruct (create_ids _ _ _ _ _ _ Hc Hcr) as (Hsub & Hc' & _ & _ & Hcn & Hni & _).
  apply create_spec in Hcr as (newItem & Hn & _ & Hne & -> & ->).
  split; [done|]. split; [done|]. split; [|split; [done|split; [|done]]].
  - simpl. intros l [Hin|Hin]%elem_of_app; [by left|].
    apply list_elem_of_singleton in Hin as ->. by right.
  - rewrite lookup_insert_eq. eauto.
Qed.

Lemma separated_grow (h h' : heap) (items items' held fresh : list loc) :
  h ⊆ h' →
  Forall (is_object h) items →
  (∀ l, l ∈ items' → l ∈ items ∨ h !! l = None) →
  Forall (λ l, is_Some (h !! l) ∧ l ∉ items) held →
  Forall (λ l, h !! l = None ∧ is_Some (h' !! l) ∧ l ∉ items') fresh →
  Forall (λ l, is_Some (h' !! l) ∧ l ∉ items') (fresh ++ held).
Proof.
  intros Hsub Hc Hitems Hheld Hfresh. apply Forall_app. split.
  - eapply Forall_impl; [exact Hfresh|]. by intros l (_ & ? & ?).
  - eapply Forall_impl; [exact Hheld|]. intros l [[c Hl] Hni]. split.
    + exists c. by eapply lookup_weaken.
    + intros [Hin|Hin]%Hitems; [done|congruence].
Qed.

Lemma step_isolated (s : Client.state) (a : Client.action) :
  Client.isolated s → Client.isolated (Client.step s a).
Proof.
  intros [Hc Hsep]. unfold Client.isolated, Client.separated in *.
  destruct a as [|id|item|id updates|id|l k v|l k time]; cbn [Client.step].
  - destruct (Repository.getAll (Client.hp s) (Client.store s))
      as [h cs] eqn:Hg. cbn [Client.hp Client.store Client.handed].
    destruct (getAll_spec _ _ _ _ Hc Hg) as (Hsub & Hcs & _).
    split.
    + eapply Forall_impl; [exact Hc|]. intros l. by apply is_object_mono.
    + eapply (separated_grow (Client.hp s) h); eauto.
      assert (Forall (λ c, Client.hp s !! c = None ∧ is_Some (h !! c)) cs)
        as Hnew.
      { clear -Hcs.
        induction Hcs as [|l c ls cs' [Hn Hl] _ IH]; constructor; eauto. }
      eapply Forall_impl; [exact Hnew|]. intros c [Hn Hs].
      split; [done|]. split; [done|]. by apply (closed_fresh (Client.hp s)).
  - destruct (Repository.findIndex (Client.hp s) (Client.store s) id)
      as [[index item]|] eqn:Hf.
    + destruct (getById_spec _ _ _ _ _ Hf) as (c & Hcn & ->). cbn [Client.hp Client.store Client.handed].
      pose proof (insert_subseteq (Client.hp s) c
                    (CObj (props (Client.hp s) item)) Hcn) as Hsub.
      split.
      * eapply Forall_impl; [exact Hc|]. intros l. by apply is_object_mono.
      * eapply (separated_grow (Client.hp s) _ _ _ _ [c]); eauto.
        constructor; [|constructor]. split; [done|]. split.
        -- rewrite lookup_insert_eq. eauto.
        -- by apply (closed_fresh (Client.hp s)).
    + rewrite (getById_missing _ _ _ Hf). simpl. done.
  - destruct (Repository.create (Client.hp s) (Client.store s) item)
      as [[h r] c] eqn:Hcr. cbn [Client.hp Client.store Client.handed].
    destruct (create_heap _ _ _ _ _ _ Hc Hcr)
      as (Hsub & Hc' & Hitems & Hcn & Hcs & Hni).
    split; [done|].
    apply (separated_grow (Client.hp s) h (Repository.items (Client.store s))
             _ _ [c]); eauto.
  - destruct (Repository.update (Client.hp s) (Client.store s) id updates)
      as [[h r] res] eqn:Hup. cbn [Client.hp Client.store Client.handed].
    destruct (update_heap _ _ _ _ _ _ _ Hc Hup)
      as (Hsub & Hc' & Hitems & Hres).
    split; [done|].
    apply (separated_grow (Client.hp s) h (Repository.items (Client.store s)));
      eauto.
    destruct res as [c|]; [|constructor].
    destruct (Hres c eq_refl) as (? & ? & ?). by repeat constructor.
  - destruct (Repository.delete (Client.hp s) (Client.store s) id)
      as [r b] eqn:Hd. cbn [Client.hp Client.store Client.handed].
    assert (r = (Repository.delete (Client.hp s) (Client.store s) id).1)
      as -> by (by rewrite Hd).
    assert (∀ l, l ∈ Repository.items
                   (Repository.delete (Client.hp s) (Client.store s) id).1 →
                 l ∈ Repository.items (Client.store s)) as Hsub.
    { intros l. rewrite delete_items. by intros [_ ?]%list_elem_of_filter. }
    split.
    + unfold closed in *. rewrite Forall_forall in Hc |- *.
      intros l Hl. by apply Hc, Hsub.
    + eapply Forall_impl; [exact Hsep|]. intros l [? Hni].
      split; [done|]. intros Hin. by apply Hni, Hsub.
  - case_bool_decide as Hin; [cbn [Client.hp Client.store Client.handed]|done].
    rewrite Forall_forall in Hsep. destruct (Hsep l Hin) as [_ Hni].
    split.
    + unfold closed in *. rewrite Forall_forall in Hc |- *.
      intros l' Hl'. eapply is_object_same; [|by apply Hc].
      apply assign_lookup_ne. by intros ->.
    + apply Forall_forall. intros l' Hl'. destruct (Hsep l' Hl') as [? ?].
      split; [by apply assign_is_Some|done].
  - case_bool_decide as Hin; [cbn [Client.hp Client.store Client.handed]|done].
    split.
    + unfold closed in *. rewrite Forall_forall in Hc |- *.
      intros l' Hl'. eapply is_object_same; [|by apply Hc].
      by apply setTime_lookup_object, Hc.
    + eapply Forall_impl; [exact Hsep|]. intros l' [? ?].
      split; [by apply setTime_is_Some|done].
Qed.

Lemma run_isolated (acts : list Client.action) : ∀ s,
  Client.isolated s → Client.isolated (Client.run s acts).
Proof.
  induction acts as [|a acts IH]; intros s Hs; [done|].
  simpl. by apply IH, step_isolated.
Qed.

Lemma start_isolated (h : heap) r :
  closed h r → Client.isolated (Client.start h r).
Proof. intros Hc. split; [done|]. constructor. Qed.

(** ** Copy isolation *)

Lemma look_same_dates (h h' : heap) v :
  (∀ d t, h' !! d = Some (CDate t) ↔ h !! d = Some (CDate t)) →
  Client.look h' v = Client.look h v.
Proof.
  intros Hd. destruct v as [| | | | |d]; try done. simpl.
  destruct (h !! d) as [[o|t]|] eqn:Hh.
  - destruct (h' !! d) as [[o'|t']|] eqn:Hh'; try done.
    apply Hd in Hh'. congruence.
  - apply Hd in Hh. by rewrite Hh.
  - destruct (h' !! d) as [[o'|t']|] eqn:Hh'; try done.
    apply Hd in Hh'. congruence.
Qed.

Lemma view_same (h h' : heap) l l' :
  (∀ d t, h' !! d = Some (CDate t) ↔ h !! d = Some (CDate t)) →
  props h' l' = props h l →
  Client.view h' l' = Client.view h l.
Proof.
  intros Hd Hp. unfold Client.view. rewrite Hp.
  apply map_fmap_ext. intros ? v _. by apply look_same_dates.
Qed.

(** What [getAll()] shows is what the stored items show. *)
Lemma getAll_view_stored (s : Client.state) :
  closed (Client.hp s) (Client.store s) →
  Client.getAll_view s
  = map (Client.view (Client.hp s)) (Repository.items (Client.store s)).
Proof.
  intros Hc. unfold Client.getAll_view.
  destruct (Repository.getAll (Client.hp s) (Client.store s))
    as [h cs] eqn:Hg.
  destruct (getAll_spec _ _ _ _ Hc Hg) as (Hsub & Hcs & Hnew).
  assert (∀ d t, h !! d = Some (CDate t) ↔ Client.hp s !! d = Some (CDate t))
    as Hd.
  { intros d t. split; [|intros Hl; by eapply lookup_weaken].
    intros Hl. destruct (Client.hp s !! d) as [c|] eqn:Hold.
    - by rewrite (lookup_weaken _ _ _ _ Hold Hsub) in Hl.
    - exfalso. assert (d ∈ cs) as Hin by (apply Hnew; eauto).
      clear -Hcs Hin Hl.
      induction Hcs as [|l c ls cs' [_ Hc] _ IH];
        [by apply elem_of_nil in Hin|].
      apply elem_of_cons in Hin as [->|Hin]; [congruence|by apply IH]. }
  clear Hg Hnew Hc.
  induction Hcs as [|l c ls cs' [_ Hl] _ IH]; [done|].
  simpl. rewrite IH. f_equal. apply view_same; [done|].
  unfold props at 1. by rewrite Hl.
Qed.

Lemma getById_view_stored (s : Client.state) id :
  Client.getById_view s id
  = (λ p, Client.view (Client.hp s) p.2)
    <$> Repository.findIndex (Client.hp s) (Client.store s) id.
Proof.
  unfold Client.getById_view.
  destruct (Repository.findIndex (Client.hp s) (Client.store s) id)
    as [[index item]|] eqn:Hf.
  - destruct (getById_spec _ _ _ _ _ Hf) as (c & Hcn & ->). simpl. f_equal.
    apply view_same; [|apply props_insert_eq].
    intros d t. destruct (decide (c = d)) as [<-|Hne].
    + rewrite lookup_insert_eq, Hcn. split; intros; simplify_eq.
    + by rewrite lookup_insert_ne.
  - by rewrite (getById_missing _ _ _ Hf).
Qed.

Lemma constructor_closed (h h' : heap) initialItems r :
  Repository.constructor h initialItems = inr (h', r) → closed h' r.
Proof.
  intros (_ & _ & _ & Hcells & _)%constructor_inr. unfold closed.
  induction Hcells as [|l item ls its [_ Hl] _ IH]; constructor; [|done].
  apply is_object_spec. eauto.
Qed.

(** C1, as the code has it.  In every state that a caller can reach from a
    newly built store, by any calls and any writes to the objects it was
    handed, no object that was handed out is a stored item; and assigning to
    a property of an object that was handed out changes nothing in what
    [getAll()] and [getById(id)] show afterwards (property values, and the
    times of the dates they refer to). *)
Theorem copy_isolation (h0 h : heap) (initialItems : list object)
    (r : Repository.t) (acts : list Client.action)
    (l : loc) (k : string) (v : value) :
  Repository.constructor h0 initialItems = inr (h, r) →
  let s := Client.run (Client.start h r) acts in
  Forall (λ c, c ∉ Repository.items (Client.store s)) (Client.handed s)
  ∧ Client.reads_unchanged s (Client.step s (Client.Assign l k v)).
Proof.
  intros Hctor s.
  assert (Client.isolated s) as Hiso
    by (by apply run_isolated, start_isolated, (constructor_closed h0 _ initialItems)).
  pose proof (step_isolated s (Client.Assign l k v) Hiso) as Hiso'.
  destruct Hiso as [Hc Hsep]. destruct Hiso' as [Hc' _].
  split.
  { eapply Forall_impl; [exact Hsep|]. by intros c [_ ?]. }
  unfold Client.reads_unchanged.
  rewrite (getAll_view_stored _ Hc'), (getAll_view_stored _ Hc).
  setoid_rewrite getById_view_stored.
  revert Hc'. cbn [Client.step]. case_bool_decide as Hin; [|done].
  cbn [Client.hp Client.store]. intros Hc'.
  unfold Client.separated in Hsep. rewrite Forall_forall in Hsep.
  destruct (Hsep l Hin) as [_ Hni].
  assert (Forall (λ l', Client.assign (Client.hp s) l k v !! l'
                        = Client.hp s !! l')
            (Repository.items (Client.store s))) as Hsame.
  { apply Forall_forall. intros l' Hl'. apply assign_lookup_ne.
    by intros ->. }
  assert (∀ d t, Client.assign (Client.hp s) l k v !! d = Some (CDate t)
                 ↔ Client.hp s !! d = Some (CDate t)) as Hd.
  { intros d t. destruct (decide (l = d)) as [<-|Hne];
      [|by rewrite assign_lookup_ne].
    unfold Client.assign.
    destruct (Client.hp s !! l) as [[o|t']|] eqn:Hl; rewrite ?Hl; try done.
    rewrite lookup_insert_eq. split; intros; simplify_eq. }
  split.
  - clear -Hsame Hd. induction Hsame as [|l' ls Hl' _ IH]; [done|].
    simpl. rewrite IH. f_equal. apply view_same; [done|].
    by apply props_same.
  - intros id. rewrite (findIndex_frame _ _ _ _ Hsame).
    destruct (Repository.findIndex (Client.hp s) (Client.store s) id)
      as [[index item]|] eqn:Hf; [|done].
    simpl. f_equal. apply view_same; [done|]. apply props_same.
    apply findIndex_Some in Hf as (Hitem & _).
    rewrite Forall_forall in Hsame. apply Hsame.
    by eapply list_elem_of_lookup_2.
Qed.

(** One item is loaded and read once; writing to the copy changes nothing
    in later reads. *)
Lemma copy_isolation_witness :
  ∃ h r,
    Repository.constructor Sample.dated Sample.dated_items = inr (h, r)
    ∧ let s := Client.run (Client.start h r) [Client.GetById 1] in
      Client.handed s = [3%positive]
      ∧ Client.reads_unchanged s
          (Client.step s (Client.Assign 3 "createdAt" VNull)).
Proof.
  destruct (Repository.constructor Sample.dated Sample.dated_items)
    as [e|[h r]] eqn:Hc; [by vm_compute in Hc|].
  exists h, r. split; [done|]. intros s. split.
  - vm_compute in Hc. injection Hc as <- <-. by vm_compute.
  - apply (copy_isolation Sample.dated h Sample.dated_items r
             [Client.GetById 1] 3 "createdAt" VNull Hc).
Defined.

(** C1, as stated, fails: a copy shares the dates of the stored item.  One
    item is loaded and read once with [getById(1)]; [setTime(0)] on the
    [createdAt] of the copy changes the [createdAt] that the next
    [getById(1)] shows. *)
Lemma copy_isolation_fails_for_dates :
  ¬ ∀ (h0 h : heap) (initialItems : list object) (r : Repository.t)
      (acts : list Client.action) (m : Client.action),
      Repository.constructor h0 initialItems = inr (h, r) →
      Client.is_mutation m →
      let s := Client.run (Client.start h r) acts in
      Client.reads_unchanged s (Client.step s m).
Proof.
  intros H.
  destruct (Repository.constructor Sample.dated Sample.dated_items)
    as [e|[h r]] eqn:Hc; [by vm_compute in Hc|].
  specialize (H _ _ _ _ [Client.GetById 1]
                (Client.SetTime 3 "createdAt" 0) Hc I).
  destruct H as [_ H]. specialize (H 1).
  vm_compute in Hc. injection Hc as <- <-.
  apply (f_equal (λ o, o ≫= (λ seen, seen !! "createdAt"))) in H.
  vm_compute in H. done.
Qed.

(** The same run, with the values on both sides. *)
Example shared_date_is_visible :
  ∃ h r,
    Repository.constructor Sample.dated Sample.dated_items = inr (h, r)
    ∧ let s := Client.run (Client.start h r) [Client.GetById 1] in
      let s' := Client.step s (Client.SetTime 3 "createdAt" 0) in
      Client.handed s = [3%positive]
      ∧ Client.getById_view s 1 ≫= (λ seen, seen !! "createdAt")
        = Some (Client.DateAt (Some 1000))
      ∧ Client.getById_view s' 1 ≫= (λ seen, seen !! "createdAt")
        = Some (Client.DateAt (Some 0)).
Proof.
  eexists _, _. split; [by vm_compute|]. by vm_compute.
Qed.

(** The application shows the same: the date that [addTodo] makes is
    reachable from every copy that [todos] returns. *)
Example todos_share_dates :
  ∃ h1 s1 res h2 c h4 c',
    TodoAppState.addTodo 1000 ∅ Sample.fresh_app
      {[ "text" := VStr "Buy milk"; "status" := VStr "pending" ]}
    = inr (h1, s1, res)
    ∧ TodoAppState.todos h1 s1 = (h2, [c])
    ∧ getTime h2 (field h2 c "createdAt") = Some 1000
    ∧ TodoAppState.todos (Client.setTime h2 (field h2 c "createdAt") 0) s1
      = (h4, [c'])
    ∧ getTime h4 (field h4 c' "createdAt") = Some 0.
Proof. eexists _, _, _, _, _, _, _. by vm_compute. Qed.

(** ** Fresh identities *)

Lemma store_inv_frame (h h' : heap) r :
  Forall (λ l, h' !! l = h !! l) (Repository.items r) →
  store_inv h r → store_inv h' r.
Proof.
  intros Hsame (Hc & Hu & Hb & Hpos).
  unfold store_inv, unique_ids, ids_below_next.
  rewrite (ids_frame _ _ _ Hsame). split; [|done].
  by apply (closed_frame h).
Qed.

Lemma step_store_inv (s : Client.state) (a : Client.action) :
  Client.typed a →
  Client.isolated s →
  store_inv (Client.hp s) (Client.store s) →
  store_inv (Client.hp (Client.step s a)) (Client.store (Client.step s a)).
Proof.
  intros Hty [Hc Hsep] Hinv.
  destruct a as [|id|item|id updates|id|l k v|l k time]; cbn [Client.step].
  - destruct (Repository.getAll (Client.hp s) (Client.store s))
      as [h cs] eqn:Hg. cbn [Client.hp Client.store].
    destruct (getAll_spec _ _ _ _ Hc Hg) as (Hsub & _).
    eapply store_inv_frame; [|done]. by apply closed_same.
  - destruct (Repository.findIndex (Client.hp s) (Client.store s) id)
      as [[index item]|] eqn:Hf.
    + destruct (getById_spec _ _ _ _ _ Hf) as (c & Hcn & ->).
      cbn [Client.hp Client.store].
      eapply store_inv_frame; [|done]. apply closed_same; [|done].
      by apply insert_subseteq.
    + by rewrite (getById_missing _ _ _ Hf).
  - destruct (Repository.create (Client.hp s) (Client.store s) item)
      as [[h r] c] eqn:Hcr. cbn [Client.hp Client.store].
    by eapply create_inv.
  - destruct (Repository.update (Client.hp s) (Client.store s) id updates)
      as [[h r] res] eqn:Hup. cbn [Client.hp Client.store].
    by eapply update_inv.
  - destruct (Repository.delete (Client.hp s) (Client.store s) id)
      as [r b] eqn:Hd. cbn [Client.hp Client.store].
    assert (r = (Repository.delete (Client.hp s) (Client.store s) id).1)
      as -> by (by rewrite Hd).
    by apply delete_inv.
  - case_bool_decide as Hin; [cbn [Client.hp Client.store]|done].
    unfold Client.separated in Hsep. rewrite Forall_forall in Hsep.
    destruct (Hsep l Hin) as [_ Hni].
    eapply store_inv_frame; [|done]. apply Forall_forall. intros l' Hl'.
    apply assign_lookup_ne. by intros ->.
  - case_bool_decide as Hin; [cbn [Client.hp Client.store]|done].
    eapply store_inv_frame; [|done].
    eapply Forall_impl; [exact Hc|]. intros l'.
    apply setTime_lookup_object.
Qed.

Lemma run_store_inv (acts : list Client.action) : ∀ s,
  Forall Client.typed acts →
  Client.isolated s →
  store_inv (Client.hp s) (Client.store s) →
  store_inv (Client.hp (Client.run s acts)) (Client.store (Client.run s acts)).
Proof.
  induction acts as [|a acts IH]; intros s Hty Hiso Hinv; [done|].
  apply Forall_cons in Hty as [Ha Hty]. simpl.
  apply IH; [done|by apply step_isolated|by apply step_store_inv].
Qed.

(** Every store that a well-typed caller can reach satisfies the
    invariant. *)
Lemma reachable_store_inv (h0 h : heap) initialItems r acts :
  Forall has_numeric_id initialItems →
  Forall Client.typed acts →
  Repository.constructor h0 initialItems = inr (h, r) →
  let s := Client.run (Client.start h r) acts in
  store_inv (Client.hp s) (Client.store s).
Proof.
  intros Hnum Hty Hc. apply run_store_inv; [done| |].
  - by apply start_isolated, (constructor_closed h0 _ initialItems).
  - by apply (constructor_inv h0 _ initialItems).
Qed.



(** ** updateTodo, step by step *)

Section UpdateTodo.

Context (Date_parse : string → option Z).

Lemma dueDate_update_subseteq (h h' : heap) todo v v' :
  TodoAppState.dueDate_update Date_parse h todo v = (h', v') → h ⊆ h'.
Proof.
  unfold TodoAppState.dueDate_update, TodoAppState.new_Date.
  case_bool_decide; [by intros [= <- <-]|].
  destruct (instanceof_Date h v); [by intros [= <- <-]|].
  destruct (truthy v); [|by intros [= <- <-]].
  destruct (alloc h _) as [h1 d] eqn:Ha. intros [= <- <-].
  by eapply alloc_subseteq.
Qed.

(** The run of [updateTodo] on an id that is stored: the copy [c0] that
    [getById] makes, the date [d] of [new Date()], the heap [h3] after the
    due date has been worked out, the new stored object [merged] and the
    returned copy [c]. *)
Lemma updateTodo_found (now : Z) (h : heap) (s : TodoAppState.t) (id : Z)
    (updates : object) index old :
  closed h (TodoAppState.todoRepository s) →
  Repository.findIndex h (TodoAppState.todoRepository s) id
  = Some (index, old) →
  ∃ c0 d h3 due merged c,
    let h1 := <[c0 := CObj (props h old)]> h in
    let h2 := <[d := CDate (Some now)]> h1 in
    let base :=
      TodoAppState.copy_defined updates "priority"
        (TodoAppState.copy_defined updates "status"
           (TodoAppState.copy_defined updates "text"
              {[ "updatedAt" := VRef d ]})) in
    let updateData :=
      match due with Some v => <["dueDate" := v]> base | None => base end in
    let o := updateData ∪ props h old in
    let h4 := <[c := CObj o]> (<[merged := CObj o]> h3) in
    h !! c0 = None ∧ h1 !! d = None
    ∧ h3 !! merged = None ∧ h3 !! c = None ∧ merged ≠ c
    ∧ h2 ⊆ h3
    ∧ match updates !! "dueDate" with
      | None => due = None ∧ h3 = h2
      | Some v =>
          ∃ v', due = Some v'
                ∧ TodoAppState.dueDate_update Date_parse h2 c0 v = (h3, v')
      end
    ∧ TodoAppState.updateTodo Date_parse now h s id updates
      = inr (h4,
             TodoAppState.with_repository s
               {| Repository.items :=
                    <[index := merged]>
                      (Repository.items (TodoAppState.todoRepository s));
                  Repository.nextId :=
                    Repository.nextId (TodoAppState.todoRepository s) |},
             {| Result.isSuccess := true; Result.isFailure := false;
                Result.error := None; Result._value := VRef c |}).
Proof.
  intros Hc Hf. unfold TodoAppState.updateTodo.
  destruct (getById_spec _ _ _ _ _ Hf) as (c0 & Hc0 & ->).
  destruct (alloc (<[c0:=CObj (props h old)]> h) (CDate (Some now)))
    as [h2 d] eqn:Ha.
  apply alloc_spec in Ha as [Hd ->].
  set (h1 := <[c0:=CObj (props h old)]> h) in *.
  set (h2 := <[d:=CDate (Some now)]> h1) in *.
  set (base := TodoAppState.copy_defined updates "priority" _).
  assert (h ⊆ h2) as Hsub2.
  { etrans; [by apply (insert_subseteq h c0 (CObj (props h old)))|].
    by apply insert_subseteq. }
  assert (∃ h3 due,
    (if bool_decide (is_Some (updates !! "dueDate"))
     then let '(h', v) :=
            TodoAppState.dueDate_update Date_parse h2 c0
              (prop updates "dueDate") in
          (h', <["dueDate" := v]> base)
     else (h2, base))
    = (h3, match due with Some v => <["dueDate" := v]> base | None => base end)
    ∧ h2 ⊆ h3
    ∧ match updates !! "dueDate" with
      | None => due = None ∧ h3 = h2
      | Some v =>
          ∃ v', due = Some v'
                ∧ TodoAppState.dueDate_update Date_parse h2 c0 v = (h3, v')
      end) as (h3 & due & -> & Hsub3 & Hdue).
  { unfold prop. destruct (updates !! "dueDate") as [v|] eqn:Hv.
    - rewrite bool_decide_eq_true_2 by eauto. simpl.
      destruct (TodoAppState.dueDate_update Date_parse h2 c0 v)
        as [h3 v'] eqn:Hdu.
      exists h3, (Some v'). split; [done|].
      split; [by eapply dueDate_update_subseteq|]. eauto.
    - rewrite bool_decide_eq_false_2 by (by intros [? ?]).
      exists h2, None. done. }
  set (updateData :=
         match due with Some v => <["dueDate":=v]> base | None => base end).
  assert (h ⊆ h3) as Hsub by (by etrans).
  assert (Repository.findIndex h3 (TodoAppState.todoRepository s) id
          = Some (index, old)) as Hf3.
  { rewrite <- Hf. apply findIndex_frame. by apply closed_same. }
  destruct (update_spec h3 _ id updateData index old Hf3)
    as (merged & c & Hm & Hcn & Hne & ->).
  assert (props h3 old = props h old) as ->.
  { apply props_mono; [done|].
    apply findIndex_Some in Hf as (Hold & _).
    unfold closed in Hc. rewrite Forall_forall in Hc.
    apply is_object_is_Some, Hc. by eapply list_elem_of_lookup_2. }
  exists c0, d, h3, due, merged, c. simpl. unthrow.
  repeat (split; [done|]). done.
Qed.

Lemma updateTodo_missing (now : Z) (h : heap) (s : TodoAppState.t) (id : Z)
    (updates : object) :
  Repository.findIndex h (TodoAppState.todoRepository s) id = None →
  TodoAppState.updateTodo Date_parse now h s id updates
  = inr (h, s,
         {| Result.isSuccess := false; Result.isFailure := true;
            Result.error := Some "Todo not found";
            Result._value := VUndef |}).
Proof.
  intros Hf. unfold TodoAppState.updateTodo.
  by rewrite (getById_missing _ _ _ Hf).
Qed.

Lemma dueDate_update_null (h : heap) todo :
  TodoAppState.dueDate_update Date_parse h todo VNull = (h, VUndef).
Proof. done. Qed.

Lemma dueDate_update_date (h : heap) todo dl t :
  h !! dl = Some (CDate t) →
  TodoAppState.dueDate_update Date_parse h todo (VRef dl) = (h, VRef dl).
Proof.
  intros Hdl. unfold TodoAppState.dueDate_update. simpl. by rewrite Hdl.
Qed.

Lemma dueDate_update_string (h : heap) todo str :
  str ≠ EmptyString →
  ∃ nd, h !! nd = None
        ∧ TodoAppState.dueDate_update Date_parse h todo (VStr str)
          = (<[nd := CDate (Date_parse str)]> h, VRef nd).
Proof.
  intros Hstr%String.eqb_neq.
  unfold TodoAppState.dueDate_update, TodoAppState.new_Date.
  rewrite bool_decide_eq_false_2 by done.
  cbn [instanceof_Date truthy]. rewrite Hstr. cbn [negb].
  destruct (alloc h (CDate (Date_parse str))) as [h' nd] eqn:Ha.
  apply alloc_spec in Ha as [Hnd ->]. eauto.
Qed.

Lemma copy_defined_lookup_ne updates k k' (updateData : object) :
  k ≠ k' →
  TodoAppState.copy_defined updates k updateData !! k' = updateData !! k'.
Proof.
  intros Hne. unfold TodoAppState.copy_defined.
  case_bool_decide; [|done]. by rewrite lookup_insert_ne.
Qed.

Lemma copy_defined_lookup_eq updates k (updateData : object) :
  TodoAppState.copy_defined updates k updateData !! k
  = if bool_decide (prop updates k ≠ VUndef) then Some (prop updates k)
    else updateData !! k.
Proof.
  unfold TodoAppState.copy_defined.
  case_bool_decide; [|done]. by rewrite lookup_insert_eq.
Qed.

(** What [updateTodo] stores for an id that is in the store: the new item
    [merged] has the properties of [updateData] over those of the old item,
    and [updateData] has a new [updatedAt], the defined ones among [text],
    [status] and [priority], a [dueDate] when [updates] has the key, and
    nothing else. *)
Lemma updateTodo_stored (now : Z) (h : heap) (s : TodoAppState.t) (id : Z)
    (updates : object) index old :
  closed h (TodoAppState.todoRepository s) →
  Repository.findIndex h (TodoAppState.todoRepository s) id
  = Some (index, old) →
  ∃ h' merged c d (updateData : object),
    TodoAppState.updateTodo Date_parse now h s id updates
    = inr (h',
           TodoAppState.with_repository s
             {| Repository.items :=
                  <[index := merged]>
                    (Repository.items (TodoAppState.todoRepository s));
                Repository.nextId :=
                  Repository.nextId (TodoAppState.todoRepository s) |},
           {| Result.isSuccess := true; Result.isFailure := false;
              Result.error := None; Result._value := VRef c |})
    ∧ h ⊆ h'
    ∧ h !! merged = None ∧ h !! c = None ∧ merged ≠ c
    ∧ h !! d = None ∧ h' !! d = Some (CDate (Some now))
    ∧ props h' merged = updateData ∪ props h old
    ∧ props h' c = updateData ∪ props h old
    ∧ updateData !! "updatedAt" = Some (VRef d)
    ∧ (∀ k, k ∈ ["text"; "status"; "priority"] →
            updateData !! k
            = if bool_decide (prop updates k ≠ VUndef)
              then Some (prop updates k) else None)
    ∧ (∀ k, k ∉ ["updatedAt"; "text"; "status"; "priority"; "dueDate"] →
            updateData !! k = None)
    ∧ match updates !! "dueDate" with
      | None => updateData !! "dueDate" = None
      | Some v =>
          ∃ h2 h3 c0 v',
            h ⊆ h2 ∧ h3 ⊆ h'
            ∧ TodoAppState.dueDate_update Date_parse h2 c0 v = (h3, v')
            ∧ updateData !! "dueDate" = Some v'
      end.
Proof.
  intros Hc Hf.
  destruct (updateTodo_found now h s id updates index old Hc Hf)
    as (c0 & d & h3 & due & merged & c & Hc0 & Hd & Hm & Hcn & Hne
        & Hsub3 & Hdue & Hrun).
  set (h1 := <[c0:=CObj (props h old)]> h) in *.
  set (h2 := <[d:=CDate (Some now)]> h1) in *.
  set (base := TodoAppState.copy_defined updates "priority" _) in *.
  set (updateData :=
         match due with Some v => <["dueDate":=v]> base | None => base end)
    in *.
  set (o := updateData ∪ props h old) in *.
  set (h4 := <[c:=CObj o]> (<[merged:=CObj o]> h3)) in *.
  assert (h ⊆ h1) as Hsub1 by (by apply insert_subseteq).
  assert (h ⊆ h2) as Hsub2 by (etrans; [done|by apply insert_subseteq]).
  assert (h3 ⊆ h4) as Hsub4 by (by apply two_fresh_subseteq).
  assert (h ⊆ h3) as Hsub by (by etrans).
  assert (∀ k, k ≠ "dueDate" → updateData !! k = base !! k) as Hud.
  { intros k Hk. unfold updateData. destruct due; [|done].
    by rewrite lookup_insert_ne. }
  exists h4, merged, c, d, updateData. split; [exact Hrun|].
  split; [by etrans|].
  split; [by apply (lookup_weaken_None _ _ _ Hm)|].
  split; [by apply (lookup_weaken_None _ _ _ Hcn)|].
  split; [done|].
  split; [by apply (lookup_weaken_None _ _ _ Hd)|].
  split.
  { eapply lookup_weaken; [apply (lookup_insert_eq h1)|]. by etrans. }
  split; [unfold h4; by rewrite props_insert_ne, props_insert_eq|].
  split; [unfold h4; by rewrite props_insert_eq|].
  split.
  { rewrite Hud by done. unfold base.
    rewrite !copy_defined_lookup_ne by done. apply lookup_singleton_eq. }
  split.
  { intros k Hk.
    repeat (apply elem_of_cons in Hk as [->|Hk]);
      [| |  |by apply elem_of_nil in Hk];
      rewrite Hud by done; unfold base;
      rewrite ?copy_defined_lookup_ne by done;
      rewrite copy_defined_lookup_eq;
      rewrite ?copy_defined_lookup_ne by done;
      rewrite ?lookup_singleton_ne by done; done. }
  split.
  { intros k Hk.
    apply not_elem_of_cons in Hk as [Hk1 Hk].
    apply not_elem_of_cons in Hk as [Hk2 Hk].
    apply not_elem_of_cons in Hk as [Hk3 Hk].
    apply not_elem_of_cons in Hk as [Hk4 Hk].
    apply not_elem_of_cons in Hk as [Hk5 _].
    rewrite Hud by done. unfold base.
    rewrite !copy_defined_lookup_ne by done.
    by apply lookup_singleton_ne. }
  destruct (updates !! "dueDate") as [v|].
  - destruct Hdue as (v' & Hv' & Hdu).
    exists h2, h3, c0, v'. split; [done|]. split; [done|]. split; [done|].
    unfold updateData. rewrite Hv'. apply lookup_insert_eq.
  - destruct Hdue as [Hv' _]. unfold updateData. rewrite Hv'. unfold base.
    rewrite !copy_defined_lookup_ne by done. by apply lookup_singleton_ne.
Qed.

End UpdateTodo.

Section DueDate.

Context (Date_parse : string → option Z).

(** C3. [updateTodo(id, updates)] on a stored id succeeds, and the due
    date of the new stored item is: [undefined] when [updates.dueDate] is
    [null]; the given date when it is a [Date]; a new date with the time
    that the string parses to when it is a non-empty string; and the due
    date of the old item, as it was, when [updates] has no [dueDate]
    key. *)
Theorem dueDate_contract (now : Z) (h : heap) (s : TodoAppState.t) (id : Z)
    (updates : object) (index : nat) (old : loc) :
  closed h (TodoAppState.todoRepository s) →
  Repository.findIndex h (TodoAppState.todoRepository s) id
  = Some (index, old) →
  ∃ h' s' res merged,
    TodoAppState.updateTodo Date_parse now h s id updates
    = inr (h', s', res)
    ∧ Result.isSuccess res = true
    ∧ h ⊆ h'
    ∧ Repository.items (TodoAppState.todoRepository s')
      = <[index := merged]>
          (Repository.items (TodoAppState.todoRepository s))
    ∧ (updates !! "dueDate" = Some VNull →
         field h' merged "dueDate" = VUndef)
    ∧ (∀ dl t, updates !! "dueDate" = Some (VRef dl) →
               h !! dl = Some (CDate t) →
               field h' merged "dueDate" = VRef dl
               ∧ getTime h' (field h' merged "dueDate") = t)
    ∧ (∀ str, updates !! "dueDate" = Some (VStr str) →
              str ≠ EmptyString →
              ∃ nd, field h' merged "dueDate" = VRef nd
                    ∧ h !! nd = None
                    ∧ getTime h' (field h' merged "dueDate")
                      = Date_parse str)
    ∧ (updates !! "dueDate" = None →
         props h' merged !! "dueDate" = props h old !! "dueDate").
Proof.
  intros Hc Hf.
  destruct (updateTodo_stored Date_parse now h s id updates index old Hc Hf)
    as (h' & merged & c & d & updateData & Hrun & Hsub & _ & _ & _ & _ & _
        & Hp & _ & _ & _ & _ & Hdue).
  eexists h', _, _, merged. split; [exact Hrun|]. split; [done|].
  split; [done|]. split; [done|].
  unfold field, prop. rewrite Hp.
  split; [|split; [|split]].
  - intros Hu. rewrite Hu in Hdue.
    destruct Hdue as (h2 & h3 & c0 & v' & _ & _ & Hdu & Hv').
    rewrite dueDate_update_null in Hdu. injection Hdu as _ <-.
    by rewrite (lookup_union_Some_l _ _ _ _ Hv').
  - intros dl t Hu Hdl. rewrite Hu in Hdue.
    destruct Hdue as (h2 & h3 & c0 & v' & Hsub2 & _ & Hdu & Hv').
    rewrite (dueDate_update_date _ _ _ _ t) in Hdu
      by (by eapply lookup_weaken).
    injection Hdu as _ <-. rewrite (lookup_union_Some_l _ _ _ _ Hv').
    split; [done|]. simpl. by rewrite (lookup_weaken _ _ _ _ Hdl Hsub).
  - intros str Hu Hstr. rewrite Hu in Hdue.
    destruct Hdue as (h2 & h3 & c0 & v' & Hsub2 & Hsub3 & Hdu & Hv').
    destruct (dueDate_update_string Date_parse h2 c0 str Hstr)
      as (nd & Hnd & Hdu').
    rewrite Hdu' in Hdu. injection Hdu as Hh3 <-.
    exists nd. rewrite (lookup_union_Some_l _ _ _ _ Hv').
    split; [done|]. split; [by apply (lookup_weaken_None _ _ _ Hnd)|].
    assert (h3 !! nd = Some (CDate (Date_parse str))) as Hl3
      by (rewrite <- Hh3; apply lookup_insert_eq).
    simpl. by rewrite (lookup_weaken _ _ _ _ Hl3 Hsub3).
  - intros Hu. rewrite Hu in Hdue. by apply lookup_union_r.
Qed.

(** The branch that the contract leaves out: a [dueDate] key whose value
    is [undefined] or the empty string keeps the due date of the item. *)
Lemma dueDate_fallback (h : heap) (todo : loc) (v : value) :
  v = VUndef ∨ v = VStr EmptyString →
  TodoAppState.dueDate_update Date_parse h todo v
  = (h, field h todo "dueDate").
Proof. by intros [-> | ->]. Qed.

End DueDate.

(** The first sample task gets the due date ["2030-01-01"], with a parser
    that reads it as the time 42. *)
Lemma dueDate_contract_witness :
  ∃ h' s' res merged,
    TodoAppState.updateTodo (λ _, Some 42) 300 Sample.hp Sample.app 1
      {[ "dueDate" := VStr "2030-01-01" ]} = inr (h', s', res)
    ∧ Repository.items (TodoAppState.todoRepository s')
      = [merged; 4%positive]
    ∧ getTime h' (field h' merged "dueDate") = Some 42.
Proof.
  destruct (dueDate_contract (λ _, Some 42) 300 Sample.hp Sample.app 1
              {[ "dueDate" := VStr "2030-01-01" ]} 0 2%positive)
    as (h' & s' & res & merged & Hup & _ & _ & Hitems & _ & _ & Hstr & _).
  - apply (bool_decide_unpack _). by vm_compute.
  - by vm_compute.
  - exists h', s', res, merged. split; [done|]. split; [by rewrite Hitems|].
    destruct (Hstr "2030-01-01") as (nd & _ & _ & Ht); [done..|].
    exact Ht.
Defined.

(** ** Time stamps *)

Lemma getTime_mono (h h' : heap) v t :
  h ⊆ h' → getTime h v = Some t → getTime h' v = Some t.
Proof.
  intros Hsub. destruct v as [| | | | |l]; try done. simpl.
  destruct (h !! l) as [[o|t']|] eqn:Hl; try done.
  by rewrite (lookup_weaken _ _ _ _ Hl Hsub).
Qed.

Lemma stamps_within_mono (bound bound' : Z) (h h' : heap) l :
  h ⊆ h' → bound ≤ bound' → is_object h l →
  stamps_within bound h l → stamps_within bound' h' l.
Proof.
  intros Hsub Hle Hobj. unfold stamps_within.
  rewrite !(field_mono h h') by (done || by apply is_object_is_Some).
  destruct (getTime h (field h l "createdAt")) as [created|] eqn:Hc; [|done].
  destruct (getTime h (field h l "updatedAt")) as [updated|] eqn:Hu; [|done].
  rewrite (getTime_mono _ _ _ _ Hsub Hc), (getTime_mono _ _ _ _ Hsub Hu). lia.
Qed.

Lemma stamps_within_ordered (bound : Z) (h : heap) l :
  stamps_within bound h l → ordered_stamps h l.
Proof.
  unfold stamps_within, ordered_stamps.
  destruct (getTime h (field h l "createdAt")); [|done].
  destruct (getTime h (field h l "updatedAt")); [|done]. lia.
Qed.

(** The run of [addTodo]: the date [d] of [new Date()], the stored object
    [newItem] and the returned copy [c]. *)
Lemma addTodo_spec (now : Z) (h : heap) (s : TodoAppState.t) (todo : object) :
  ∃ d newItem c,
    let r := TodoAppState.todoRepository s in
    let o := <["id" := VNum (Repository.nextId r)]>
               (<["updatedAt" := VRef d]>
                  (<["createdAt" := VRef d]> (<["id" := VNum 0]> todo))) in
    let h1 := <[d := CDate (Some now)]> h in
    h !! d = None ∧ h1 !! newItem = None ∧ h1 !! c = None ∧ newItem ≠ c
    ∧ TodoAppState.addTodo now h s todo
      = inr (<[c := CObj o]> (<[newItem := CObj o]> h1),
             TodoAppState.with_repository s
               {| Repository.items := Repository.items r ++ [newItem];
                  Repository.nextId := Repository.nextId r + 1 |},
             {| Result.isSuccess := true; Result.isFailure := false;
                Result.error := None; Result._value := VRef c |}).
Proof.
  unfold TodoAppState.addTodo.
  destruct (alloc h (CDate (Some now))) as [h1 d] eqn:Ha.
  apply alloc_spec in Ha as [Hd ->].
  destruct (Repository.create _ (TodoAppState.todoRepository s) _)
    as [[h2 r'] c] eqn:Hcr.
  apply create_spec in Hcr as (newItem & Hn & Hcn & Hne & -> & ->).
  exists d, newItem, c. simpl. unthrow. done.
Qed.

Lemma last_cons_default {A} (x d : A) (l : list A) :
  List.last (x :: l) d = List.last l x.
Proof.
  revert x d. induction l as [|y l IH]; intros x d; [done|].
  change (List.last (x :: y :: l) d) with (List.last (y :: l) d).
  by rewrite !IH.
Qed.

Lemma times_cons (o : Session.op) (ops : list Session.op) :
  Session.times (o :: ops)
  = match Session.time_of o with
    | Some now => now :: Session.times ops
    | None => Session.times ops
    end.
Proof. done. Qed.

Section Stamps.

Context (Date_parse : string → option Z).

Lemma addTodo_stamped (bound now : Z) (h : heap) s todo :
  bound ≤ now → stamped bound h s →
  ∃ h' s' res,
    TodoAppState.addTodo now h s todo = inr (h', s', res)
    ∧ h ⊆ h' ∧ stamped now h' s'.
Proof.
  intros Hle [Hc Hst].
  destruct (addTodo_spec now h s todo)
    as (d & newItem & c & Hd & Hn & Hcn & Hne & ->).
  eexists _, _, _. split; [reflexivity|].
  set (o := <["id":=_]> _).
  set (h1 := <[d:=CDate (Some now)]> h) in *.
  set (h2 := <[c:=CObj o]> (<[newItem:=CObj o]> h1)).
  assert (h ⊆ h2) as Hsub.
  { etrans; [by apply (insert_subseteq h d (CDate (Some now)))|].
    by apply two_fresh_subseteq. }
  assert (is_object h2 newItem) as Hobj.
  { apply is_object_spec. exists o. unfold h2.
    rewrite lookup_insert_ne by done. apply lookup_insert_eq. }
  split; [done|]. split; simpl.
  - unfold closed. simpl. apply Forall_app. split; [|by constructor].
    eapply Forall_impl; [exact Hc|]. intros l. by apply is_object_mono.
  - apply Forall_app. split.
    + unfold closed in Hc. rewrite Forall_forall in Hc, Hst |- *.
      intros l Hl. apply (stamps_within_mono bound now h); auto.
    + constructor; [|constructor]. unfold stamps_within, field.
      assert (props h2 newItem = o) as ->
        by (unfold h2; by rewrite props_insert_ne, props_insert_eq).
      assert (h2 !! d = Some (CDate (Some now))) as Hd2.
      { eapply lookup_weaken; [apply (lookup_insert_eq h)|].
        by apply two_fresh_subseteq. }
      unfold o, prop. rewrite !lookup_insert_ne by done.
      rewrite lookup_insert_eq. rewrite lookup_insert_ne by done.
      rewrite lookup_insert_eq. simpl. rewrite Hd2. lia.
Qed.

Lemma updateTodo_stamped (bound now : Z) (h : heap) s id updates :
  bound ≤ now → stamped bound h s →
  ∃ h' s' res,
    TodoAppState.updateTodo Date_parse now h s id updates
    = inr (h', s', res)
    ∧ h ⊆ h' ∧ stamped now h' s'.
Proof.
  intros Hle [Hc Hst].
  destruct (Repository.findIndex h (TodoAppState.todoRepository s) id)
    as [[index old]|] eqn:Hf.
  - destruct (updateTodo_stored Date_parse now h s id updates index old
                Hc Hf)
      as (h' & merged & c & d & updateData & -> & Hsub & Hm & _ & _ & _
          & Hd & Hp & _ & Hupd & _ & Hother & _).
    assert (updateData !! "createdAt" = None) as Hcre
      by (apply Hother; compute_done).
    assert (is_object h' merged) as Hobj.
    { apply (props_lookup_is_object h' merged "updatedAt" (VRef d)).
      rewrite Hp. by apply lookup_union_Some_l. }
    apply findIndex_Some in Hf as (Hold & _).
    pose proof Hc as Hc'. unfold closed in Hc'.
    rewrite Forall_forall in Hc', Hst.
    assert (old ∈ Repository.items (TodoAppState.todoRepository s)) as Hin
      by (by eapply list_elem_of_lookup_2).
    eexists _, _, _. split; [reflexivity|]. split; [done|]. split; simpl.
    + unfold closed. simpl. apply Forall_insert; [|done].
      eapply Forall_impl; [exact Hc|]. intros l. by apply is_object_mono.
    + apply Forall_insert.
      * apply Forall_forall. intros l Hl.
        apply (stamps_within_mono bound now h); auto.
      * specialize (Hst old Hin). unfold stamps_within, field in Hst |- *.
        rewrite Hp. unfold prop in Hst |- *.
        rewrite (lookup_union_Some_l _ _ _ _ Hupd).
        rewrite (lookup_union_r _ _ _ Hcre).
        destruct (getTime h (default VUndef (props h old !! "createdAt")))
          as [created|] eqn:Hct; [|done].
        rewrite (getTime_mono _ _ _ _ Hsub Hct). simpl. rewrite Hd.
        destruct (getTime h (default VUndef (props h old !! "updatedAt")))
          as [updated|]; [lia|done].
  - rewrite (updateTodo_missing Date_parse now h s id updates Hf).
    eexists _, _, _. split; [reflexivity|]. split; [done|].
    split; [done|].
    unfold closed in Hc. rewrite Forall_forall in Hc, Hst |- *.
    intros l Hl. apply (stamps_within_mono bound now h); auto.
Qed.

Lemma deleteTodo_stamped (bound : Z) (h : heap) s id :
  stamped bound h s →
  ∃ s' res,
    TodoAppState.deleteTodo h s id = inr (s', res)
    ∧ stamped bound h s'.
Proof.
  intros [Hc Hst]. unfold TodoAppState.deleteTodo.
  destruct (Repository.delete h (TodoAppState.todoRepository s) id)
    as [r b] eqn:Hd.
  assert (r = (Repository.delete h (TodoAppState.todoRepository s) id).1)
    as Hr by (by rewrite Hd).
  assert (stamped bound h (TodoAppState.with_repository s r)) as Hs'.
  { unfold stamped, closed in *. simpl. rewrite Hr, delete_items.
    rewrite Forall_forall in Hc, Hst. split; apply Forall_forall;
      intros l [_ Hl]%list_elem_of_filter; auto. }
  destruct b; simpl; unthrow; eauto.
Qed.

(** A session whose clock never goes back runs to the end, only adds
    objects to the heap, and keeps every stored task stamped in order. *)
Lemma run_stamped (ops : list Session.op) : ∀ bound h s,
  Session.nondecreasing (bound :: Session.times ops) →
  stamped bound h s →
  ∃ h' s',
    Session.run Date_parse h s ops = inr (h', s')
    ∧ h ⊆ h'
    ∧ stamped (List.last (Session.times ops) bound) h' s'.
Proof.
  induction ops as [|o ops IH]; intros bound h s Hclock Hst.
  - exists h, s. done.
  - rewrite times_cons in Hclock |- *.
    destruct o as [now todo|now id updates|id];
      cbn [Session.run Session.perform Session.time_of] in *; unthrow.
    + assert (bound ≤ now ∧ Session.nondecreasing (now :: Session.times ops))
        as [Hle Hrest] by (by destruct Hclock).
      destruct (addTodo_stamped bound now h s todo Hle Hst)
        as (h1 & s1 & res & -> & Hsub1 & Hst1).
      destruct (IH now h1 s1 Hrest Hst1) as (h2 & s2 & Hrun & Hsub2 & Hst2).
      exists h2, s2. split; [done|]. split; [by etrans|].
      by rewrite last_cons_default.
    + assert (bound ≤ now ∧ Session.nondecreasing (now :: Session.times ops))
        as [Hle Hrest] by (by destruct Hclock).
      destruct (updateTodo_stamped bound now h s id updates Hle Hst)
        as (h1 & s1 & res & -> & Hsub1 & Hst1).
      destruct (IH now h1 s1 Hrest Hst1) as (h2 & s2 & Hrun & Hsub2 & Hst2).
      exists h2, s2. split; [done|]. split; [by etrans|].
      by rewrite last_cons_default.
    + destruct (deleteTodo_stamped bound h s id Hst) as (s1 & res & -> & Hst1).
      destruct (IH bound h s1 Hclock Hst1) as (h2 & s2 & Hrun & Hsub2 & Hst2).
      exists h2, s2. done.
Qed.

End Stamps.

Lemma nondecreasing_head (ts : list Z) :
  Session.nondecreasing ts → Session.nondecreasing (hd 0 ts :: ts).
Proof. destruct ts as [|t rest]; [done|]. simpl. intros H. split; [lia|done]. Qed.

Section Timestamps.

Context (Date_parse : string → option Z).


End Timestamps.


(** * Further properties of the code *)

(** ** Repository: query, and how the methods compose *)

Lemma query_props (h h' : heap) (r : Repository.t)
    (predicate : heap → loc → bool) (cs : list loc) :
  closed h r →
  Repository.query h r predicate = (h', cs) →
  map (props h') cs
  = map (props h)
      (filter (λ l, predicate h l = true) (Repository.items r)).
Proof.
  intros Hc Hq. unfold Repository.query in Hq.
  set (kept := filter (λ l, predicate h l = true) (Repository.items r)) in *.
  assert (closed h {| Repository.items := kept;
                      Repository.nextId := Repository.nextId r |}) as Hk.
  { unfold closed in *. simpl. rewrite Forall_forall in Hc |- *.
    intros l [_ Hl]%list_elem_of_filter. by apply Hc. }
  by apply (getAll_props h h' _ cs Hk).
Qed.

(** X1. [query(predicate)] returns new objects, one for each stored item
    that satisfies the predicate, in insertion order and with the item's
    properties; nothing that was in the heap changes. *)
Theorem query_view (h h' : heap) (r : Repository.t)
    (predicate : heap → loc → bool) (cs : list loc) :
  closed h r →
  Repository.query h r predicate = (h', cs) →
  map (props h') cs
  = map (props h)
      (filter (λ l, predicate h l = true) (Repository.items r))
  ∧ Forall (λ c, h !! c = None) cs
  ∧ h ⊆ h'.
Proof.
  intros Hc Hq. unfold Repository.query in Hq.
  set (kept := filter (λ l, predicate h l = true) (Repository.items r)) in *.
  assert (Forall (λ l, is_Some (h !! l)) kept) as Hkept.
  { apply closed_is_Some in Hc. rewrite Forall_forall in Hc |- *.
    intros l [_ Hl]%list_elem_of_filter. by apply Hc. }
  destruct (spread_all_spec kept h h' cs Hkept Hq) as (Hsub & Hcs & _).
  split; [|split; [|done]].
  - clear -Hcs. induction Hcs as [|l c ls cs' [_ Hl] _ IH]; [done|].
    simpl. rewrite IH. f_equal. unfold props at 1. by rewrite Hl.
  - clear -Hcs. induction Hcs as [|l c ls cs' [Hn _] _ IH]; constructor; done.
Qed.

(** The completed one of the two sample tasks. *)
Lemma query_view_witness :
  ∃ h' c,
    Repository.query Sample.hp Sample.repo
      (λ h l, bool_decide (field h l "status" = VStr "completed"))
    = (h', [c])
    ∧ map (props h') [c] = [Sample.todo 2 "Walk dog" "completed" 3 3].
Proof.
  destruct (Repository.query Sample.hp Sample.repo
              (λ h l, bool_decide (field h l "status" = VStr "completed")))
    as [h' cs] eqn:Hq.
  destruct (query_view Sample.hp h' Sample.repo
              (λ h l, bool_decide (field h l "status" = VStr "completed")) cs)
    as (Hv & _).
  - apply (bool_decide_unpack _). by vm_compute.
  - exact Hq.
  - assert (∃ c, cs = [c]) as [c ->].
    { vm_compute in Hq. injection Hq as _ <-. eauto. }
    exists h', c. split; [done|]. rewrite Hv. by vm_compute.
Defined.

Lemma todos_only (h h1 : heap) (s : TodoAppState.t) (st : TodoStatus)
    (view : list loc) :
  closed h (TodoAppState.todoRepository s) →
  TodoAppState.todos h (TodoAppState.set_filter s (only st)) = (h1, view) →
  map (props h1) view
  = filter (λ o, prop o "status" = VStr (status_string st))
      (map (props h) (Repository.items (TodoAppState.todoRepository s))).
Proof.
  intros Hc. unfold TodoAppState.todos. cbn [TodoAppState.set_filter
    TodoAppState.todoRepository TodoAppState._filter filter_string].
  destruct (Repository.getAll h (TodoAppState.todoRepository s))
    as [h' allTodos] eqn:Hg.
  rewrite bool_decide_eq_false_2 by apply status_is_not_all.
  intros [= <- <-]. rewrite <- (getAll_props _ _ _ _ Hc Hg).
  by apply (map_filter_comm (props h')
              (λ o, prop o "status" = VStr (status_string st))).
Qed.

(** X2. The filtered view of the application shows what a [query] with
    the same condition on the status shows, although the view copies every
    task first and filters the copies. *)
Theorem todos_as_query (h h1 h2 : heap) (s : TodoAppState.t)
    (st : TodoStatus) (view found : list loc) :
  closed h (TodoAppState.todoRepository s) →
  TodoAppState.todos h (TodoAppState.set_filter s (only st)) = (h1, view) →
  Repository.query h (TodoAppState.todoRepository s)
    (λ h l, bool_decide (field h l "status" = VStr (status_string st)))
  = (h2, found) →
  map (props h1) view = map (props h2) found.
Proof.
  intros Hc Ht Hq.
  pose proof (todos_only h h1 s st view Hc Ht) as Hv.
  pose proof (query_props h h2 _ _ found Hc Hq) as Hf.
  rewrite Hv, Hf.
  symmetry.
  apply (map_filter_comm (props h)
           (λ o, prop o "status" = VStr (status_string st))).
  intros l. by rewrite bool_decide_eq_true.
Qed.

(** Both ways of asking for the completed sample tasks agree. *)
Lemma todos_as_query_witness :
  ∃ h1 view h2 found,
    TodoAppState.todos Sample.hp
      (TodoAppState.set_filter Sample.app (only completed)) = (h1, view)
    ∧ Repository.query Sample.hp Sample.repo
        (λ h l, bool_decide (field h l "status" = VStr "completed"))
      = (h2, found)
    ∧ map (props h1) view = map (props h2) found.
Proof.
  destruct (TodoAppState.todos Sample.hp
              (TodoAppState.set_filter Sample.app (only completed)))
    as [h1 view] eqn:Ht.
  destruct (Repository.query Sample.hp Sample.repo
              (λ h l, bool_decide (field h l "status" = VStr "completed")))
    as [h2 found] eqn:Hq.
  exists h1, view, h2, found. split; [done|]. split; [done|].
  apply (todos_as_query Sample.hp h1 h2 Sample.app completed view found).
  - apply (bool_decide_unpack _). by vm_compute.
  - exact Ht.
  - exact Hq.
Defined.

Lemma findIndex_is_Some (h : heap) r id :
  Repository.exists_ h r id = true ↔
  is_Some (Repository.findIndex h r id).
Proof.
  rewrite exists_true. split.
  - intros (index & item & ->). eauto.
  - intros [[index item] Hf]. eauto.
Qed.

(** X3. [exists(id)] and [getById(id)] agree: the one is true exactly
    when the other returns an object, and that object is new and carries
    the id that was asked for; otherwise [getById] leaves the heap alone. *)
Theorem exists_iff_getById (h : heap) (r : Repository.t) (id : Z) :
  (Repository.exists_ h r id = true ↔
   is_Some (Repository.getById h r id).2)
  ∧ (∀ h' c, Repository.getById h r id = (h', Some c) →
       h !! c = None ∧ field h' c "id" = VNum id ∧ h ⊆ h')
  ∧ (Repository.exists_ h r id = false →
       Repository.getById h r id = (h, None)).
Proof.
  destruct (Repository.findIndex h r id) as [[index item]|] eqn:Hf.
  - destruct (getById_spec _ _ _ _ _ Hf) as (c & Hc & Hg).
    assert (Repository.exists_ h r id = true) as He
      by (apply findIndex_is_Some; rewrite Hf; eauto).
    rewrite Hg, He. split; [simpl; split; eauto|]. split; [|done].
    intros h' c' [= <- <-]. split; [done|]. split.
    + unfold field. rewrite props_insert_eq.
      by apply findIndex_Some in Hf as (_ & Hid & _).
    + by apply insert_subseteq.
  - assert (Repository.exists_ h r id = false) as He
      by (by apply exists_false).
    rewrite (getById_missing _ _ _ Hf), He. split.
    + simpl. split; [done|]. by intros [? ?].
    + split; [by intros h' c [= _ ?]|done].
Qed.

(** X4. After [delete(id)] the id is gone: [exists(id)] is false,
    [getById(id)] returns [undefined], and a second [delete(id)] returns
    false and leaves the store as it is.  Membership of every other id is
    as before. *)
Theorem delete_twice (h : heap) (r : Repository.t) (id : Z) :
  let r1 := (Repository.delete h r id).1 in
  Repository.exists_ h r1 id = false
  ∧ Repository.getById h r1 id = (h, None)
  ∧ Repository.delete h r1 id = (r1, false)
  ∧ ∀ other, other ≠ id →
      Repository.exists_ h r1 other = Repository.exists_ h r other.
Proof.
  intros r1.
  assert (Forall (λ l, field h l "id" ≠ VNum id) (Repository.items r1))
    as Hgone.
  { unfold r1. rewrite delete_items. apply Forall_forall.
    by intros l [? _]%list_elem_of_filter. }
  assert (Repository.findIndex h r1 id = None) as Hf
    by (by apply findIndex_None).
  split; [by apply exists_false|]. split; [by apply getById_missing|].
  split.
  - unfold Repository.delete. rewrite (filter_all _ _ Hgone).
    destruct r1 as [items1 next1]. simpl. f_equal.
    apply bool_decide_eq_false. lia.
  - intros other Hne. unfold Repository.exists_. apply bool_decide_ext.
    unfold r1. rewrite delete_items, !Exists_exists. split.
    + intros (l & [_ Hl]%list_elem_of_filter & Hid). eauto.
    + intros (l & Hl & Hid). exists l. split; [|done].
      apply list_elem_of_filter. split; [|done]. rewrite Hid. congruence.
Qed.

(** X5. In a store that satisfies the invariant, what [create] returns
    can be read back: the store has one item more, [exists] is true for
    the new id, and [getById] with the new id returns a further copy with
    the same properties, which are those of the argument with the new id.
    Membership of every other id is as before. *)
Theorem create_then_getById (h h1 : heap) (r r1 : Repository.t)
    (item : object) (c : loc) :
  store_inv h r →
  Repository.create h r item = (h1, r1, c) →
  Repository.count r1 = S (Repository.count r)
  ∧ Repository.exists_ h1 r1 (Repository.nextId r) = true
  ∧ props h1 c = <["id" := VNum (Repository.nextId r)]> item
  ∧ (∃ h2 c2,
       Repository.getById h1 r1 (Repository.nextId r) = (h2, Some c2)
       ∧ c2 ≠ c
       ∧ props h2 c2 = props h1 c
       ∧ props h2 c = props h1 c)
  ∧ ∀ other, other ≠ Repository.nextId r →
      Repository.exists_ h1 r1 other = Repository.exists_ h r other.
Proof.
  intros (Hc & Hu & Hb & Hpos) Hcr.
  destruct (create_ids _ _ _ _ _ _ Hc Hcr)
    as (Hsub & Hc1 & Hids & Hnext & Hcn & Hni & Hp).
  pose proof Hcr as (newItem & Hn & _ & Hne & Hh1 & Hr1)%create_spec.
  assert (field h1 newItem "id" = VNum (Repository.nextId r)) as Hnew.
  { rewrite Hh1. unfold field.
    rewrite props_insert_ne, props_insert_eq by done.
    unfold prop. by rewrite lookup_insert_eq. }
  assert (Forall (λ l, h1 !! l = h !! l) (Repository.items r)) as Hsame
    by (by apply closed_same).
  assert (Repository.findIndex h1 r1 (Repository.nextId r)
          = Some (length (Repository.items r), newItem)) as Hf.
  { apply findIndex_Some. rewrite Hr1. simpl. split; [|split; [done|]].
    - rewrite lookup_app_r by lia. by rewrite Nat.sub_diag.
    - intros j other Hj Hlt Hid. rewrite lookup_app_l in Hj by done.
      assert (field h other "id" = VNum (Repository.nextId r)) as Hid'.
      { rewrite <- Hid. unfold field. f_equal. symmetry. apply props_same.
        rewrite Forall_forall in Hsame.
        by eapply Hsame, list_elem_of_lookup_2. }
      unfold ids_below_next, ids in Hb. rewrite Forall_forall in Hb.
      assert (below (Repository.nextId r) (VNum (Repository.nextId r))) as Hbad.
      { apply Hb. rewrite <- Hid'. apply list_elem_of_fmap.
        exists other. split; [done|]. by eapply list_elem_of_lookup_2. }
      simpl in Hbad. lia. }
  split.
  { rewrite Hr1. unfold Repository.count. simpl. rewrite length_app. simpl.
    lia. }
  split; [apply findIndex_is_Some; rewrite Hf; eauto|].
  split; [done|]. split.
  - destruct (getById_spec _ _ _ _ _ Hf) as (c2 & Hc2 & ->).
    assert (c2 ≠ c) as Hcc.
    { intros ->. rewrite Hh1, lookup_insert_eq in Hc2. done. }
    eexists _, c2. split; [reflexivity|]. split; [done|]. split.
    + rewrite props_insert_eq, Hp. rewrite Hh1.
      by rewrite props_insert_ne, props_insert_eq.
    + by rewrite props_insert_ne.
  - intros other Hne'. unfold Repository.exists_. apply bool_decide_ext.
    rewrite Hr1. simpl. rewrite Exists_app, Exists_cons, Exists_nil.
    rewrite Hnew. split.
    + intros [Hex|[[= ?]|[]]]; [|done].
      apply Exists_exists in Hex as (l & Hl & Hid).
      apply Exists_exists. exists l. split; [done|].
      rewrite <- Hid. unfold field. f_equal. symmetry. apply props_same.
      rewrite Forall_forall in Hsame. by apply Hsame.
    + intros Hex. left.
      apply Exists_exists in Hex as (l & Hl & Hid).
      apply Exists_exists. exists l. split; [done|].
      rewrite <- Hid. unfold field. f_equal. apply props_same.
      rewrite Forall_forall in Hsame. by apply Hsame.
Qed.

(** A third task is created in the sample store and read back. *)
Lemma create_then_getById_witness :
  ∃ h1 r1 c h2 c2,
    Repository.create Sample.hp Sample.repo {[ "text" := VStr "c" ]}
    = (h1, r1, c)
    ∧ Repository.getById h1 r1 3 = (h2, Some c2)
    ∧ props h2 c2 = {[ "id" := VNum 3; "text" := VStr "c" ]}.
Proof.
  destruct (Repository.create Sample.hp Sample.repo {[ "text" := VStr "c" ]})
    as [[h1 r1] c] eqn:Hcr.
  destruct (create_then_getById Sample.hp h1 Sample.repo r1
              {[ "text" := VStr "c" ]} c)
    as (_ & _ & Hp & (h2 & c2 & Hg & _ & Hp2 & _) & _).
  - apply (bool_decide_unpack _). by vm_compute.
  - exact Hcr.
  - exists h1, r1, c, h2, c2. split; [done|]. split; [exact Hg|].
    rewrite Hp2, Hp. by vm_compute.
Defined.

(** X6. What a successful [update] returns can be read back: with a
    partial update that has no [id], [getById(id)] afterwards returns a
    further copy with the properties of the object that [update] returned,
    so with every property of the partial update. *)
Theorem update_then_getById (h h1 : heap) (r r1 : Repository.t) (id : Z)
    (updates : object) (c : loc) :
  closed h r →
  omits_id updates →
  Repository.update h r id updates = (h1, r1, Some c) →
  ∃ h2 c2,
    Repository.getById h1 r1 id = (h2, Some c2)
    ∧ c2 ≠ c
    ∧ props h2 c2 = props h1 c
    ∧ ∀ k v, updates !! k = Some v → props h2 c2 !! k = Some v.
Proof.
  intros Hc Hty Hup.
  destruct (Repository.findIndex h r id) as [[index old]|] eqn:Hf;
    [|by rewrite (update_missing _ _ _ _ Hf) in Hup].
  destruct (update_spec h r id updates index old Hf)
    as (merged & c' & Hm & Hcn & Hne & Hup').
  rewrite Hup' in Hup. injection Hup as <- <- <-.
  set (o := updates ∪ props h old) in *.
  set (h1 := <[c':=CObj o]> (<[merged:=CObj o]> h)).
  pose proof (two_fresh_subseteq h merged c' (CObj o) (CObj o) Hm Hcn Hne)
    as Hsub. fold h1 in Hsub.
  pose proof (closed_same h h1 r Hsub Hc) as Hsame.
  pose proof Hf as (Hold & Hid & Hfirst)%findIndex_Some.
  assert (Repository.findIndex h1
            {| Repository.items := <[index:=merged]> (Repository.items r);
               Repository.nextId := Repository.nextId r |} id
          = Some (index, merged)) as Hf1.
  { apply findIndex_Some. simpl. split; [|split].
    - apply list_lookup_insert_eq. by eapply lookup_lt_Some.
    - unfold field, h1. rewrite props_insert_ne, props_insert_eq by done.
      unfold o, prop. rewrite lookup_union_r by done. exact Hid.
    - intros j other Hj Hlt Hoid.
      rewrite list_lookup_insert_ne in Hj by lia.
      apply (Hfirst j other Hj Hlt). rewrite <- Hoid. unfold field. f_equal.
      symmetry. apply props_same. rewrite Forall_forall in Hsame.
      by eapply Hsame, list_elem_of_lookup_2. }
  destruct (getById_spec _ _ _ _ _ Hf1) as (c2 & Hc2 & ->).
  assert (c2 ≠ c') as Hcc.
  { intros ->. unfold h1 in Hc2. by rewrite lookup_insert_eq in Hc2. }
  assert (props h1 merged = o) as Hpm
    by (unfold h1; by rewrite props_insert_ne, props_insert_eq).
  assert (props h1 c' = o) as Hpc by (unfold h1; by rewrite props_insert_eq).
  eexists _, c2. split; [reflexivity|]. split; [done|].
  rewrite props_insert_eq, Hpm, Hpc. split; [done|].
  intros k v Hk. unfold o. by apply lookup_union_Some_l.
Qed.

(** The first sample task is completed and read back. *)
Lemma update_then_getById_witness :
  ∃ h1 r1 c h2 c2,
    Repository.update Sample.hp Sample.repo 1
      {[ "status" := VStr "completed" ]} = (h1, r1, Some c)
    ∧ Repository.getById h1 r1 1 = (h2, Some c2)
    ∧ field h2 c2 "status" = VStr "completed"
    ∧ field h2 c2 "text" = VStr "Buy milk".
Proof.
  destruct (Repository.update Sample.hp Sample.repo 1
              {[ "status" := VStr "completed" ]}) as [[h1 r1] res] eqn:Hup.
  assert (∃ c, res = Some c) as [c ->].
  { vm_compute in Hup. injection Hup as _ _ <-. eauto. }
  destruct (update_then_getById Sample.hp h1 Sample.repo r1 1
              {[ "status" := VStr "completed" ]} c)
    as (h2 & c2 & Hg & _ & Hp & Hset).
  - apply (bool_decide_unpack _). by vm_compute.
  - apply (bool_decide_unpack _). by vm_compute.
  - exact Hup.
  - exists h1, r1, c, h2, c2. split; [done|]. split; [exact Hg|].
    split.
    + unfold field, prop. by rewrite (Hset "status" (VStr "completed")).
    + unfold field. rewrite Hp. vm_compute in Hup.
      injection Hup as <- _ <-. by vm_compute.
Defined.

(** ** Result.combine *)

(** X7. [combine] never throws.  It returns the first failure of the
    list, the very result that was passed in; when there is no failure it
    returns a new success that carries no value, whatever values the given
    successes carry. *)
Theorem combine_returns_first_failure (results : list Result.t) :
  (∃ r, Result.combine results = inr r)
  ∧ (∀ before failure after,
       results = before ++ failure :: after →
       Forall (λ r, Result.isFailure r = false) before →
       Result.isFailure failure = true →
       Result.combine results = inr failure)
  ∧ (Forall (λ r, Result.isFailure r = false) results →
       Result.combine results
       = inr {| Result.isSuccess := true; Result.isFailure := false;
                Result.error := None; Result._value := VUndef |}).
Proof.
  assert (∀ before failure after,
            Forall (λ r, Result.isFailure r = false) before →
            Result.isFailure failure = true →
            List.find Result.isFailure (before ++ failure :: after)
            = Some failure) as Hfirst.
  { intros before failure after Hb Hf.
    induction Hb as [|r rs Hr _ IH]; simpl; [by rewrite Hf|].
    by rewrite Hr. }
  assert (Forall (λ r, Result.isFailure r = false) results →
          List.find Result.isFailure results = None) as Hnone.
  { induction 1 as [|r rs Hr _ IH]; simpl; [done|]. by rewrite Hr. }
  split; [|split].
  - unfold Result.combine.
    destruct (List.find Result.isFailure results); unthrow; eauto.
  - intros before failure after -> Hb Hf. unfold Result.combine.
    by rewrite Hfirst.
  - intros Hall. unfold Result.combine. by rewrite Hnone.
Qed.

(** ** escapeHtml *)

Lemma escapeHtml_cons (c : Ascii.ascii) (s : string) :
  escapeHtml (String c s) = entity c +:+ escapeHtml s.
Proof.
  unfold escapeHtml, entity.
  destruct (Ascii.eqb c "&") eqn:E1;
    [apply Ascii.eqb_eq in E1; subst; reflexivity|].
  destruct (Ascii.eqb c "<") eqn:E2;
    [apply Ascii.eqb_eq in E2; subst; reflexivity|].
  destruct (Ascii.eqb c ">") eqn:E3;
    [apply Ascii.eqb_eq in E3; subst; reflexivity|].
  destruct (Ascii.eqb c double_quote) eqn:E4;
    [apply Ascii.eqb_eq in E4; subst; reflexivity|].
  destruct (Ascii.eqb c "'") eqn:E5;
    [apply Ascii.eqb_eq in E5; subst; reflexivity|].
  cbn [replace_all]. rewrite E1. cbn [replace_all]. rewrite E2.
  cbn [replace_all]. rewrite E3. cbn [replace_all]. rewrite E4.
  cbn [replace_all]. rewrite E5. reflexivity.
Qed.

(** X8. The five replacements of [escapeHtml], one after the other,
    amount to replacing each character of the input once: [&] by [&amp;],
    [<] by [&lt;], [>] by [&gt;], the double quote by [&quot;], the
    apostrophe by [&#039;], and any other character by itself.  So the [&]
    of an entity that a later replacement writes is not escaped again. *)
Theorem escapeHtml_by_character (unsafe : string) :
  escapeHtml unsafe = entities unsafe.
Proof.
  induction unsafe as [|c s IH]; [done|].
  rewrite escapeHtml_cons. simpl. by rewrite IH.
Qed.

Lemma occurs_app (c : Ascii.ascii) (s1 s2 : string) :
  occurs c (s1 +:+ s2) = occurs c s1 || occurs c s2.
Proof.
  induction s1 as [|a s1 IH]; simpl; [done|]. by rewrite IH, orb_assoc.
Qed.

Lemma entity_cases (c : Ascii.ascii) :
  special c = true
  ∧ (c = "&"%char ∧ entity c = "&amp;"
     ∨ c = "<"%char ∧ entity c = "&lt;"
     ∨ c = ">"%char ∧ entity c = "&gt;"
     ∨ c = double_quote ∧ entity c = "&quot;"
     ∨ c = "'"%char ∧ entity c = "&#039;")
  ∨ special c = false ∧ entity c = String c EmptyString.
Proof.
  unfold special, entity.
  destruct (Ascii.eqb c "&") eqn:E1;
    [apply Ascii.eqb_eq in E1; subst; left; split; [done|]; by left|].
  destruct (Ascii.eqb c "<") eqn:E2;
    [apply Ascii.eqb_eq in E2; subst; left; split; [done|];
     right; by left|].
  destruct (Ascii.eqb c ">") eqn:E3;
    [apply Ascii.eqb_eq in E3; subst; left; split; [done|];
     do 2 right; by left|].
  destruct (Ascii.eqb c double_quote) eqn:E4;
    [apply Ascii.eqb_eq in E4; subst; left; split; [done|];
     do 3 right; by left|].
  destruct (Ascii.eqb c "'") eqn:E5;
    [apply Ascii.eqb_eq in E5; subst; left; split; [done|];
     do 4 right; done|].
  by right.
Qed.

(** X9. The text that [escapeHtml] returns has no [<], no [>], no double
    quote and no apostrophe, whatever the input. *)
Theorem escapeHtml_has_no_markup (unsafe : string) :
  occurs "<" (escapeHtml unsafe) = false
  ∧ occurs ">" (escapeHtml unsafe) = false
  ∧ occurs double_quote (escapeHtml unsafe) = false
  ∧ occurs "'" (escapeHtml unsafe) = false.
Proof.
  induction unsafe as [|c s (IH1 & IH2 & IH3 & IH4)]; [done|].
  rewrite escapeHtml_cons, !occurs_app, IH1, IH2, IH3, IH4, !orb_false_r.
  destruct (entity_cases c)
    as [[_ [[-> ->]|[[-> ->]|[[-> ->]|[[-> ->]|[-> ->]]]]]]|[Hs ->]];
    try done.
  unfold special in Hs. simpl. rewrite !orb_false_r.
  apply orb_false_iff in Hs as [Hs H5].
  apply orb_false_iff in Hs as [Hs H4].
  apply orb_false_iff in Hs as [Hs H3].
  apply orb_false_iff in Hs as [H1 H2].
  done.
Qed.

Lemma entity_head_inj (c1 c2 : Ascii.ascii) (x y : string) :
  entity c1 +:+ x = entity c2 +:+ y → c1 = c2 ∧ x = y.
Proof.
  destruct (entity_cases c1)
    as [[_ [[-> ->]|[[-> ->]|[[-> ->]|[[-> ->]|[-> ->]]]]]]|[Hs1 ->]];
  destruct (entity_cases c2)
    as [[_ [[-> ->]|[[-> ->]|[[-> ->]|[[-> ->]|[-> ->]]]]]]|[Hs2 ->]];
    simpl; intros H; by simplify_eq.
Qed.

(** X10. [escapeHtml] loses nothing: two texts with the same escaped form
    are the same text. *)
Theorem escapeHtml_injective (s1 s2 : string) :
  escapeHtml s1 = escapeHtml s2 → s1 = s2.
Proof.
  revert s2.
  induction s1 as [|c1 s1 IH]; intros [|c2 s2];
    rewrite ?escapeHtml_cons; change (escapeHtml EmptyString) with EmptyString;
    try done.
  - destruct (entity_cases c2)
      as [[_ [[-> ->]|[[-> ->]|[[-> ->]|[[-> ->]|[-> ->]]]]]]|[_ ->]]; done.
  - destruct (entity_cases c1)
      as [[_ [[-> ->]|[[-> ->]|[[-> ->]|[[-> ->]|[-> ->]]]]]]|[_ ->]]; done.
  - intros [-> Hrest]%entity_head_inj. f_equal. by apply IH.
Qed.

(** A text and its escaped form. *)
Lemma escapeHtml_injective_witness :
  escapeHtml "<b>Tom & Jerry</b>" = "&lt;b&gt;Tom &amp; Jerry&lt;/b&gt;"
  ∧ ∀ s, escapeHtml s = "&lt;b&gt;Tom &amp; Jerry&lt;/b&gt;" →
         s = "<b>Tom & Jerry</b>".
Proof.
  split; [reflexivity|]. intros s Hs.
  by apply (escapeHtml_injective s "<b>Tom & Jerry</b>").
Defined.

(** ** formatTimeAgo *)

Lemma first_interval_below (seconds : Z) (entries : list (string * Z)) :
  Forall (λ e, seconds < e.2) entries →
  Forall (λ e, 0 < e.2) entries →
  first_interval seconds entries = "just now".
Proof.
  induction entries as [|[unit size] rest IH]; [done|].
  intros [Hlt Hrest]%Forall_cons [Hpos Hposr]%Forall_cons. simpl in *.
  rewrite bool_decide_eq_false_2; [by apply IH|].
  assert (seconds / size < 1)
    by (apply Z.div_lt_upper_bound; lia). lia.
Qed.

(** The loop stops at the first entry that fits into [seconds]. *)
Lemma first_interval_pick (seconds : Z) (entries : list (string * Z)) :
  Forall (λ e, 0 < e.2) entries →
  Exists (λ e, e.2 ≤ seconds) entries →
  ∃ (i : nat) (unit : string) (size : Z),
    entries !! i = Some (unit, size)
    ∧ size ≤ seconds
    ∧ (∀ j e, entries !! j = Some e → (j < i)%nat → seconds < e.2)
    ∧ first_interval seconds entries = ago (seconds / size) unit
    ∧ 1 ≤ seconds / size.
Proof.
  induction entries as [|[unit size] rest IH]; [by intros _ ?%Exists_nil|].
  intros [Hpos Hposr]%Forall_cons Hex. simpl in Hpos.
  destruct (decide (size ≤ seconds)) as [Hle|Hgt].
  - assert (1 ≤ seconds / size) by (apply Z.div_le_lower_bound; lia).
    exists 0%nat, unit, size. split; [done|]. split; [done|].
    split; [intros j e _ Hj; lia|]. simpl.
    by rewrite bool_decide_eq_true_2.
  - apply Exists_cons in Hex as [Hex|Hex]; [simpl in Hex; lia|].
    destruct (IH Hposr Hex) as (i & u & sz & Hi & Hle & Hbefore & Hpick & Hn).
    exists (S i), u, sz. split; [done|]. split; [done|]. split.
    + intros [|j] e Hj Hlt; simpl in Hj.
      * injection Hj as <-. simpl. lia.
      * apply (Hbefore j e Hj). lia.
    + split; [|done]. simpl. rewrite bool_decide_eq_false_2; [done|].
      assert (seconds / size < 1) by (apply Z.div_lt_upper_bound; lia).
      lia.
Qed.

Lemma intervals_positive : Forall (λ e, 0 < e.2) intervals.
Proof. repeat constructor. Qed.

Section TimeAgo.

Context (Date_parse : string → option Z).


(** X12. For a valid time at least a second before now, [formatTimeAgo]
    counts in the largest of the units year (365 days), month (30 days),
    week, day, hour, minute and second that fits into the elapsed whole
    seconds: the unit fits, every larger unit does not, and the count is
    the whole number of units, at least 1. *)
Theorem formatTimeAgo_largest_unit (now : Z) (h : heap) (date : value)
    (time : Z) :
  time_value Date_parse h date = Some time →
  1000 ≤ now - time →
  let seconds := (now - time) / 1000 in
  ∃ (i : nat) (unit : string) (size : Z),
    intervals !! i = Some (unit, size)
    ∧ size ≤ seconds
    ∧ (∀ j e, intervals !! j = Some e → (j < i)%nat → seconds < e.2)
    ∧ formatTimeAgo Date_parse now h date = ago (seconds / size) unit
    ∧ 1 ≤ seconds / size.
Proof.
  intros Ht Hge seconds. unfold formatTimeAgo. rewrite Ht. fold seconds.
  apply first_interval_pick; [apply intervals_positive|].
  assert (1 ≤ seconds) by (apply Z.div_le_lower_bound; lia).
  unfold intervals. rewrite !Exists_cons. do 6 right. left. simpl. lia.
Qed.

End TimeAgo.


(** 7250 seconds are 2 hours; 364 days are 12 months of 30 days. *)
Lemma formatTimeAgo_largest_unit_witness :
  formatTimeAgo (λ _, None) 7250000 {[ 1%positive := CDate (Some 0) ]}
    (VRef 1) = "2 hours ago"
  ∧ formatTimeAgo (λ _, None) 31449600000
      {[ 1%positive := CDate (Some 0) ]} (VRef 1) = "12 months ago".
Proof.
  split.
  - destruct (formatTimeAgo_largest_unit (λ _, None) 7250000
                {[ 1%positive := CDate (Some 0) ]} (VRef 1) 0)
      as (i & unit & size & Hi & Hle & Hbefore & -> & _);
      [by vm_compute|lia|].
    change ((7250000 - 0) / 1000) with 7250 in *.
    destruct i as [|[|[|[|[|[|[|i]]]]]]]; vm_compute in Hi; simplify_eq;
      try (by vm_compute in Hle);
      try (specialize (Hbefore 4%nat ("hour", 3600) eq_refl ltac:(lia));
           by vm_compute in Hbefore).
  - destruct (formatTimeAgo_largest_unit (λ _, None) 31449600000
                {[ 1%positive := CDate (Some 0) ]} (VRef 1) 0)
      as (i & unit & size & Hi & Hle & Hbefore & -> & _);
      [by vm_compute|lia|].
    change ((31449600000 - 0) / 1000) with 31449600 in *.
    destruct i as [|[|[|[|[|[|[|i]]]]]]]; vm_compute in Hi; simplify_eq;
      try (by vm_compute in Hle);
      try (specialize (Hbefore 1%nat ("month", 2592000) eq_refl ltac:(lia));
           by vm_compute in Hbefore).
Defined.

(** ** ApiHandler *)



(** ** The response formatters *)

Section Formatting.

Context (toISOString : Z → string).

Lemma formatTodoResponse_ok (h : heap) (todo : object) (dueDate : value) :
  prop todo "dueDate" = VUndef ∧ dueDate = VNull
  ∨ (∃ d t, prop todo "dueDate" = VRef d
            ∧ h !! d = Some (CDate (Some t))
            ∧ dueDate = VStr (toISOString t)) →
  ∃ l, h !! l = None
       ∧ Formatters.formatTodoResponse toISOString h todo
         = inr (<[l := CObj (<["dueDate" := dueDate]> todo)]> h, l).
Proof.
  intros Hdue. unfold Formatters.formatTodoResponse.
  assert ((if truthy (prop todo "dueDate")
           then iso ← Formatters.Date_toISOString toISOString h
                        (prop todo "dueDate"); mret (VStr iso)
           else mret VNull) = inr dueDate) as ->.
  { destruct Hdue as [[-> ->]|(d & t & -> & Hd & ->)]; [done|].
    simpl. rewrite Hd. done. }
  unthrow. destruct (alloc h _) as [h' l] eqn:Ha.
  apply alloc_spec in Ha as [Hl ->]. eauto.
Qed.

(** X14. [formatTodoResponse] on a task without due date, or with a valid
    one, returns a new object with every other property of the task as it
    is, and with [dueDate] [null], or the text of the date. *)
Theorem formatTodoResponse_projects (h : heap) (todo : object)
    (dueDate : value) :
  prop todo "dueDate" = VUndef ∧ dueDate = VNull
  ∨ (∃ d t, prop todo "dueDate" = VRef d
            ∧ h !! d = Some (CDate (Some t))
            ∧ dueDate = VStr (toISOString t)) →
  ∃ h' l,
    Formatters.formatTodoResponse toISOString h todo = inr (h', l)
    ∧ h !! l = None
    ∧ h ⊆ h'
    ∧ field h' l "dueDate" = dueDate
    ∧ ∀ k, k ≠ "dueDate" → props h' l !! k = todo !! k.
Proof.
  intros (l & Hl & ->)%formatTodoResponse_ok.
  eexists _, l. split; [reflexivity|]. split; [done|].
  split; [by apply insert_subseteq|].
  unfold field. rewrite props_insert_eq. split.
  - unfold prop. by rewrite lookup_insert_eq.
  - intros k Hk. by rewrite lookup_insert_ne.
Qed.

End Formatting.

(** The second sample task has no due date; a third task has one. *)
Lemma formatTodoResponse_projects_witness :
  ∃ h' l,
    Formatters.formatTodoResponse (λ _, "2030-01-01T00:00:00.000Z")
      Sample.hp (<["dueDate" := VRef 1]> (Sample.todo 3 "Pay rent" "pending" 1 1))
    = inr (h', l)
    ∧ field h' l "dueDate" = VStr "2030-01-01T00:00:00.000Z"
    ∧ field h' l "text" = VStr "Pay rent".
Proof.
  destruct (formatTodoResponse_projects (λ _, "2030-01-01T00:00:00.000Z")
              Sample.hp
              (<["dueDate" := VRef 1]> (Sample.todo 3 "Pay rent" "pending" 1 1))
              (VStr "2030-01-01T00:00:00.000Z"))
    as (h' & l & Hf & _ & _ & Hdue & Hother).
  - right. exists 1%positive, 100. by vm_compute.
  - exists h', l. split; [done|]. split; [done|].
    unfold field, prop. by rewrite Hother.
Defined.

Section FormattingUpdates.

Context (Date_parse : string → option Z) (toISOString : Z → string).

(** X15. A non-empty due-date string that does not parse is accepted by
    [updateTodo]: the update succeeds and the task gets an invalid date as
    due date.  [formatTodoResponse] on the task that [updateTodo] returned
    then throws. *)
Theorem unparsed_dueDate_breaks_format (now : Z) (h : heap)
    (s : TodoAppState.t) (id : Z) (updates : object) (index : nat)
    (old : loc) (str : string) :
  closed h (TodoAppState.todoRepository s) →
  Repository.findIndex h (TodoAppState.todoRepository s) id
  = Some (index, old) →
  updates !! "dueDate" = Some (VStr str) →
  str ≠ EmptyString →
  Date_parse str = None →
  ∃ h' s' res c,
    TodoAppState.updateTodo Date_parse now h s id updates
    = inr (h', s', res)
    ∧ Result.getValue res = inr (VRef c)
    ∧ instanceof_Date h' (field h' c "dueDate") = true
    ∧ getTime h' (field h' c "dueDate") = None
    ∧ Formatters.formatTodoResponse toISOString h' (props h' c)
      = inl (Error "RangeError: Invalid time value").
Proof.
  intros Hc Hf Hu Hstr Hparse.
  destruct (updateTodo_stored Date_parse now h s id updates index old Hc Hf)
    as (h' & merged & c & d & updateData & Hrun & Hsub & _ & _ & _ & _ & _
        & _ & Hp & _ & _ & _ & Hdue).
  rewrite Hu in Hdue.
  destruct Hdue as (h2 & h3 & c0 & v' & Hsub2 & Hsub3 & Hdu & Hv').
  destruct (dueDate_update_string Date_parse h2 c0 str Hstr)
    as (nd & Hnd & Hdu').
  rewrite Hdu' in Hdu. injection Hdu as Hh3 <-.
  assert (h' !! nd = Some (CDate None)) as Hl.
  { eapply lookup_weaken; [|exact Hsub3].
    rewrite <- Hh3, <- Hparse. apply lookup_insert_eq. }
  assert (prop (props h' c) "dueDate" = VRef nd) as Hdd.
  { unfold prop. rewrite Hp. by rewrite (lookup_union_Some_l _ _ _ _ Hv'). }
  eexists h', _, _, c. split; [exact Hrun|]. split; [done|].
  unfold field. rewrite Hdd. simpl. rewrite Hl.
  split; [done|]. split; [done|].
  unfold Formatters.formatTodoResponse. rewrite Hdd. simpl. by rewrite Hl.
Qed.

End FormattingUpdates.

(** The first sample task gets the due date ["soon"], which no parser
    reads. *)
Lemma unparsed_dueDate_breaks_format_witness :
  ∃ h' s' res c,
    TodoAppState.updateTodo (λ _, None) 300 Sample.hp Sample.app 1
      {[ "dueDate" := VStr "soon" ]} = inr (h', s', res)
    ∧ Result.getValue res = inr (VRef c)
    ∧ Formatters.formatTodoResponse (λ _, "never") h' (props h' c)
      = inl (Error "RangeError: Invalid time value").
Proof.
  destruct (unparsed_dueDate_breaks_format (λ _, None) (λ _, "never") 300
              Sample.hp Sample.app 1 {[ "dueDate" := VStr "soon" ]}
              0 2%positive "soon")
    as (h' & s' & res & c & Hup & Hv & _ & _ & Hfmt).
  - apply (bool_decide_unpack _). by vm_compute.
  - by vm_compute.
  - by vm_compute.
  - done.
  - done.
  - by exists h', s', res, c.
Defined.

Section FormattingLists.

Context (toISOString : Z → string).

(** X16. [formatTodoListResponse] formats the tasks in order, one new
    object for each, when every task has no due date or a valid one; a
    single task with an invalid due date makes the whole call throw. *)
Theorem formatTodoListResponse_all_or_nothing (todos : list object)
    (h : heap) :
  (Forall (λ todo, prop todo "dueDate" = VUndef
                   ∨ ∃ d t, prop todo "dueDate" = VRef d
                            ∧ h !! d = Some (CDate (Some t))) todos →
   ∃ h' ls,
     Formatters.formatTodoListResponse toISOString h todos = inr (h', ls)
     ∧ h ⊆ h'
     ∧ Forall2 (λ l todo, h !! l = None
                          ∧ ∀ k, k ≠ "dueDate" → props h' l !! k = todo !! k)
         ls todos)
  ∧ (Exists (λ todo, ∃ d, prop todo "dueDate" = VRef d
                          ∧ h !! d = Some (CDate None)) todos →
     ∃ e, Formatters.formatTodoListResponse toISOString h todos = inl e).
Proof.
  revert h. induction todos as [|todo rest IH]; intros h.
  { split; [|by intros ?%Exists_nil]. intros _. exists h, []. by repeat split. }
  split.
  - intros [Hhead Hrest]%Forall_cons. cbn [Formatters.formatTodoListResponse].
    destruct (formatTodoResponse_ok toISOString h todo
                (match prop todo "dueDate" with
                 | VRef d => match h !! d with
                             | Some (CDate (Some t)) => VStr (toISOString t)
                             | _ => VNull
                             end
                 | _ => VNull
                 end))
      as (l & Hl & ->).
    { destruct Hhead as [->|(d & t & -> & Hd)]; [by left|].
      right. exists d, t. by rewrite Hd. }
    set (dueDate := match prop todo "dueDate" with VRef _ => _ | _ => _ end).
    set (h1 := <[l:=CObj (<["dueDate":=dueDate]> todo)]> h).
    assert (h ⊆ h1) as Hsub1 by (by apply insert_subseteq).
    destruct (IH h1) as [IHok _].
    destruct IHok as (h2 & ls & Hrun & Hsub2 & Hall).
    { eapply Forall_impl; [exact Hrest|].
      intros x [->|(d & t & -> & Hd)]; [by left|]. right.
      exists d, t. split; [done|]. by eapply lookup_weaken. }
    unthrow. rewrite Hrun. exists h2, (l :: ls). split; [done|].
    split; [by etrans|]. constructor.
    + split; [done|]. intros k Hk.
      rewrite (props_mono h1 h2) by (done || (unfold h1;
        rewrite lookup_insert_eq; eauto)).
      unfold h1. rewrite props_insert_eq. by rewrite lookup_insert_ne.
    + eapply Forall2_impl; [exact Hall|]. intros l' x [Hl' Hx].
      split; [|done]. by apply (lookup_weaken_None _ _ _ Hl').
  - intros [Hhead|Hrest]%Exists_cons; cbn [Formatters.formatTodoListResponse].
    + destruct Hhead as (d & Hdd & Hd).
      unfold Formatters.formatTodoResponse. rewrite Hdd. simpl. rewrite Hd.
      unthrow. eauto.
    + destruct (Formatters.formatTodoResponse toISOString h todo)
        as [e|[h1 l]] eqn:Hf; unthrow; [eauto|].
      assert (h ⊆ h1) as Hsub.
      { unfold Formatters.formatTodoResponse in Hf.
        destruct (if truthy (prop todo "dueDate") then _ else _)
          as [e|v]; unthrow; [done|].
        destruct (alloc h _) as [h0 l0] eqn:Ha. simplify_eq.
        apply alloc_spec in Ha as [? ->]. by apply insert_subseteq. }
      destruct (IH h1) as [_ IHfail]. destruct IHfail as [e ->]; [|eauto].
      eapply Exists_impl; [exact Hrest|].
      intros x (d & Hdd & Hd). exists d. split; [done|].
      by eapply lookup_weaken.
Qed.

End FormattingLists.

(** ** Identities in a session of the application *)

Section SessionIdentities.

Context (Date_parse : string → option Z).

Lemma addTodo_counted (n : nat) (now : Z) (h : heap) s todo :
  counted n h s →
  ∃ h' s' res,
    TodoAppState.addTodo now h s todo = inr (h', s', res)
    ∧ h ⊆ h' ∧ counted (S n) h' s'.
Proof.
  intros [Hinv Hn]. unfold TodoAppState.addTodo.
  destruct (alloc h (CDate (Some now))) as [h1 d] eqn:Ha.
  apply alloc_spec in Ha as [Hd ->].
  set (h1 := <[d:=CDate (Some now)]> h).
  assert (h ⊆ h1) as Hsub1 by (by apply insert_subseteq).
  assert (store_inv h1 (TodoAppState.todoRepository s)) as Hinv1.
  { apply (store_inv_frame h); [|done]. apply closed_same; [done|].
    by destruct Hinv. }
  destruct (Repository.create h1 (TodoAppState.todoRepository s) _)
    as [[h2 r'] c] eqn:Hcr.
  pose proof (create_inv _ _ _ _ _ _ Hinv1 Hcr) as Hinv2.
  destruct (create_ids _ _ _ _ _ _ (proj1 Hinv1) Hcr)
    as (Hsub2 & _ & _ & Hnext & _).
  simpl. unthrow. eexists _, _, _. split; [reflexivity|].
  split; [by etrans|]. split; [done|]. simpl. lia.
Qed.

(** [updateTodo] keeps the identities and [nextId], whatever the keys of
    [updates]: [updateData] never has the key [id]. *)
Lemma updateTodo_ids (now : Z) (h : heap) s id updates :
  closed h (TodoAppState.todoRepository s) →
  ∃ h' s' res,
    TodoAppState.updateTodo Date_parse now h s id updates
    = inr (h', s', res)
    ∧ h ⊆ h'
    ∧ closed h' (TodoAppState.todoRepository s')
    ∧ ids h' (TodoAppState.todoRepository s')
      = ids h (TodoAppState.todoRepository s)
    ∧ Repository.nextId (TodoAppState.todoRepository s')
      = Repository.nextId (TodoAppState.todoRepository s).
Proof.
  intros Hc.
  destruct (Repository.findIndex h (TodoAppState.todoRepository s) id)
    as [[index old]|] eqn:Hf.
  - destruct (updateTodo_stored Date_parse now h s id updates index old
                Hc Hf)
      as (h' & merged & c & d & updateData & -> & Hsub & Hm & _ & _ & _
          & Hd & Hp & _ & Hupd & _ & Hother & _).
    assert (updateData !! "id" = None) as Hid
      by (apply Hother; compute_done).
    assert (is_object h' merged) as Hobj.
    { apply (props_lookup_is_object h' merged "updatedAt" (VRef d)).
      rewrite Hp. by apply lookup_union_Some_l. }
    apply findIndex_Some in Hf as (Hold & _).
    eexists _, _, _. split; [reflexivity|]. split; [done|]. simpl.
    split; [|split; [|done]].
    + unfold closed. simpl. apply Forall_insert; [|done].
      eapply Forall_impl; [exact Hc|]. intros l. by apply is_object_mono.
    + unfold ids. simpl.
      change (map ?f ?l) with (f <$> l).
      rewrite list_fmap_insert.
      assert (field h' merged "id" = field h old "id") as ->.
      { unfold field. rewrite Hp. unfold prop.
        by rewrite (lookup_union_r _ _ _ Hid). }
      assert ((λ l, field h' l "id")
                <$> Repository.items (TodoAppState.todoRepository s)
              = (λ l, field h l "id")
                <$> Repository.items (TodoAppState.todoRepository s)) as ->.
      { apply list_fmap_ext. intros i l Hl.
        apply field_mono; [done|]. apply is_object_is_Some.
        unfold closed in Hc. rewrite Forall_forall in Hc. apply Hc.
        by eapply list_elem_of_lookup_2. }
      apply list_insert_id. by rewrite list_lookup_fmap, Hold.
  - rewrite (updateTodo_missing Date_parse now h s id updates Hf).
    eexists _, _, _. split; [reflexivity|]. done.
Qed.

Lemma updateTodo_counted (n : nat) (now : Z) (h : heap) s id updates :
  counted n h s →
  ∃ h' s' res,
    TodoAppState.updateTodo Date_parse now h s id updates
    = inr (h', s', res)
    ∧ h ⊆ h' ∧ counted n h' s'.
Proof.
  intros [(Hc & Hu & Hb & Hpos) Hn].
  destruct (updateTodo_ids now h s id updates Hc)
    as (h' & s' & res & Hrun & Hsub & Hc' & Hids & Hnext).
  exists h', s', res. split; [done|]. split; [done|].
  unfold counted, store_inv, unique_ids, ids_below_next.
  rewrite Hids, Hnext. done.
Qed.

Lemma deleteTodo_counted (n : nat) (h : heap) s id :
  counted n h s →
  ∃ s' res,
    TodoAppState.deleteTodo h s id = inr (s', res) ∧ counted n h s'.
Proof.
  intros [Hinv Hn]. unfold TodoAppState.deleteTodo.
  pose proof (delete_inv h _ id Hinv) as Hinv'.
  destruct (Repository.delete h (TodoAppState.todoRepository s) id)
    as [r b] eqn:Hd.
  assert (Repository.nextId r
          = Repository.nextId (TodoAppState.todoRepository s)) as Hnext
    by (by injection Hd as <- _).
  assert (counted n h (TodoAppState.with_repository s r)) as Hs'
    by (split; simpl in *; [done|by rewrite Hnext]).
  destruct b; simpl; unthrow; eauto.
Qed.

Lemma run_counted (ops : list Session.op) : ∀ n h s,
  counted n h s →
  ∃ h' s',
    Session.run Date_parse h s ops = inr (h', s')
    ∧ h ⊆ h' ∧ counted (n + additions ops) h' s'.
Proof.
  induction ops as [|o ops IH]; intros n h s Hinv.
  - exists h, s. simpl. by rewrite Nat.add_0_r.
  - destruct o as [now todo|now id updates|id];
      cbn [Session.run Session.perform additions]; unthrow.
    + destruct (addTodo_counted n now h s todo Hinv)
        as (h1 & s1 & res & -> & Hsub1 & Hinv1).
      destruct (IH _ h1 s1 Hinv1) as (h2 & s2 & Hrun & Hsub2 & Hinv2).
      exists h2, s2. split; [done|]. split; [by etrans|].
      by rewrite Nat.add_succ_r.
    + destruct (updateTodo_counted n now h s id updates Hinv)
        as (h1 & s1 & res & -> & Hsub1 & Hinv1).
      destruct (IH _ h1 s1 Hinv1) as (h2 & s2 & Hrun & Hsub2 & Hinv2).
      exists h2, s2. split; [done|]. split; [by etrans|done].
    + destruct (deleteTodo_counted n h s id Hinv) as (s1 & res & -> & Hinv1).
      destruct (IH _ h s1 Hinv1) as (h2 & s2 & Hrun & Hsub2 & Hinv2).
      exists h2, s2. done.
Qed.

(** X17. Every session of [addTodo], [updateTodo] and [deleteTodo] on a
    new [TodoAppState] runs to its end without throwing, whatever the
    arguments are (also updates or tasks that carry an [id] key, which the
    types forbid but JavaScript allows).  At the end the stored tasks are
    objects with distinct identities, each identity is a number between 1
    and the number of [addTodo] calls made, and the next identity is that
    number plus one, so deleting never frees an identity for reuse. *)
Theorem session_identities (ops : list Session.op) (h : heap) :
  ∃ h' s,
    Session.session Date_parse h ops = inr (h', s)
    ∧ h ⊆ h'
    ∧ closed h' (TodoAppState.todoRepository s)
    ∧ NoDup (ids h' (TodoAppState.todoRepository s))
    ∧ Forall (λ v, ∃ n, v = VNum n ∧ 1 ≤ n ≤ Z.of_nat (additions ops))
        (ids h' (TodoAppState.todoRepository s))
    ∧ Repository.nextId (TodoAppState.todoRepository s)
      = 1 + Z.of_nat (additions ops).
Proof.
  unfold Session.session, TodoAppState.constructor, Repository.constructor.
  cbn [Repository.load]. unthrow. cbn [length]. 
  rewrite bool_decide_eq_false_2 by (simpl; lia).
  set (s0 := {| TodoAppState.todoRepository := _ |}).
  assert (counted 0 h s0) as Hinv.
  { repeat split; simpl; try constructor; lia. }
  destruct (run_counted ops 0 h s0 Hinv)
    as (h' & s & Hrun & Hsub & (Hc & Hu & Hb & _) & Hn).
  exists h', s. split; [done|]. split; [done|]. split; [done|].
  split; [done|]. split; [|done].
  eapply Forall_impl; [exact Hb|]. intros v Hv. rewrite Hn in Hv.
  destruct v as [| | |n| |]; simpl in Hv; try done.
  exists n. split; [done|]. simpl in *. lia.
Qed.

End SessionIdentities.

(** ** The type guard on the stored tasks *)

Lemma isValidTodo_spec (h : heap) (l : loc) :
  isValidTodo h (VRef l) = true ↔
  is_number (field h l "id") = true
  ∧ is_string (field h l "text") = true
  ∧ isTodoStatus (field h l "status") = true
  ∧ instanceof_Date h (field h l "createdAt") = true
  ∧ instanceof_Date h (field h l "updatedAt") = true
  ∧ (field h l "dueDate" = VUndef
     ∨ instanceof_Date h (field h l "dueDate") = true)
  ∧ isTodoPriority (field h l "priority") = true.
Proof.
  unfold isValidTodo.
  rewrite !andb_true_iff, orb_true_iff, bool_decide_eq_true. tauto.
Qed.

Lemma instanceof_Date_mono (h h' : heap) (v : value) :
  h ⊆ h' → instanceof_Date h v = true → instanceof_Date h' v = true.
Proof.
  intros Hsub. destruct v as [| | | | |l]; try done. simpl.
  destruct (h !! l) as [[o|t]|] eqn:Hl; try done.
  by rewrite (lookup_weaken _ _ _ _ Hl Hsub).
Qed.

Lemma valid_is_object (h : heap) (l : loc) :
  isValidTodo h (VRef l) = true → is_object h l.
Proof.
  intros (Hid & _)%isValidTodo_spec. unfold field, prop in Hid.
  destruct (props h l !! "id") as [v|] eqn:Hv; [|done].
  by eapply props_lookup_is_object.
Qed.

Lemma isValidTodo_mono (h h' : heap) (l : loc) :
  h ⊆ h' → isValidTodo h (VRef l) = true → isValidTodo h' (VRef l) = true.
Proof.
  intros Hsub Hv.
  pose proof (is_object_is_Some _ _ (valid_is_object _ _ Hv)) as Hl.
  apply isValidTodo_spec in Hv as (H1 & H2 & H3 & H4 & H5 & H6 & H7).
  apply isValidTodo_spec. rewrite !(field_mono h h') by done.
  repeat split; try done; try (by eapply instanceof_Date_mono).
  destruct H6 as [H6|H6]; [by left|right]. by eapply instanceof_Date_mono.
Qed.

Lemma all_valid_closed (h : heap) (s : TodoAppState.t) :
  all_valid h s → closed h (TodoAppState.todoRepository s).
Proof.
  unfold all_valid, closed. intros Hv.
  eapply Forall_impl; [exact Hv|]. intros l. apply valid_is_object.
Qed.

Lemma all_valid_mono (h h' : heap) (s : TodoAppState.t) :
  h ⊆ h' → all_valid h s → all_valid h' s.
Proof.
  intros Hsub Hv. unfold all_valid.
  eapply Forall_impl; [exact Hv|]. intros l. by apply isValidTodo_mono.
Qed.

Lemma typed_op_mono (h h' : heap) (o : Session.op) :
  h ⊆ h' → typed_op h o = true → typed_op h' o = true.
Proof.
  intros Hsub. destruct o as [now todo|now id updates|id]; simpl; [| |done].
  - unfold typed_todo. rewrite !andb_true_iff, !orb_true_iff.
    intros (((H1 & H2) & H3) & [H4|H4]); repeat split; try done;
      [by left|right; by eapply instanceof_Date_mono].
  - unfold typed_updates. rewrite !andb_true_iff, !orb_true_iff.
    intros (((H1 & H2) & H3) & [[[H4|H4]|H4]|H4]); repeat split; try done;
      [by left; left; left|by left; left; right|by left; right|].
    right. by eapply instanceof_Date_mono.
Qed.

Section SessionValidity.

Context (Date_parse : string → option Z).

(** The value that the [dueDate] part of [updateTodo] works out is
    [undefined], a date, or the due date of the task read by [getById]. *)
Lemma dueDate_update_value (h h' : heap) (todo : loc) (v v' : value) :
  TodoAppState.dueDate_update Date_parse h todo v = (h', v') →
  v' = VUndef ∨ instanceof_Date h' v' = true
  ∨ v' = field h todo "dueDate".
Proof.
  unfold TodoAppState.dueDate_update, TodoAppState.new_Date.
  case_bool_decide; [intros [= <- <-]; by left|].
  destruct (instanceof_Date h v) eqn:Hi; [intros [= <- <-]; by right; left|].
  destruct (truthy v); [|intros [= <- <-]; by right; right].
  destruct (alloc h _) as [h1 d] eqn:Ha. intros [= <- <-].
  apply alloc_spec in Ha as [_ ->]. right; left. simpl.
  by rewrite lookup_insert_eq.
Qed.

Lemma addTodo_valid (now : Z) (h : heap) s todo :
  typed_todo h todo = true → all_valid h s →
  ∃ h' s' res,
    TodoAppState.addTodo now h s todo = inr (h', s', res)
    ∧ h ⊆ h' ∧ all_valid h' s'.
Proof.
  intros Ht Hv.
  destruct (addTodo_spec now h s todo)
    as (d & newItem & c & Hd & Hn & Hcn & Hne & ->).
  eexists _, _, _. split; [reflexivity|].
  set (o := <["id":=_]> _).
  set (h1 := <[d:=CDate (Some now)]> h) in *.
  set (h2 := <[c:=CObj o]> (<[newItem:=CObj o]> h1)).
  assert (h ⊆ h2) as Hsub.
  { etrans; [by apply (insert_subseteq h d (CDate (Some now)))|].
    by apply two_fresh_subseteq. }
  split; [done|]. unfold all_valid. simpl. apply Forall_app. split.
  { by apply (all_valid_mono h). }
  constructor; [|constructor]. apply isValidTodo_spec.
  assert (props h2 newItem = o) as Hp
    by (unfold h2; by rewrite props_insert_ne, props_insert_eq).
  assert (h2 !! d = Some (CDate (Some now))) as Hd2.
  { eapply lookup_weaken; [apply (lookup_insert_eq h)|].
    by apply two_fresh_subseteq. }
  assert (∀ k, k ∉ ["id"; "createdAt"; "updatedAt"] →
               field h2 newItem k = prop todo k) as Hk.
  { intros k Hnk.
    apply not_elem_of_cons in Hnk as [Hk1 Hnk].
    apply not_elem_of_cons in Hnk as [Hk2 Hnk].
    apply not_elem_of_cons in Hnk as [Hk3 _].
    unfold field, prop. rewrite Hp. unfold o.
    by rewrite !lookup_insert_ne by done. }
  unfold typed_todo in Ht.
  rewrite !andb_true_iff, orb_true_iff, bool_decide_eq_true in Ht.
  destruct Ht as (((Ht1 & Ht2) & Ht3) & Ht4).
  rewrite (Hk "text"), (Hk "status"), (Hk "dueDate"), (Hk "priority")
    by compute_done.
  assert (field h2 newItem "id"
          = VNum (Repository.nextId (TodoAppState.todoRepository s))) as ->.
  { unfold field, prop. rewrite Hp. unfold o. by rewrite lookup_insert_eq. }
  assert (field h2 newItem "createdAt" = VRef d) as ->.
  { unfold field, prop. rewrite Hp. unfold o.
    rewrite !lookup_insert_ne by done. by rewrite lookup_insert_eq. }
  assert (field h2 newItem "updatedAt" = VRef d) as ->.
  { unfold field, prop. rewrite Hp. unfold o.
    rewrite lookup_insert_ne by done. by rewrite lookup_insert_eq. }
  simpl. rewrite Hd2. repeat split; try done.
  destruct Ht4 as [Ht4|Ht4]; [by left|right].
  by apply (instanceof_Date_mono h).
Qed.

Lemma updateTodo_valid (now : Z) (h : heap) s id updates :
  typed_updates h updates = true → all_valid h s →
  ∃ h' s' res,
    TodoAppState.updateTodo Date_parse now h s id updates
    = inr (h', s', res)
    ∧ h ⊆ h' ∧ all_valid h' s'.
Proof.
  intros Ht Hv. pose proof (all_valid_closed _ _ Hv) as Hc.
  destruct (Repository.findIndex h (TodoAppState.todoRepository s) id)
    as [[index old]|] eqn:Hf.
  2:{ rewrite (updateTodo_missing Date_parse now h s id updates Hf).
      eexists _, _, _. split; [reflexivity|]. done. }
  destruct (updateTodo_found Date_parse now h s id updates index old Hc Hf)
    as (c0 & d & h3 & due & merged & c & Hc0 & Hd & Hm & Hcn & Hne
        & Hsub3 & Hdue & Hrun).
  set (h1 := <[c0:=CObj (props h old)]> h) in *.
  set (h2 := <[d:=CDate (Some now)]> h1) in *.
  set (base := TodoAppState.copy_defined updates "priority" _) in *.
  set (updateData :=
         match due with Some v => <["dueDate":=v]> base | None => base end)
    in *.
  set (o := updateData ∪ props h old) in *.
  set (h4 := <[c:=CObj o]> (<[merged:=CObj o]> h3)) in *.
  assert (h ⊆ h1) as Hsub1 by (by apply insert_subseteq).
  assert (h1 ⊆ h2) as Hsub12 by (by apply insert_subseteq).
  assert (h3 ⊆ h4) as Hsub4 by (by apply two_fresh_subseteq).
  assert (h ⊆ h4) as Hsub by (do 3 (etrans; [done|]); done).
  assert (h2 ⊆ h4) as Hsub24 by (by etrans).
  assert (∀ k, k ≠ "dueDate" → updateData !! k = base !! k) as Hud.
  { intros k Hk. unfold updateData. destruct due; [|done].
    by rewrite lookup_insert_ne. }
  apply findIndex_Some in Hf as (Hold & _).
  assert (old ∈ Repository.items (TodoAppState.todoRepository s)) as Hin
    by (by eapply list_elem_of_lookup_2).
  assert (isValidTodo h (VRef old) = true) as Hvo.
  { unfold all_valid in Hv. rewrite Forall_forall in Hv. by apply Hv. }
  apply isValidTodo_spec in Hvo as (O1 & O2 & O3 & O4 & O5 & O6 & O7).
  unfold field in O1, O2, O3, O4, O5, O6, O7.
  unfold typed_updates in Ht.
  rewrite !andb_true_iff, !orb_true_iff, !bool_decide_eq_true in Ht.
  destruct Ht as (((T1 & T2) & T3) & T4).
  assert (props h4 merged = o) as Hp
    by (unfold h4; by rewrite props_insert_ne, props_insert_eq).
  assert (∀ k (P : value → bool),
            k ∈ ["text"; "status"; "priority"] →
            P (prop (props h old) k) = true →
            prop updates k = VUndef ∨ P (prop updates k) = true →
            P (field h4 merged k) = true) as Hcopy.
  { intros k P Hk Hold_k Hnew. unfold field. rewrite Hp. unfold o, prop at 1.
    assert (updateData !! k
            = if bool_decide (prop updates k ≠ VUndef)
              then Some (prop updates k) else None) as Hudk.
    { repeat (apply elem_of_cons in Hk as [->|Hk]);
        [| |  |by apply elem_of_nil in Hk];
        rewrite Hud by done; unfold base;
        rewrite ?copy_defined_lookup_ne by done;
        rewrite copy_defined_lookup_eq;
        rewrite ?copy_defined_lookup_ne by done;
        rewrite ?lookup_singleton_ne by done; done. }
    case_bool_decide as Hdef.
    - rewrite (lookup_union_Some_l _ _ _ _ Hudk). simpl.
      by destruct Hnew.
    - by rewrite (lookup_union_r _ _ _ Hudk). }
  assert (∀ k, k ∉ ["updatedAt"; "text"; "status"; "priority"; "dueDate"] →
               field h4 merged k = prop (props h old) k) as Hkeep.
  { intros k Hk.
    apply not_elem_of_cons in Hk as [Hk1 Hk].
    apply not_elem_of_cons in Hk as [Hk2 Hk].
    apply not_elem_of_cons in Hk as [Hk3 Hk].
    apply not_elem_of_cons in Hk as [Hk4 Hk].
    apply not_elem_of_cons in Hk as [Hk5 _].
    unfold field. rewrite Hp. unfold o, prop at 1.
    rewrite lookup_union_r; [done|].
    rewrite Hud by done. unfold base.
    rewrite !copy_defined_lookup_ne by done.
    by apply lookup_singleton_ne. }
  assert (field h4 merged "updatedAt" = VRef d) as Hupd.
  { unfold field. rewrite Hp. unfold o, prop.
    erewrite lookup_union_Some_l; [done|].
    rewrite Hud by done. unfold base.
    rewrite !copy_defined_lookup_ne by done. apply lookup_singleton_eq. }
  assert (h4 !! d = Some (CDate (Some now))) as Hd4.
  { eapply lookup_weaken; [apply (lookup_insert_eq h1)|done]. }
  assert (field h4 merged "dueDate" = VUndef
          ∨ instanceof_Date h4 (field h4 merged "dueDate") = true) as Hdd.
  { assert (c0 ≠ d) as Hc0d.
    { intros ->. unfold h1 in Hd. by rewrite lookup_insert_eq in Hd. }
    assert (field h2 c0 "dueDate" = prop (props h old) "dueDate") as Hfall.
    { unfold field, h2, h1.
      by rewrite props_insert_ne, props_insert_eq. }
    unfold field. rewrite Hp.
    destruct (updates !! "dueDate") as [v|] eqn:Hv'.
    - destruct Hdue as (v' & Hdv & Hdu).
      assert (prop o "dueDate" = v') as ->.
      { unfold prop, o, updateData. rewrite Hdv.
        erewrite lookup_union_Some_l; [done|]. apply lookup_insert_eq. }
      destruct (dueDate_update_value _ _ _ _ _ Hdu) as [->|[Hi| ->]].
      + by left.
      + right. by apply (instanceof_Date_mono h3).
      + rewrite Hfall. destruct O6 as [O6|O6]; [by left|right].
        by apply (instanceof_Date_mono h).
    - destruct Hdue as [Hdv _].
      assert (prop o "dueDate" = prop (props h old) "dueDate") as ->.
      { unfold prop at 1. unfold o, updateData. rewrite Hdv.
        rewrite lookup_union_r; [done|]. unfold base.
        rewrite !copy_defined_lookup_ne by done.
        by apply lookup_singleton_ne. }
      destruct O6 as [O6|O6]; [by left|right].
      by apply (instanceof_Date_mono h). }
  rewrite Hrun. eexists _, _, _. split; [reflexivity|]. split; [done|].
  unfold all_valid. simpl. apply Forall_insert.
  { by apply (all_valid_mono h). }
  apply isValidTodo_spec.
  rewrite (Hkeep "id"), (Hkeep "createdAt") by compute_done.
  rewrite Hupd.
  split; [done|].
  split; [apply (Hcopy "text" is_string); [compute_done|done|done]|].
  split; [apply (Hcopy "status" isTodoStatus); [compute_done|done|done]|].
  split; [by apply (instanceof_Date_mono h)|].
  split; [simpl; by rewrite Hd4|].
  split; [done|].
  apply (Hcopy "priority" isTodoPriority); [compute_done|done|done].
Qed.

Lemma deleteTodo_valid (h : heap) s id :
  all_valid h s →
  ∃ s' res,
    TodoAppState.deleteTodo h s id = inr (s', res) ∧ all_valid h s'.
Proof.
  intros Hv. unfold TodoAppState.deleteTodo.
  destruct (Repository.delete h (TodoAppState.todoRepository s) id)
    as [r b] eqn:Hd.
  assert (r = (Repository.delete h (TodoAppState.todoRepository s) id).1)
    as Hr by (by rewrite Hd).
  assert (all_valid h (TodoAppState.with_repository s r)) as Hs'.
  { unfold all_valid in *. cbn [TodoAppState.with_repository
      TodoAppState.todoRepository]. rewrite Hr, delete_items.
    rewrite Forall_forall in Hv. apply Forall_forall.
    intros l [_ Hl]%list_elem_of_filter. by apply Hv. }
  destruct b; simpl; unthrow; eauto.
Qed.

Lemma run_valid (ops : list Session.op) : ∀ h s,
  Forall (λ o, typed_op h o = true) ops →
  all_valid h s →
  ∃ h' s',
    Session.run Date_parse h s ops = inr (h', s')
    ∧ h ⊆ h' ∧ all_valid h' s'.
Proof.
  induction ops as [|o ops IH]; intros h s Ht Hv.
  - exists h, s. done.
  - apply Forall_cons in Ht as [Ho Ht].
    assert (∀ h1, h ⊆ h1 → Forall (λ o, typed_op h1 o = true) ops) as Ht1.
    { intros h1 Hsub. eapply Forall_impl; [exact Ht|].
      intros x. by apply typed_op_mono. }
    destruct o as [now todo|now id updates|id];
      cbn [Session.run Session.perform typed_op] in *; unthrow.
    + destruct (addTodo_valid now h s todo Ho Hv)
        as (h1 & s1 & res & -> & Hsub1 & Hv1).
      destruct (IH h1 s1 (Ht1 h1 Hsub1) Hv1) as (h2 & s2 & Hrun & Hsub2 & Hv2).
      exists h2, s2. split; [done|]. split; [by etrans|done].
    + destruct (updateTodo_valid now h s id updates Ho Hv)
        as (h1 & s1 & res & -> & Hsub1 & Hv1).
      destruct (IH h1 s1 (Ht1 h1 Hsub1) Hv1) as (h2 & s2 & Hrun & Hsub2 & Hv2).
      exists h2, s2. split; [done|]. split; [by etrans|done].
    + destruct (deleteTodo_valid h s id Hv) as (s1 & res & -> & Hv1).
      destruct (IH h s1 Ht Hv1) as (h2 & s2 & Hrun & Hsub2 & Hv2).
      exists h2, s2. done.
Qed.

(** X18. In a session on a new [TodoAppState] whose arguments have their
    declared types (the task given to [addTodo] has a string [text], a
    status and a priority of the two unions and a [Date] or no [dueDate];
    the updates given to [updateTodo] are an [UpdateTodoDto]), the session
    runs to its end and every stored task passes the type guard
    [isValidTodo]. *)
Theorem session_validity (ops : list Session.op) (h : heap) :
  Forall (λ o, typed_op h o = true) ops →
  ∃ h' s,
    Session.session Date_parse h ops = inr (h', s)
    ∧ Forall (λ l, isValidTodo h' (VRef l) = true)
        (Repository.items (TodoAppState.todoRepository s)).
Proof.
  intros Ht.
  unfold Session.session, TodoAppState.constructor, Repository.constructor.
  cbn [Repository.load]. unthrow.
  set (s0 := {| TodoAppState.todoRepository := _ |}).
  assert (all_valid h s0) as Hv by constructor.
  destruct (run_valid ops h s0 Ht Hv) as (h' & s & Hrun & _ & Hv').
  exists h', s. done.
Qed.

End SessionValidity.

Lemma session_validity_witness :
  let ops :=
    [ Session.AddTodo 100
        {[ "text" := VStr "Buy milk"; "status" := VStr "pending";
           "priority" := VStr "medium" ]};
      Session.UpdateTodo 250 1
        {[ "status" := VStr "completed"; "dueDate" := VStr "tomorrow" ]};
      Session.AddTodo 300
        {[ "text" := VStr "Walk dog"; "status" := VStr "pending";
           "priority" := VStr "low" ]} ] in
  ∃ h s,
    Session.session (λ _, None) ∅ ops = inr (h, s)
    ∧ Forall (λ l, isValidTodo h (VRef l) = true)
        (Repository.items (TodoAppState.todoRepository s))
    ∧ length (Repository.items (TodoAppState.todoRepository s)) = 2%nat.
Proof.
  intros ops.
  destruct (session_validity (λ _, None) ops ∅) as (h & s & Hrun & Hv).
  - repeat (apply Forall_cons_2; [by vm_compute|]). apply Forall_nil_2.
  - exists h, s. split; [done|]. split; [done|].
    vm_compute in Hrun. injection Hrun as <- <-. by vm_compute.
Defined.

(** ** Adding and removing a task, and what an update leaves alone *)

(** X19. After [addTodo], the identity of the returned task is the old
    [nextId]; [deleteTodo] with that identity succeeds with the value
    [true] and leaves the stored tasks as they were before the addition,
    while [nextId] stays one higher: the identity is not given out again. *)
Theorem add_then_delete (now : Z) (h : heap) (s : TodoAppState.t)
    (todo : object) :
  store_inv h (TodoAppState.todoRepository s) →
  ∃ h1 s1 c s2,
    TodoAppState.addTodo now h s todo
    = inr (h1, s1,
           {| Result.isSuccess := true; Result.isFailure := false;
              Result.error := None; Result._value := VRef c |})
    ∧ field h1 c "id"
      = VNum (Repository.nextId (TodoAppState.todoRepository s))
    ∧ TodoAppState.deleteTodo h1 s1
        (Repository.nextId (TodoAppState.todoRepository s))
      = inr (s2,
             {| Result.isSuccess := true; Result.isFailure := false;
                Result.error := None; Result._value := VBool true |})
    ∧ Repository.items (TodoAppState.todoRepository s2)
      = Repository.items (TodoAppState.todoRepository s)
    ∧ Repository.nextId (TodoAppState.todoRepository s2)
      = Repository.nextId (TodoAppState.todoRepository s) + 1.
Proof.
  intros (Hc & Hu & Hb & Hpos).
  destruct (addTodo_spec now h s todo)
    as (d & newItem & c & Hd & Hn & Hcn & Hne & Hrun).
  set (r := TodoAppState.todoRepository s) in *.
  set (o := <["id":=_]> _) in *.
  set (h1 := <[d:=CDate (Some now)]> h) in *.
  set (h2 := <[c:=CObj o]> (<[newItem:=CObj o]> h1)) in *.
  assert (h ⊆ h2) as Hsub.
  { etrans; [by apply (insert_subseteq h d (CDate (Some now)))|].
    by apply two_fresh_subseteq. }
  assert (field h2 newItem "id" = VNum (Repository.nextId r)) as Hnew.
  { unfold field, h2. rewrite props_insert_ne, props_insert_eq by done.
    unfold prop, o. by rewrite lookup_insert_eq. }
  assert (filter (λ l, field h2 l "id" ≠ VNum (Repository.nextId r))
            (Repository.items r ++ [newItem])
          = Repository.items r) as Hkept.
  { rewrite filter_app, filter_cons_False, filter_nil, app_nil_r
      by (intros Hx; by apply Hx).
    apply filter_all. apply Forall_forall. intros l Hl Heq.
    unfold closed in Hc. rewrite Forall_forall in Hc.
    rewrite (field_mono h h2) in Heq
      by (done || by apply is_object_is_Some, Hc).
    unfold ids_below_next, ids in Hb. rewrite Forall_forall in Hb.
    specialize (Hb (field h l "id")). rewrite Heq in Hb.
    assert (below (Repository.nextId r) (VNum (Repository.nextId r))) as Hlt.
    { apply Hb. rewrite <- Heq.
      change (map ?f ?l) with (f <$> l). apply list_elem_of_fmap. eauto. }
    simpl in Hlt. lia. }
  rewrite Hrun. eexists _, _, c, _. split; [reflexivity|].
  split.
  { unfold field, h2. rewrite props_insert_eq.
    unfold prop, o. by rewrite lookup_insert_eq. }
  unfold TodoAppState.deleteTodo, Repository.delete.
  cbn [TodoAppState.todoRepository TodoAppState.with_repository
       Repository.items Repository.nextId TodoAppState._filter].
  rewrite Hkept.
  rewrite bool_decide_eq_true_2 by (rewrite length_app; simpl; lia).
  unthrow. split; [reflexivity|]. done.
Qed.

Lemma add_then_delete_witness :
  ∃ h1 s1 c s2,
    TodoAppState.addTodo 300 Sample.hp Sample.app {[ "text" := VStr "c" ]}
    = inr (h1, s1,
           {| Result.isSuccess := true; Result.isFailure := false;
              Result.error := None; Result._value := VRef c |})
    ∧ field h1 c "id" = VNum 3
    ∧ TodoAppState.deleteTodo h1 s1 3
      = inr (s2,
             {| Result.isSuccess := true; Result.isFailure := false;
                Result.error := None; Result._value := VBool true |})
    ∧ Repository.items (TodoAppState.todoRepository s2)
      = [2%positive; 4%positive]
    ∧ Repository.nextId (TodoAppState.todoRepository s2) = 4.
Proof.
  apply (add_then_delete 300 Sample.hp Sample.app {[ "text" := VStr "c" ]}).
  apply (bool_decide_unpack _). by vm_compute.
Defined.

Section UpdateFrame.

Context (Date_parse : string → option Z).

(** X20. [updateTodo] on a stored identity changes at most [updatedAt],
    [text], [status], [priority] and [dueDate] of that one task, whatever
    keys the updates carry: every other property of the new stored task and
    of the returned copy ([id] and [createdAt] among them) is the one of
    the old task; [text], [status] or [priority] given as [undefined], and
    [dueDate] when the updates lack the key, are kept as well; the tasks at
    the other positions stay the same objects with the same properties. *)
Theorem updateTodo_touches_five (now : Z) (h : heap) (s : TodoAppState.t)
    (id : Z) (updates : object) index old :
  closed h (TodoAppState.todoRepository s) →
  Repository.findIndex h (TodoAppState.todoRepository s) id
  = Some (index, old) →
  ∃ h' s' merged c,
    TodoAppState.updateTodo Date_parse now h s id updates
    = inr (h', s',
           {| Result.isSuccess := true; Result.isFailure := false;
              Result.error := None; Result._value := VRef c |})
    ∧ Repository.items (TodoAppState.todoRepository s')
      = <[index := merged]> (Repository.items (TodoAppState.todoRepository s))
    ∧ (∀ j l, j ≠ index →
              Repository.items (TodoAppState.todoRepository s) !! j = Some l →
              Repository.items (TodoAppState.todoRepository s') !! j = Some l
              ∧ props h' l = props h l)
    ∧ ∀ k,
        k ∉ ["updatedAt"; "text"; "status"; "priority"; "dueDate"]
        ∨ (k ∈ ["text"; "status"; "priority"] ∧ prop updates k = VUndef)
        ∨ (k = "dueDate" ∧ updates !! "dueDate" = None) →
        props h' merged !! k = props h old !! k
        ∧ props h' c !! k = props h old !! k.
Proof.
  intros Hc Hf.
  destruct (updateTodo_stored Date_parse now h s id updates index old Hc Hf)
    as (h' & merged & c & d & updateData & Hrun & Hsub & Hm & _ & _ & _
        & _ & Hp & Hpc & _ & Hcopy & Hother & Hdue).
  rewrite Hrun. eexists _, _, merged, c. split; [reflexivity|].
  cbn [TodoAppState.todoRepository TodoAppState.with_repository
       Repository.items]. split; [done|]. split.
  - intros j l Hj Hl. split; [by rewrite list_lookup_insert_ne|].
    apply props_mono; [done|]. apply is_object_is_Some.
    unfold closed in Hc. rewrite Forall_forall in Hc. apply Hc.
    by eapply list_elem_of_lookup_2.
  - intros k Hk. rewrite Hp, Hpc.
    assert (updateData !! k = None) as Hnone.
    { destruct Hk as [Hk|[[Hk Hu]|[-> Hu]]].
      + by apply Hother.
      + rewrite (Hcopy k Hk). by rewrite bool_decide_eq_false_2 by naive_solver.
      + by rewrite Hu in Hdue. }
    by rewrite (lookup_union_r _ _ _ Hnone).
Qed.

(** X21. [updateTodo] with an identity that is not stored returns a
    failure with the message 'Todo not found', whose [getValue] throws; the
    heap and the state are unchanged, so no date is made and nothing is
    stored. *)
Theorem updateTodo_unknown_id (now : Z) (h : heap) (s : TodoAppState.t)
    (id : Z) (updates : object) :
  Repository.exists_ h (TodoAppState.todoRepository s) id = false →
  ∃ res,
    TodoAppState.updateTodo Date_parse now h s id updates = inr (h, s, res)
    ∧ Result.isSuccess res = false
    ∧ Result.isFailure res = true
    ∧ Result.error res = Some "Todo not found"
    ∧ Result.getValue res
      = inl (Error "Can't get the value of a failed result.").
Proof.
  intros Hf%exists_false.
  rewrite (updateTodo_missing Date_parse now h s id updates Hf).
  eexists. split; [reflexivity|]. done.
Qed.

End UpdateFrame.

Lemma updateTodo_touches_five_witness :
  ∃ h' s' merged c,
    TodoAppState.updateTodo (λ _, None) 300 Sample.hp Sample.app 1
      {[ "id" := VNum 9; "text" := VUndef; "status" := VStr "completed" ]}
    = inr (h', s',
           {| Result.isSuccess := true; Result.isFailure := false;
              Result.error := None; Result._value := VRef c |})
    ∧ Repository.items (TodoAppState.todoRepository s')
      = [merged; 4%positive]
    ∧ props h' merged !! "id" = Some (VNum 1)
    ∧ props h' c !! "text" = Some (VStr "Buy milk").
Proof.
  destruct (updateTodo_touches_five (λ _, None) 300 Sample.hp Sample.app 1
              {[ "id" := VNum 9; "text" := VUndef;
                 "status" := VStr "completed" ]} 0 2%positive)
    as (h' & s' & merged & c & Hrun & Hitems & _ & Hkeep).
  - apply (bool_decide_unpack _). by vm_compute.
  - by vm_compute.
  - exists h', s', merged, c. split; [done|]. split; [by rewrite Hitems|].
    split.
    + destruct (Hkeep "id") as [-> _]; [left; compute_done|by vm_compute].
    + destruct (Hkeep "text") as [_ ->]; [|by vm_compute].
      right; left. split; [compute_done|by vm_compute].
Defined.

Lemma updateTodo_unknown_id_witness :
  ∃ res,
    TodoAppState.updateTodo (λ _, None) 300 Sample.hp Sample.app 9
      {[ "text" := VStr "x" ]} = inr (Sample.hp, Sample.app, res)
    ∧ Result.isSuccess res = false
    ∧ Result.isFailure res = true
    ∧ Result.error res = Some "Todo not found"
    ∧ Result.getValue res
      = inl (Error "Can't get the value of a failed result.").
Proof.
  apply (updateTodo_unknown_id (λ _, None) 300 Sample.hp Sample.app 9
           {[ "text" := VStr "x" ]}).
  by vm_compute.
Defined.

(** ** A formatted task is not a task *)

Section FormattedGuard.

Context (toISOString : Z → string).

(** X22. What [formatTodoResponse] returns never passes [isValidTodo]:
    its [dueDate] is a string or [null], and the guard accepts only
    [undefined] or a [Date] there. *)
Theorem formatted_is_not_valid (h h' : heap) (todo : object) (l : loc) :
  Formatters.formatTodoResponse toISOString h todo = inr (h', l) →
  isValidTodo h' (VRef l) = false.
Proof.
  unfold Formatters.formatTodoResponse. intros Hrun.
  assert (∃ dueDate,
            (dueDate = VNull ∨ ∃ iso, dueDate = VStr iso)
            ∧ alloc h (CObj (<["dueDate" := dueDate]> todo)) = (h', l))
    as (dueDate & Hdue & Ha).
  { destruct (truthy (prop todo "dueDate")).
    - destruct (Formatters.Date_toISOString toISOString h
                  (prop todo "dueDate")) as [e|iso]; unthrow; [done|].
      exists (VStr iso). split; [eauto|]. congruence.
    - unthrow. exists VNull. split; [by left|]. congruence. }
  apply alloc_spec in Ha as [_ ->].
  apply not_true_is_false.
  intros (_ & _ & _ & _ & _ & Hd & _)%isValidTodo_spec.
  unfold field in Hd. rewrite props_insert_eq in Hd.
  unfold prop in Hd. rewrite lookup_insert_eq in Hd. simpl in Hd.
  destruct Hdue as [->|[iso ->]]; by destruct Hd.
Qed.

End FormattedGuard.

Lemma formatted_is_not_valid_witness :
  ∃ h' l,
    Formatters.formatTodoResponse (λ _, "never") Sample.hp
      (props Sample.hp 2%positive) = inr (h', l)
    ∧ isValidTodo Sample.hp (VRef 2%positive) = true
    ∧ isValidTodo h' (VRef l) = false.
Proof.
  destruct (Formatters.formatTodoResponse (λ _, "never") Sample.hp
              (props Sample.hp 2%positive)) as [e|[h' l]] eqn:Hrun.
  - by vm_compute in Hrun.
  - exists h', l. split; [done|]. split; [by vm_compute|].
    by apply (formatted_is_not_valid (λ _, "never") Sample.hp h'
                (props Sample.hp 2%positive) l).
Defined.
